(** * Dendron: the node model, the schema-file resolver and the file parser

    A shallow embedding of
    - [DNode] and [Note] (the node classes: constructor, [path], [addChild],
      [toRawProps]),
    - [FileParserUtils] ([parseSchemaFile], [parseSchemaVersion1]),
    - [getFileMeta] and [FileParser] ([toNode], [parse], [report]).

    JavaScript objects live in a heap and are named by their address, so that
    [parent]/[children] references, mutation through [addChild] and object
    identity are kept.  Exceptions are an outcome of the computation, and the
    state written before a [throw] stays written. *)

From Stdlib Require Import Ascii Lia.
From stdpp Require Import base option list strings gmap.

Set Default Proof Using "Type".

(** ** JavaScript strings *)

Module JS.

(** [s.split(".")]: never empty, one more piece than there are dots. *)
Fixpoint split_dot (s : string) : list string :=
  match s with
  | EmptyString => [EmptyString]
  | String c r =>
      if Ascii.eqb c "."%char then EmptyString :: split_dot r
      else match split_dot r with
           | [] => [String c EmptyString]
           | x :: xs => String c x :: xs
           end
  end.

(** [l.join(".")] *)
Fixpoint join_dot (l : list string) : string :=
  match l with
  | [] => EmptyString
  | [x] => x
  | x :: r => x +:+ "." +:+ join_dot r
  end.

(** Truthiness of a [string | null | undefined] value: the empty string is
    falsy, like [null] and [undefined]. *)
Definition truthy (v : option string) : bool :=
  match v with
  | Some s => negb (String.eqb s EmptyString)
  | None => false
  end.

(** [a || b] where [a] is a possibly absent string. *)
Definition or_else (a : option string) (b : string) : string :=
  if truthy a then default b a else b.

(** [_.defaults]: a property is filled in only when it is [undefined]. *)
Definition defaults {A} (v : option A) (d : A) : A := default d v.

End JS.

(** ** The node classes *)

Module DNode.

(** Objects are named by their position in the heap. *)
Abbreviation addr := nat.

(** Modelled from the spec: [IDNodeType] is declared in [./types], which is
    not part of the sources; the spec describes it as the enumerated kind of
    a node, "note vs schema". *)
Inductive IDNodeType := note | schema.

(** [IDNodeOpts]: a property that may be left out is an [option]
    ([None] is [undefined]); [parent] and [parentId] may moreover be
    [null], the inner [None]. *)
Record IDNodeOpts := mkOpts {
  o_id : option string;
  o_title : string;
  o_desc : option string;
  o_type : IDNodeType;
  o_updated : option string;
  o_created : option string;
  o_parent : option (option addr);
  o_children : option (list addr);
  o_body : option string;
  o_parentId : option (option string);
  o_childrenIds : option (list string)
}.

(** The fields of the abstract class [DNode]. *)
Record DNode := mkDNode {
  id : string;
  title : string;
  desc : string;
  type : IDNodeType;
  updated : string;
  created : string;
  parent : option addr;
  children : list addr;
  body : string;
  parentId : option string;
  childrenIds : list string
}.

(** [DNode.constructor] *)
Definition DNode_new (opts : IDNodeOpts) : DNode :=
  {| id := JS.defaults (o_id opts) "TODO";
     title := o_title opts;
     desc := JS.defaults (o_desc opts) EmptyString;
     type := o_type opts;
     updated := JS.defaults (o_updated opts) "TODO";
     created := JS.defaults (o_created opts) "TODO";
     parent := JS.defaults (o_parent opts) None;
     children := JS.defaults (o_children opts) [];
     body := JS.defaults (o_body opts) EmptyString;
     parentId := JS.defaults (o_parentId opts) None;
     childrenIds := JS.defaults (o_childrenIds opts) [] |}.

(** [INoteOpts]: the options of a node, [schemaId], and [fname].
    [FileParser] reads [n.fname] from the notes it builds: the [Note] it
    imports carries the file name of its properties, so the record keeps it
    next to the fields of this file's [Note]. *)
Record INoteOpts := mkNoteOpts {
  o_node : IDNodeOpts;
  o_schemaId : option string;
  o_fname : option string
}.

(** An instance of [Note]. *)
Record Note := mkNote {
  node :> DNode;
  schemaId : string;
  fname : option string
}.

Definition with_links (parent : option (option addr))
    (children : option (list addr)) (o : IDNodeOpts) : IDNodeOpts :=
  {| o_id := o_id o; o_title := o_title o; o_desc := o_desc o;
     o_type := o_type o; o_updated := o_updated o; o_created := o_created o;
     o_parent := parent; o_children := children;
     o_body := o_body o; o_parentId := o_parentId o;
     o_childrenIds := o_childrenIds o |}.

(** [Note.constructor]:
    [super({ ...props, parent: null, children: [] })] and
    [this.schemaId = props.schemaId || "-1"]. *)
Definition Note_new (props : INoteOpts) : Note :=
  {| node := DNode_new (with_links (Some None) (Some []) (o_node props));
     schemaId := JS.or_else (o_schemaId props) "-1";
     fname := o_fname props |}.

(** The heap of notes.  A reference held by the program always points into
    the heap, objects are never freed. *)
Abbreviation Heap := (list Note).

(** [new Note(props)]: the new object and the heap that holds it. *)
Definition alloc (props : INoteOpts) (h : Heap) : addr * Heap :=
  (length h, h ++ [Note_new props]).

Definition set_parent (p : option addr) (n : Note) : Note :=
  {| node := {| id := id n; title := title n; desc := desc n; type := type n;
                updated := updated n; created := created n;
                parent := p; children := children n;
                body := body n; parentId := parentId n;
                childrenIds := childrenIds n |};
     schemaId := schemaId n; fname := fname n |}.

Definition push_child (c : addr) (n : Note) : Note :=
  {| node := {| id := id n; title := title n; desc := desc n; type := type n;
                updated := updated n; created := created n;
                parent := parent n; children := children n ++ [c];
                body := body n; parentId := parentId n;
                childrenIds := childrenIds n |};
     schemaId := schemaId n; fname := fname n |}.

(** [this.addChild(node)]:
    [this.children.push(node); node.parent = this]. *)
Definition addChild (this child : addr) (h : Heap) : Heap :=
  alter (set_parent (Some this)) child (alter (push_child child) this h).

(** [get path()].  The getter calls itself on the parent; on a cyclic
    parent chain it never returns, which is the result [None] for every
    amount of fuel. *)
Fixpoint path_fuel (fuel : nat) (h : Heap) (a : addr) : option string :=
  match fuel with
  | 0 => None
  | S fuel' =>
      match (h !! a : option Note) with
      | None => None
      | Some n =>
          match parent n with
          | Some p =>
              match (h !! p : option Note) with
              | None => None
              | Some pn =>
                  if bool_decide (title pn ≠ "root")
                  then match path_fuel fuel' h p with
                       | Some pp => Some (JS.join_dot [pp; title n])
                       | None => None
                       end
                  else Some (title n)
              end
          | None => Some (title n)
          end
      end
  end.

(** A parent chain without a cycle is shorter than the heap, so this much
    fuel decides whether the getter returns. *)
Definition path (h : Heap) (a : addr) : option string :=
  path_fuel (S (length h)) h a.

(** [get url()] *)
Definition url (n : DNode) : string := "/doc/" +:+ id n.

(** [renderBody()] *)
Definition renderBody (n : DNode) : string :=
  JS.or_else (Some (body n)) "Empty Document".

(** [DNodeRawProps], what [_.pick] keeps in [toRawProps]. *)
Record DNodeRawProps := mkRaw {
  r_id : string;
  r_title : string;
  r_desc : string;
  r_type : IDNodeType;
  r_updated : string;
  r_created : string;
  r_body : string;
  r_parentId : option string;
  r_childrenIds : list string
}.

(** [toRawProps()] *)
Definition toRawProps (n : DNode) : DNodeRawProps :=
  {| r_id := id n; r_title := title n; r_desc := desc n; r_type := type n;
     r_updated := updated n; r_created := created n; r_body := body n;
     r_parentId := parentId n; r_childrenIds := childrenIds n |}.

(** A raw record read back as constructor options: every picked property
    is present, [parent] and [children] are not. *)
Definition opts_of_raw (r : DNodeRawProps) : IDNodeOpts :=
  {| o_id := Some (r_id r); o_title := r_title r; o_desc := Some (r_desc r);
     o_type := r_type r; o_updated := Some (r_updated r);
     o_created := Some (r_created r);
     o_parent := None; o_children := None;
     o_body := Some (r_body r); o_parentId := Some (r_parentId r);
     o_childrenIds := Some (r_childrenIds r) |}.

Definition note_opts_of_raw (r : DNodeRawProps) : INoteOpts :=
  {| o_node := opts_of_raw r; o_schemaId := None; o_fname := None |}.

(** The value [toDocument()] builds:
    [{ document: { nodes: [{ object, type, nodes: [{ object, text }] }] } }]. *)
Record Leaf := mkLeaf {
  leaf_object : string;
  leaf_text : string
}.

Record Block := mkBlock {
  block_object : string;
  block_type : string;
  block_nodes : list Leaf
}.

Record DocumentNodes := mkDocumentNodes {
  doc_nodes : list Block
}.

Record DocumentValue := mkDocumentValue {
  document : DocumentNodes
}.

(** [toDocument()] *)
Definition toDocument (n : DNode) : DocumentValue :=
  {| document :=
       {| doc_nodes :=
            [{| block_object := "block";
                block_type := "paragraph";
                block_nodes :=
                  [{| leaf_object := "text";
                      leaf_text := renderBody n |}] |}] |} |}.

End DNode.

Import DNode.

(** ** Outcomes *)

(** [FileMeta]: [prefix] is the file name without its extension, [fpath] the
    path as listed. *)
Record FileMeta := mkFileMeta {
  prefix : string;
  fpath : string
}.

(** The entries pushed on [FileParser.errors]. *)
Inductive ErrorMsg :=
| BAD_PARSE (ent : FileMeta) (err : string)
| NO_PARENT_PATH (ent : FileMeta) (parentPath : string).

(** What a [throw] carries. *)
Inductive Exn :=
| Thrown (err : string)
    (** the error of a collaborator ([mdFile2NodeProps], [fs], [YAML]),
        passed on as it is *)
| NoParent (msg : ErrorMsg)
    (** [new Error(JSON.stringify(errorMsg))] *)
| TypeError
    (** a property read on [null] or [undefined] *)
| RangeError.
    (** the call stack exhausted by a getter that calls itself for ever *)

Inductive Outcome (A : Type) :=
| Ok (a : A)
| Throw (e : Exn).
Arguments Ok {A} a.
Arguments Throw {A} e.

(** ** FileParserUtils: the schema-file resolver *)

Module Schema.

(** Modelled from the spec: [SchemaRawProps], [SchemaRawOpts] and
    [SchemaRawV1] are declared in [@dendronhq/common-all], which is not part
    of the sources.  The spec gives the normalized record as
    [{ id, fname, data: { pattern, title, desc, ... }, parent: null,
    children: [childId...] }], version 0 as a bare sequence of entries and
    version 1 as [{ imports: [moduleName...], schemas: [entry...] }]. *)
Record SchemaData := mkData {
  pattern : option string;
  d_title : option string;
  d_desc : option string
}.

Record SchemaRawProps := mkProps {
  s_id : string;
  s_fname : string;
  data : SchemaData;
  s_parent : option string;
  s_children : list string
}.

(** An entry as the YAML parser returns it. *)
Record SchemaRawOpts := mkEntry {
  e_id : string;
  e_fname : option string;
  e_data : SchemaData;
  e_children : option (list string)
}.

(** [{ ...o, fname }] *)
Definition with_fname (fname : string) (o : SchemaRawOpts) : SchemaRawOpts :=
  {| e_id := e_id o; e_fname := Some fname; e_data := e_data o;
     e_children := e_children o |}.

Record SchemaRawV1 := mkV1 {
  imports : option (list string);
  schemas : option (list SchemaRawOpts)
}.

(** The value [YAML.parse] returns: an array, an object, or anything else
    ([null], a scalar). *)
Inductive Yaml :=
| YArray (entries : list SchemaRawOpts)
| YObject (o : SchemaRawV1)
| YOther.

(** [_.isArray] *)
Definition isArray (y : Yaml) : bool :=
  match y with YArray _ => true | _ => false end.

(** [(schemaOpts as unknown) as SchemaRawV1]: the properties [imports] and
    [schemas] of a value that is not an object of that shape are
    [undefined]. *)
Definition as_v1 (y : Yaml) : SchemaRawV1 :=
  match y with
  | YObject o => o
  | _ => {| imports := None; schemas := None |}
  end.

Definition set_pattern (p : option string) (d : SchemaData) : SchemaData :=
  {| pattern := p; d_title := d_title d; d_desc := d_desc d |}.

Section Resolver.

(** The collaborators: [path.parse(p).name], [path.join],
    [YAML.parse(fs.readFileSync(p, "utf8"))] (which throws on the left),
    [SchemaUtils.fname] and [Schema.createRawProps]. *)
Variable path_name : string -> string.
Variable path_join : string -> string -> string.
Variable readYaml : string -> string + Yaml.
Variable SchemaUtils_fname : string -> string.
Variable createRawProps : SchemaRawOpts -> SchemaRawProps.

(** The rewriting of an entry that came in through an import, the body
    of [schemasFromImport.map] in [parseSchemaVersion1]. *)
Definition rewrite_import (fname : string) (ent : SchemaRawProps)
    : SchemaRawProps :=
  let domain := SchemaUtils_fname (s_fname ent) in
  {| s_id := domain +:+ "." +:+ s_id ent;
     s_fname := fname;
     data := set_pattern (Some (JS.or_else (pattern (data ent)) (s_id ent)))
               (data ent);
     s_parent := None;
     s_children := map (fun c => domain +:+ "." +:+ c) (s_children ent) |}.

(** [_.flatMap(imports, f)]: the files are resolved in order, and the
    first one that throws or does not return ends the call. *)
Fixpoint flatMap (f : string -> option (Outcome (list SchemaRawProps)))
    (l : list string) : option (Outcome (list SchemaRawProps)) :=
  match l with
  | [] => Some (Ok [])
  | ent :: rest =>
      match f ent with
      | None => None
      | Some (Throw e) => Some (Throw e)
      | Some (Ok xs) =>
          match flatMap f rest with
          | None => None
          | Some (Throw e) => Some (Throw e)
          | Some (Ok ys) => Some (Ok (xs ++ ys))
          end
      end
  end.

(** [parseSchemaVersion1], over the function it calls back. *)
Definition parseSchemaVersion1_with
    (parseSchemaFile : string -> string -> option (Outcome (list SchemaRawProps)))
    (schema : SchemaRawV1) (fname root : string)
    : option (Outcome (list SchemaRawProps)) :=
  match flatMap (fun ent => parseSchemaFile (ent +:+ ".schema.yml") root)
          (JS.defaults (imports schema) []) with
  | None => None
  | Some (Throw e) => Some (Throw e)
  | Some (Ok schemasFromImport) =>
      let schemasFromImport := map (rewrite_import fname) schemasFromImport in
      match schemas schema with
      | None => Some (Throw TypeError)
      | Some entries =>
          let schemasFromFile :=
            map (fun o => createRawProps (with_fname fname o)) entries in
          Some (Ok (schemasFromImport ++ schemasFromFile))
      end
  end.

(** [parseSchemaFile].  The recursion through imports is not bounded by
    the code (an import cycle never returns), so it runs on fuel; [None]
    is "has not returned yet". *)
Fixpoint parseSchemaFile (fuel : nat) (fpath root : string)
    : option (Outcome (list SchemaRawProps)) :=
  match fuel with
  | 0 => None
  | S fuel' =>
      let fname := path_name fpath in
      match readYaml (path_join root fpath) with
      | inl err => Some (Throw (Thrown err))
      | inr schemaOpts =>
          let version := if isArray schemaOpts then 0 else 1 in
          if version =? 1 then
            parseSchemaVersion1_with (parseSchemaFile fuel')
              (as_v1 schemaOpts) fname root
          else
            match schemaOpts with
            | YArray entries =>
                Some (Ok (map (fun o => createRawProps (with_fname fname o))
                            entries))
            | _ => Some (Throw TypeError)
            end
      end
  end.

Definition parseSchemaVersion1 (fuel : nat) :=
  parseSchemaVersion1_with (parseSchemaFile fuel).

(** [FileParser.parseSchema], with [this.store.opts.root] as [root]:
    nothing for an empty listing, and
    [data.map((fpath) => parseSchemaFile(fpath, { root })).flat()]
    otherwise. *)
Definition parseSchema (fuel : nat) (data : list string) (root : string)
    : option (Outcome (list SchemaRawProps)) :=
  if bool_decide (data = []) then Some (Ok [])
  else flatMap (fun fpath => parseSchemaFile fuel fpath root) data.

End Resolver.

End Schema.

(** ** FileParser *)

Module FileParser.

(** The state a run works on: the heap of notes, and the fields [errors]
    and [missing] of the [FileParser] instance.  [missing] is a [Set]: it
    keeps one copy of a string, in the order of first insertion. *)
Record PState := mkState {
  heap : list Note;
  errors : list ErrorMsg;
  missing : list string
}.

(** A computation reads and writes the state and returns or throws. *)
Definition M (A : Type) : Type := PState -> Outcome A * PState.

#[global] Instance M_ret : MRet M := fun A a s => (Ok a, s).

#[global] Instance M_bind : MBind M := fun A B f m s =>
  match m s with
  | (Ok a, s') => f a s'
  | (Throw e, s') => (Throw e, s')
  end.

Definition throw {A} (e : Exn) : M A := fun s => (Throw e, s).

Definition lift {A} (o : Outcome A) : M A := fun s => (o, s).

Definition get_heap : M (list Note) := fun s => (Ok (heap s), s).

Definition with_heap (h : list Note) (s : PState) : PState :=
  {| heap := h; errors := errors s; missing := missing s |}.

Definition with_error (msg : ErrorMsg) (s : PState) : PState :=
  {| heap := heap s; errors := errors s ++ [msg]; missing := missing s |}.

Definition with_missing (m : string) (s : PState) : PState :=
  {| heap := heap s; errors := errors s;
     missing := if bool_decide (m ∈ missing s) then missing s
                else missing s ++ [m] |}.

Definition put_heap (h : list Note) : M unit := fun s =>
  (Ok tt, with_heap h s).

(** [this.errors.push(errorMsg)] *)
Definition push_error (msg : ErrorMsg) : M unit := fun s =>
  (Ok tt, with_error msg s).

(** [this.missing.add(missing)] *)
Definition add_missing (m : string) : M unit := fun s =>
  (Ok tt, with_missing m s).

(** [new Note(props)] *)
Definition new_Note (props : INoteOpts) : M addr := fun s =>
  (Ok (alloc props (heap s)).1, with_heap (alloc props (heap s)).2 s).

(** [this_.addChild(child)] on references that may be [null]: a call on
    [null] is a [TypeError], and so is the assignment [node.parent = this]
    when the argument is [null].  (In the second case [push] has stored the
    [null] by then; [children] here holds objects only.  [parse] never
    passes [null]: the notes of the first level come from calls of [toNode]
    that return a note or throw, see [toNode_domain_root].) *)
Definition addChildM (this_ child : option addr) : M unit :=
  match this_, child with
  | Some p, Some c => h ← get_heap; put_heap (addChild p c h)
  | _, _ => throw TypeError
  end.

(** [n.fname] as a property key: [undefined] is the key ["undefined"]. *)
Definition fname_key (n : option addr) : M string := fun s =>
  match n with
  | Some a =>
      match heap s !! a with
      | Some nd => (Ok (default "undefined" (fname nd)), s)
      | None => (Throw TypeError, s)
      end
  | None => (Throw TypeError, s)
  end.

(** [_.find(parents, (p) => p.path === parentPath) || null] *)
Fixpoint find_parent (h : list Note) (parentPath : string)
    (parents : list (option addr)) : Outcome (option addr) :=
  match parents with
  | [] => Ok None
  | None :: _ => Throw TypeError
  | Some p :: rest =>
      match path h p with
      | None => Throw RangeError
      | Some s =>
          if String.eqb s parentPath then Ok (Some p)
          else find_parent h parentPath rest
      end
  end.

(** [{ ...noteProps, parent, children: [] }] *)
Definition with_parent (parent : option addr) (props : INoteOpts)
    : INoteOpts :=
  {| o_node := with_links (Some parent) (Some []) (o_node props);
     o_schemaId := o_schemaId props; o_fname := o_fname props |}.

(** *** The helpers of [@dendronhq/common-all] *)

(** Modelled from the spec: [DNodeUtils.dirName] is not part of the
    sources.  The spec: the expected parent path of a file is derived "by
    removing the last dot-segment from its stem ([dirName])". *)
Definition dirName (nodePath : string) : string :=
  JS.join_dot (removelast (JS.split_dot nodePath)).

(** Modelled from the spec: [Note.logicalPath] is not part of the sources.
    It is the dotted path the file name of the note stands for; the root
    does not contribute a segment. *)
Definition logicalPath (n : Note) : string :=
  let f := default "undefined" (fname n) in
  if String.eqb f "root" then EmptyString else f.

(** Modelled from the spec: [DNodeUtils.findClosestParent] is not part of
    the sources.  The spec: "locate the closest existing ancestor by
    iteratively trimming trailing segments off the expected path and
    checking the node set already indexed by resolved path/name"; with no
    segment left the ancestor is the root.  [rsegs] holds the segments of
    the path, last one first. *)
Fixpoint findClosestParent_segs (rsegs : list string)
    (nodes : gmap string (option addr)) : option addr :=
  match rsegs with
  | [] => default None (nodes !! "root")
  | _ :: rest =>
      let dirname := JS.join_dot (rev rest) in
      if String.eqb dirname EmptyString then default None (nodes !! "root")
      else match nodes !! dirname with
           | Some (Some n) => Some n
           | _ => findClosestParent_segs rest nodes
           end
  end.

Definition findClosestParent (fpath : string)
    (nodes : gmap string (option addr)) : option addr :=
  findClosestParent_segs (rev (JS.split_dot fpath)) nodes.

(** Modelled from the spec: [Note.createStub] is not part of the sources.
    The spec: a stub is "a fully valid [Note] with a derived title (the
    missing segment) and empty body/desc". *)
Definition stub_props (stubPath part : string) : INoteOpts :=
  {| o_node := {| o_id := None; o_title := part; o_desc := Some EmptyString;
                  o_type := note; o_updated := None; o_created := None;
                  o_parent := None; o_children := None;
                  o_body := Some EmptyString; o_parentId := None;
                  o_childrenIds := None |};
     o_schemaId := None; o_fname := Some stubPath |}.

(** One stub per segment, each the child of the one before. *)
Fixpoint stub_chain (stubPath : string) (parent : addr) (parts : list string)
    : M (addr * list addr) :=
  match parts with
  | [] => mret (parent, [])
  | part :: rest =>
      let stubPath' :=
        if String.eqb stubPath EmptyString then part
        else stubPath +:+ "." +:+ part in
      n ← new_Note (stub_props stubPath' part);
      addChildM (Some parent) (Some n);;
      r ← stub_chain stubPath' n rest;
      mret (r.1, n :: r.2)
  end.

(** Modelled from the spec: [NoteUtils.createStubNotes] is not part of the
    sources.  The spec: "Input: the closest existing ancestor node and the
    orphaned child awaiting attachment.  Output: an ordered sequence of
    newly created placeholder nodes filling every absent intermediate path
    segment, each attached to the previous via [addChild], with the orphan
    finally attached to the last stub." *)
Definition createStubNotes (from to : option addr) : M (list addr) :=
  match from, to with
  | Some from, Some to =>
      h ← get_heap;
      match h !! from, h !! to with
      | Some fromN, Some toN =>
          let fromPath := logicalPath fromN in
          let toSegs := JS.split_dot (logicalPath toN) in
          let depth :=
            if String.eqb fromPath EmptyString then 0
            else length (JS.split_dot fromPath) in
          let parts := removelast (drop depth toSegs) in
          r ← stub_chain fromPath from parts;
          addChildM (Some r.1) (Some to);;
          mret r.2
      | _, _ => throw TypeError
      end
  | _, _ => throw TypeError
  end.

(** *** getFileMeta *)

Section Parser.

(** The collaborators: [path.parse(p).name], [path.join],
    [globMatch], [mdFile2NodeProps] (which throws on the left), and
    [store.opts.root]. *)
Variable path_name : string -> string.
Variable path_join : string -> string -> string.
Variable globMatch : list string -> string -> bool.
Variable mdFile2NodeProps : string -> string + INoteOpts.
Variable root : string.

(** [getFileMeta]: the files by level, in the order of the listing. *)
Definition getFileMeta (fpaths : list string) : gmap nat (list FileMeta) :=
  fold_left
    (fun metaDict fpath =>
       let name := path_name fpath in
       let lvl := length (JS.split_dot name) in
       <[lvl := default [] (metaDict !! lvl)
                  ++ [{| prefix := name; fpath := fpath |}]]> metaDict)
    fpaths ∅.

(** [FileParserOpts] and the constructor's [_.defaults]. *)
Record FileParserOpts := mkParserOpts {
  errorOnEmpty : option bool;
  errorOnBadParse : option bool
}.

Record FileParserProps := mkParserProps {
  p_errorOnEmpty : bool;
  p_errorOnBadParse : bool
}.

Definition constructor (opts : option FileParserOpts) : FileParserProps :=
  {| p_errorOnEmpty := JS.defaults (opts ≫= errorOnEmpty) true;
     p_errorOnBadParse := JS.defaults (opts ≫= errorOnBadParse) true |}.

(** The options of [toNode]. *)
Record ToNodeOpts := mkToNodeOpts {
  t_errorOnEmpty : option bool;
  t_isRoot : option bool;
  t_errorOnBadParse : option bool
}.

(** [toNode] *)
Definition toNode (ent : FileMeta) (parents : list (option addr))
    (opts : ToNodeOpts) : M (option addr * option string) :=
  let errorOnEmpty := JS.defaults (t_errorOnEmpty opts) true in
  let isRoot := JS.defaults (t_isRoot opts) false in
  let errorOnBadParse := JS.defaults (t_errorOnBadParse opts) true in
  match mdFile2NodeProps (path_join root (fpath ent)) with
  | inl err =>
      if errorOnBadParse then throw (Thrown err)
      else
        push_error (BAD_PARSE ent err);;
        mret (None, None)
  | inr noteProps =>
      let parentPath := dirName (prefix ent) in
      h ← get_heap;
      parent ← lift (find_parent h parentPath parents);
      missing ←
        (if negb (bool_decide (is_Some parent)) && negb isRoot then
           let errorMsg := NO_PARENT_PATH ent parentPath in
           push_error errorMsg;;
           if errorOnEmpty then throw (NoParent errorMsg)
           else mret (Some parentPath)
         else mret None);
      note ← new_Note (with_parent parent noteProps);
      (match parent with
       | Some p => addChildM (Some p) (Some note)
       | None => mret tt
       end);;
      mret (Some note, missing)
  end.

Section Parse.

(** [this.opts] *)
Variable opts : FileParserProps.
Variable fileMetaDict : gmap nat (list FileMeta).

(** [stubNodes.forEach] and [currNodes.forEach]:
    [nodesStoreByFname[n.fname] = n]. *)
Fixpoint index_nodes (nodes : list addr)
    (nodesStoreByFname : gmap string (option addr))
    : M (gmap string (option addr)) :=
  match nodes with
  | [] => mret nodesStoreByFname
  | n :: rest =>
      k ← fname_key (Some n);
      index_nodes rest (<[k := Some n]> nodesStoreByFname)
  end.

(** The body of the [map] over the files of a level. *)
Definition level_entry (prevNodes : list (option addr)) (ent : FileMeta)
    (nodesStoreByFname : gmap string (option addr))
    : M (option addr * gmap string (option addr)) :=
  if globMatch ["root.*"] (fpath ent) then mret (None, nodesStoreByFname)
  else
    r ← toNode ent prevNodes
          {| t_errorOnEmpty := Some (p_errorOnEmpty opts);
             t_isRoot := None;
             t_errorOnBadParse := Some (p_errorOnBadParse opts) |};
    let node := r.1 in
    let missing := r.2 in
    if JS.truthy missing then
      h ← get_heap;
      match node ≫= (fun a => h !! a) with
      | None => throw TypeError
      | Some nd =>
          let closetParent :=
            findClosestParent (logicalPath nd) nodesStoreByFname in
          stubNodes ← createStubNotes closetParent node;
          d ← index_nodes stubNodes nodesStoreByFname;
          add_missing (default EmptyString missing);;
          mret (node, d)
      end
    else mret (node, nodesStoreByFname).

Fixpoint level_map (prevNodes : list (option addr)) (ents : list FileMeta)
    (nodesStoreByFname : gmap string (option addr))
    : M (list (option addr) * gmap string (option addr)) :=
  match ents with
  | [] => mret ([], nodesStoreByFname)
  | ent :: rest =>
      r ← level_entry prevNodes ent nodesStoreByFname;
      rs ← level_map prevNodes rest r.2;
      mret (r.1 :: rs.1, rs.2)
  end.

(** [while (lvl <= maxLvl)], [n] iterations left. *)
Fixpoint parse_levels (n lvl : nat) (prevNodes : list (option addr))
    (nodesStoreByFname : gmap string (option addr))
    : M (gmap string (option addr)) :=
  match n with
  | 0 => mret nodesStoreByFname
  | S n' =>
      r ← level_map prevNodes (default [] (fileMetaDict !! lvl))
            nodesStoreByFname;
      let currNodes := omap (fun n => n) r.1 in
      d ← index_nodes currNodes r.2;
      parse_levels n' (S lvl) (Some <$> currNodes) d
  end.

(** [prevNodes.forEach] of the first level:
    [rootNode.addChild(n); nodesStoreByFname[n.fname] = n]. *)
Fixpoint attach_domains (rootNode : option addr)
    (prevNodes : list (option addr))
    (nodesStoreByFname : gmap string (option addr))
    : M (gmap string (option addr)) :=
  match prevNodes with
  | [] => mret nodesStoreByFname
  | n :: rest =>
      addChildM rootNode n;;
      k ← fname_key n;
      attach_domains rootNode rest (<[k := n]> nodesStoreByFname)
  end.

End Parse.

(** [_.max(_.keys(fileMetaDict).map((e) => toInteger(e))) || 2] *)
Definition maxLvl_of (fileMetaDict : gmap nat (list FileMeta)) : nat :=
  let m := max_list (fst <$> map_to_list fileMetaDict) in
  if m =? 0 then 2 else m.

(** [parse].  The result is [_.values(nodesStoreByFname)], an unordered
    collection. *)
Definition parse (opts : FileParserProps) (data : list string)
    : M (list (option addr)) :=
  if bool_decide (data = []) then mret []
  else
    let fileMetaDict := getFileMeta data in
    let maxLvl := maxLvl_of fileMetaDict in
    match fileMetaDict !! 1 with
    | None => throw TypeError
    | Some lvl1 =>
        match find (fun n => String.eqb (fpath n) "root.md") lvl1 with
        | None => mret []
        | Some rootMeta =>
            r ← toNode rootMeta []
                  {| t_errorOnEmpty := None; t_isRoot := Some true;
                     t_errorOnBadParse := Some (p_errorOnBadParse opts) |};
            let rootNode := r.1 in
            let nodesStoreByFname : gmap string (option addr) :=
              <["root" := rootNode]> ∅ in
            prevNodes ←
              mapM (fun ent =>
                      r ← toNode ent []
                            {| t_errorOnEmpty := None; t_isRoot := Some true;
                               t_errorOnBadParse := None |};
                      mret r.1)
                (List.filter
                   (fun n => negb (String.eqb (fpath n) "root.md")) lvl1);
            d ← attach_domains rootNode prevNodes nodesStoreByFname;
            d ← parse_levels opts fileMetaDict (maxLvl - 1) 2 prevNodes d;
            mret ((map_to_list d).*2)
        end
    end.

(** [report] *)
Definition report (s : PState) : nat * list ErrorMsg * list string :=
  (length (errors s), errors s, missing s).

End Parser.

(** A fresh [FileParser] over a heap. *)
Definition fresh (h : list Note) : PState :=
  {| heap := h; errors := []; missing := [] |}.

End FileParser.

(** ** A concrete file system for examples *)

Module Demo.

Fixpoint has_slash (s : string) : bool :=
  match s with
  | EmptyString => false
  | String c r => Ascii.eqb c "/"%char || has_slash r
  end.

(** The part of [s] after its last slash. *)
Fixpoint basename (s : string) : string :=
  match s with
  | EmptyString => EmptyString
  | String c r => if has_slash s then basename r else s
  end.

(** [path.parse(p).name] on a plain file path: the base name without its
    extension, the extension starting at the last dot that is not the first
    character. *)
Definition path_name (p : string) : string :=
  let b := basename p in
  match JS.split_dot b with
  | [] | [_] => b
  | [x; y] => if String.eqb x EmptyString then b else x
  | segs => JS.join_dot (removelast segs)
  end.

Definition path_join (a b : string) : string := a +:+ "/" +:+ b.

(** [globMatch(["root.*"], p)]: the file name starts with [root.]. *)
Definition globMatch (patterns : list string) (p : string) : bool :=
  existsb (fun pat => if String.eqb pat "root.*"
                      then String.prefix "root." p else String.eqb pat p)
    patterns.

(** A note whose title is the last segment of its file name and whose
    [fname] is the file name. *)
Definition props_of (name : string) : INoteOpts :=
  {| o_node := {| o_id := Some name;
                  o_title := List.last (JS.split_dot name) EmptyString;
                  o_desc := None; o_type := note; o_updated := None;
                  o_created := None; o_parent := None; o_children := None;
                  o_body := Some "text"; o_parentId := None;
                  o_childrenIds := None |};
     o_schemaId := None; o_fname := Some name |}.

(** Every file parses, except those whose last segment is [bad]. *)
Definition mdFile2NodeProps (p : string) : string + INoteOpts :=
  let name := path_name p in
  if String.eqb (List.last (JS.split_dot name) EmptyString) "bad"
  then inl "bad front matter"
  else inr (props_of name).

(** The same files, except that [root.md] does not parse. *)
Definition mdFile2NodeProps_no_root (p : string) : string + INoteOpts :=
  if String.eqb (path_name p) "root" then inl "bad front matter"
  else mdFile2NodeProps p.

Definition root : string := "/vault".

Definition parse (opts : option FileParser.FileParserOpts)
    (data : list string) :=
  FileParser.parse path_name path_join globMatch mdFile2NodeProps root
    (FileParser.constructor opts) data (FileParser.fresh []).

Definition parse_no_root (opts : option FileParser.FileParserOpts)
    (data : list string) :=
  FileParser.parse path_name path_join globMatch mdFile2NodeProps_no_root root
    (FileParser.constructor opts) data (FileParser.fresh []).

(** How many nodes a run returned, [None] when it threw.  (The order of the
    result is not part of the model.) *)
Definition returned {A} (r : Outcome (list A) * FileParser.PState)
    : option nat :=
  match r.1 with
  | Ok l => Some (length l)
  | Throw _ => None
  end.

Definition relaxed : option FileParser.FileParserOpts :=
  Some {| FileParser.errorOnEmpty := Some false;
          FileParser.errorOnBadParse := Some false |}.

(** Modelled from the spec: [SchemaUtils.fname] is not part of the sources.
    The spec names the prefix of an imported entry after the imported module
    ([shared] for [shared.schema.yml]): the file name without its [.schema]
    ending. *)
Definition SchemaUtils_fname (fname : string) : string :=
  let segs := JS.split_dot fname in
  if String.eqb (List.last segs EmptyString) "schema"
  then JS.join_dot (removelast segs) else fname.

(** Modelled from the spec: [Schema.createRawProps] is not part of the
    sources.  The spec: an entry is "normalized with the file's fname" into
    [{ id, fname, data, parent: null, children }]. *)
Definition createRawProps (o : Schema.SchemaRawOpts) : Schema.SchemaRawProps :=
  {| Schema.s_id := Schema.e_id o;
     Schema.s_fname := default "undefined" (Schema.e_fname o);
     Schema.data := Schema.e_data o;
     Schema.s_parent := None;
     Schema.s_children := default [] (Schema.e_children o) |}.

Definition entry (id_ : string) (pat : option string) (kids : list string)
    : Schema.SchemaRawOpts :=
  {| Schema.e_id := id_; Schema.e_fname := None;
     Schema.e_data := {| Schema.pattern := pat; Schema.d_title := None;
                         Schema.d_desc := None |};
     Schema.e_children := Some kids |}.

(** Three schema files: [shared] (version 0), [domain] (version 1, importing
    [shared]) and [loop] (version 1, importing itself). *)
Definition readYaml (p : string) : string + Schema.Yaml :=
  if String.eqb p "/vault/shared.schema.yml" then
    inr (Schema.YArray [entry "x" None ["y"]; entry "y" (Some "why") []])
  else if String.eqb p "/vault/domain.schema.yml" then
    inr (Schema.YObject {| Schema.imports := Some ["shared"];
                           Schema.schemas := Some [entry "d" None ["shared.x"]] |})
  else if String.eqb p "/vault/loop.schema.yml" then
    inr (Schema.YObject {| Schema.imports := Some ["loop"];
                           Schema.schemas := Some [] |})
  else inl "ENOENT".

Definition parseSchemaFile :=
  Schema.parseSchemaFile path_name path_join readYaml SchemaUtils_fname
    createRawProps.

Definition parseSchemaVersion1 :=
  Schema.parseSchemaVersion1 path_name path_join readYaml SchemaUtils_fname
    createRawProps.

Definition parseSchema :=
  Schema.parseSchema path_name path_join readYaml SchemaUtils_fname
    createRawProps.

(** The same schema files, and [top] (version 1), which imports [shared]
    and then a file that is not there. *)
Definition readYaml_top (p : string) : string + Schema.Yaml :=
  if String.eqb p "/vault/top.schema.yml" then
    inr (Schema.YObject {| Schema.imports := Some ["shared"; "gone"];
                           Schema.schemas := Some [] |})
  else readYaml p.

Definition titled (t : string) : INoteOpts :=
  {| o_node := {| o_id := None; o_title := t; o_desc := None; o_type := note;
                  o_updated := None; o_created := None; o_parent := None;
                  o_children := None; o_body := None; o_parentId := None;
                  o_childrenIds := None |};
     o_schemaId := None; o_fname := None |}.

(** Options that supply all four links: a parent, children, [parentId]
    and [childrenIds]. *)
Definition with_ids (p : option addr) (cs : list addr) (pid : string)
    (cids : list string) (o : INoteOpts) : INoteOpts :=
  {| o_node := {| o_id := o_id (o_node o); o_title := o_title (o_node o);
                  o_desc := o_desc (o_node o); o_type := o_type (o_node o);
                  o_updated := o_updated (o_node o);
                  o_created := o_created (o_node o);
                  o_parent := Some p; o_children := Some cs;
                  o_body := o_body (o_node o);
                  o_parentId := Some (Some pid);
                  o_childrenIds := Some cids |};
     o_schemaId := o_schemaId o; o_fname := o_fname o |}.

(** The tree [root] - [a] - [b], built by three [new Note] and two
    [addChild]. *)
Definition three_notes : list Note :=
  (alloc (titled "b") (alloc (titled "a") (alloc (titled "root") []).2).2).2.

Definition tree : list Note := addChild 1 2 (addChild 0 1 three_notes).

(** The tree [root] - [a] - [root] - [b]: below [a] stands a note that is
    titled [root] like the top of the tree. *)
Definition inner_root : list Note :=
  addChild 2 3
    (addChild 1 2
       (addChild 0 1
          (alloc (titled "b")
             (alloc (titled "root")
                (alloc (titled "a") (alloc (titled "root") []).2).2).2).2)).

End Demo.


(** ** Trees in the heap *)

Module Tree.

(** [chain h a l]: [l] is [a], its parent, the parent of that one, and so on
    up to a node without parent. *)
Inductive chain (h : list Note) : addr -> list addr -> Prop :=
| chain_top a (n : Note) :
    h !! a = Some n -> parent n = None -> chain h a [a]
| chain_up a (n : Note) p l :
    h !! a = Some n -> parent n = Some p -> chain h p l -> chain h a (a :: l).

Definition title_at (h : list Note) (a : addr) : string :=
  match (h !! a : option Note) with
  | Some n => title n
  | None => EmptyString
  end.

(** The titles a path is made of, last segment first: those of the chain up
    to, and without, the first ancestor titled [root]. *)
Fixpoint path_titles (h : list Note) (l : list addr) : list string :=
  match l with
  | [] => []
  | a :: rest =>
      title_at h a ::
      match rest with
      | [] => []
      | p :: _ =>
          if bool_decide (title_at h p = "root") then []
          else path_titles h rest
      end
  end.

(** The heaps a program builds with [new Note] and [addChild], where a node
    is attached while it has no parent, and not below itself. *)
Inductive linked : list Note -> Prop :=
| linked_nil : linked []
| linked_new h props : linked h -> linked (alloc props h).2
| linked_addChild h p c (cn : Note) l :
    linked h -> chain h p l -> h !! c = Some cn -> parent cn = None ->
    c ∉ l -> linked (addChild p c h).

(** A node that has no parent. *)
Definition detached (h : list Note) (a : addr) : Prop :=
  exists n : Note, h !! a = Some n /\ parent n = None.

(** The invariant of the spec: a node whose parent is [p] stands in
    [p.children], once. *)
Definition exactly_once (h : list Note) : Prop :=
  forall a (n : Note) p,
    h !! a = Some n -> parent n = Some p ->
    exists pn : Note,
      h !! p = Some pn /\ count_occ Nat.eq_dec (children pn) a = 1.

(** The invariant with its converse, as [addChild] keeps it: [children]
    lists hold no node twice, and [c] is in [p.children] exactly when
    [c.parent] is [p]. *)
Definition well_linked (h : list Note) : Prop :=
  (forall a (n : Note), h !! a = Some n -> NoDup (children n)) /\
  (forall a (n : Note) p,
     h !! a = Some n -> parent n = Some p ->
     exists pn : Note, h !! p = Some pn /\ a ∈ children pn) /\
  (forall p (pn : Note) c,
     h !! p = Some pn -> c ∈ children pn ->
     exists cn : Note, h !! c = Some cn /\ parent cn = Some p).

(** From [h] to [h'] no object is lost and no parent reference of an
    object of [h] is changed. *)
Definition parents_kept (h h' : list Note) : Prop :=
  length h <= length h' /\
  forall a (n : Note), h !! a = Some n ->
    exists n' : Note, h' !! a = Some n' /\ parent n' = parent n.

(** What [addChild] does to each object of the heap. *)
Definition addChild_at (this child a : addr) (n : Note) : Note :=
  let n1 := if bool_decide (a = this) then push_child child n else n in
  if bool_decide (a = child) then set_parent (Some this) n1 else n1.

(** [walk h a l]: the nodes the getter [path] visits from [a], in order.
    It stops at a node without parent and at a node whose parent is titled
    [root]. *)
Inductive walk (h : list Note) : addr -> list addr -> Prop :=
| walk_top a (n : Note) :
    h !! a = Some n -> parent n = None -> walk h a [a]
| walk_root a (n : Note) p (pn : Note) :
    h !! a = Some n -> parent n = Some p -> h !! p = Some pn ->
    title pn = "root" -> walk h a [a]
| walk_up a (n : Note) p (pn : Note) l :
    h !! a = Some n -> parent n = Some p -> h !! p = Some pn ->
    title pn <> "root" -> walk h p l -> walk h a (a :: l).

End Tree.

(** ** What a run writes *)

Module Run.

Import FileParser.

Definition is_no_parent (m : ErrorMsg) : bool :=
  match m with
  | NO_PARENT_PATH _ _ => true
  | BAD_PARSE _ _ => false
  end.

(** What a step that starts in [s] and ends as [r] has written to the two
    logs of the parser: the entries [es] and the paths [ms], appended.
    Every entry is [ok]; a path comes with a [NO_PARENT_PATH] entry; with
    [errorOnEmpty] no path is added, and a [NO_PARENT_PATH] entry is the
    last one, of a step that throws it; with [errorOnBadParse] there is no
    [BAD_PARSE] entry. *)
Definition logs {A} (ok : ErrorMsg -> Prop)
    (errorOnEmpty errorOnBadParse : bool)
    (s : PState) (r : Outcome A * PState) : Prop :=
  exists es ms,
    errors r.2 = errors s ++ es
    /\ missing r.2 = missing s ++ ms
    /\ Forall ok es
    /\ (forall m, m ∈ ms ->
          m <> EmptyString /\ exists ent, NO_PARENT_PATH ent m ∈ es)
    /\ (errorOnEmpty = true ->
        ms = []
        /\ (Forall (fun m => is_no_parent m = false) es
            \/ exists es0 msg,
                 es = es0 ++ [msg]
                 /\ Forall (fun m => is_no_parent m = false) es0
                 /\ is_no_parent msg = true
                 /\ r.1 = Throw (NoParent msg)))
    /\ (errorOnEmpty = false -> forall msg, r.1 <> Throw (NoParent msg))
    /\ (errorOnBadParse = true -> Forall (fun m => is_no_parent m = true) es).

Section Entries.

Variable path_name : string -> string.
Variable path_join : string -> string -> string.
Variable mdFile2NodeProps : string -> string + INoteOpts.
Variable root : string.

(** An entry that [toNode] may push for the file [ent]. *)
Definition entry_for (ent : FileMeta) (m : ErrorMsg) : Prop :=
  match m with
  | BAD_PARSE e err =>
      e = ent /\ mdFile2NodeProps (path_join root (fpath ent)) = inl err
  | NO_PARENT_PATH e parentPath =>
      e = ent /\ parentPath = dirName (prefix ent)
      /\ exists props, mdFile2NodeProps (path_join root (fpath ent)) = inr props
  end.

Definition entry_in (ents : list FileMeta) (m : ErrorMsg) : Prop :=
  exists ent, ent ∈ ents /\ entry_for ent m.

Definition entry_listed (data : list string) (m : ErrorMsg) : Prop :=
  exists f, f ∈ data
            /\ entry_for {| prefix := path_name f; fpath := f |} m.

End Entries.

(** Two runs over the files of a level that differ in ignored files. *)
Definition same_level
    (r r' : Outcome (list (option addr) * gmap string (option addr)) * PState)
    : Prop :=
  r.2 = r'.2
  /\ match r.1, r'.1 with
     | Ok x, Ok x' =>
         x.2 = x'.2 /\ omap (fun n => n) x.1 = omap (fun n => n) x'.1
     | Throw e, Throw e' => e = e'
     | _, _ => False
     end.

End Run.

(** ** What a run leaves alone *)

Module Frame.

(** Two notes that differ in their links at most. *)
Definition same_fields (n n' : Note) : Prop :=
  toRawProps n' = toRawProps n /\ fname n' = fname n
  /\ schemaId n' = schemaId n.

(** From [h] to [h'] no object is lost; the objects below [lo] are not
    touched; the objects below [hi] keep their fields and their parent, and
    their children are added to at the end only. *)
Definition frame (lo hi : nat) (h h' : list Note) : Prop :=
  length h <= length h'
  /\ (forall a, a < lo -> h' !! a = h !! a)
  /\ (forall a (n : Note), a < hi -> h !! a = Some n ->
        exists n' : Note,
          h' !! a = Some n' /\ same_fields n n' /\ parent n' = parent n
          /\ exists cs, children n' = children n ++ cs).

(** The references of a list, or of an index, are at or above [lo]. *)
Definition above (lo : nat) (x : option addr) : Prop :=
  forall a, x = Some a -> lo <= a.

Definition index_above (lo : nat) (d : gmap string (option addr)) : Prop :=
  forall k a, d !! k = Some (Some a) -> lo <= a.

End Frame.

(** ** What a run shows of its lookups *)

Module Lookup.

Import FileParser Frame.

(** From [h] to [h']: every object of [h] keeps its fields and its parent,
    and its children are added to at the end only. *)
Definition extends (h h' : list Note) : Prop := frame 0 (length h) h h'.

(** From [h] to [h'] every object of [h] keeps its fields. *)
Definition fields_kept (h h' : list Note) : Prop :=
  forall a (n : Note), h !! a = Some n ->
    exists n' : Note, h' !! a = Some n' /\ same_fields n n'.

Section LookupDefs.

Variable path_join : string -> string -> string.
Variable globMatch : list string -> string -> bool.
Variable mdFile2NodeProps : string -> string + INoteOpts.
Variable root : string.

(** [a] is a note built from the properties of the file [ent]. *)
Definition built (h : list Note) (ent : FileMeta) (a : addr) : Prop :=
  exists props (nd : Note),
    mdFile2NodeProps (path_join root (fpath ent)) = inr props
    /\ h !! a = Some nd /\ same_fields (Note_new props) nd.

(** What the heap [h] and the entries [es] show of the file [ent] of a
    level, looked up among the candidates [cands], and of what the level
    hands on for it. *)
Definition resolved (h : list Note) (es : list ErrorMsg) (cands : list addr)
    (ent : FileMeta) (x : option addr) : Prop :=
  if globMatch ["root.*"] (fpath ent) then x = None
  else
    match mdFile2NodeProps (path_join root (fpath ent)) with
    | inl err => x = None /\ BAD_PARSE ent err ∈ es
    | inr props =>
        exists a (nd : Note) q,
          x = Some a /\ h !! a = Some nd /\ same_fields (Note_new props) nd
          /\ find_parent h (dirName (prefix ent)) (Some <$> cands) = Ok q
          /\ match q with
             | Some p =>
                 parent nd = Some p
                 /\ (exists pn : Note, h !! p = Some pn /\ a ∈ children pn)
             | None => NO_PARENT_PATH ent (dirName (prefix ent)) ∈ es
             end
    end.

(** [ent] is a file of [ents], looked at by the loop, whose parent path
    [pp] is the path of no candidate. *)
Definition unmatched (h : list Note) (cands : list addr)
    (ents : list FileMeta) (ent : FileMeta) (pp : string) : Prop :=
  ent ∈ ents /\ globMatch ["root.*"] (fpath ent) = false
  /\ pp = dirName (prefix ent)
  /\ find_parent h pp (Some <$> cands) = Ok None.

End LookupDefs.

End Lookup.

Import Tree.

(** * Theorems *)

(** ** The node classes *)

Section NodeFacts.

Implicit Types (h : list Note) (n : Note) (a p c : addr).

Lemma append_assoc_s (s1 s2 s3 : string) :
  (s1 +:+ s2) +:+ s3 = s1 +:+ (s2 +:+ s3).
Proof.
  induction s1 as [|ch s1 IH]; [done|].
  change (String ch ((s1 +:+ s2) +:+ s3) = String ch (s1 +:+ (s2 +:+ s3))).
  by rewrite IH.
Qed.

Lemma join_dot_snoc (l : list string) (x : string) :
  l <> [] -> JS.join_dot (l ++ [x]) = JS.join_dot l +:+ "." +:+ x.
Proof.
  induction l as [|y l IH]; [done|]. intros _.
  destruct l as [|z l]; [done|].
  change (JS.join_dot ((y :: z :: l) ++ [x]))
    with (y +:+ "." +:+ JS.join_dot ((z :: l) ++ [x])).
  rewrite IH by done.
  change (JS.join_dot (y :: z :: l)) with (y +:+ "." +:+ JS.join_dot (z :: l)).
  by rewrite !append_assoc_s.
Qed.

Lemma lookup_addChild h p c a :
  addChild p c h !! a = addChild_at p c a <$> h !! a.
Proof.
  unfold addChild, addChild_at. rewrite !list_lookup_alter.
  repeat case_bool_decide; repeat case_decide; subst; try done;
    by destruct (h !! _).
Qed.

Lemma length_addChild h p c : length (addChild p c h) = length h.
Proof. unfold addChild. by rewrite !length_alter. Qed.

Lemma lookup_alloc_old props h a n :
  h !! a = Some n -> (alloc props h).2 !! a = Some n.
Proof. intros H. simpl. by apply lookup_app_l_Some. Qed.

Lemma lookup_alloc_new props h :
  (alloc props h).2 !! (alloc props h).1 = Some (Note_new props).
Proof. simpl. by rewrite lookup_app_r, Nat.sub_diag. Qed.

Lemma parent_addChild_at p c a n :
  parent (addChild_at p c a n) = if bool_decide (a = c) then Some p else parent n.
Proof. unfold addChild_at. by repeat case_bool_decide. Qed.

Lemma children_addChild_at p c a n :
  children (addChild_at p c a n)
  = if bool_decide (a = p) then children n ++ [c] else children n.
Proof. unfold addChild_at. by repeat case_bool_decide. Qed.

Lemma title_addChild_at p c a n : title (addChild_at p c a n) = title n.
Proof. unfold addChild_at. by repeat case_bool_decide. Qed.

Lemma toRawProps_addChild_at p c a n :
  toRawProps (addChild_at p c a n) = toRawProps n.
Proof. unfold addChild_at. by repeat case_bool_decide. Qed.

Lemma chain_head h a l :
  chain h a l -> exists rest (n : Note), l = a :: rest /\ h !! a = Some n.
Proof. destruct 1; eauto. Qed.

Lemma title_at_lookup h a n : h !! a = Some n -> title_at h a = title n.
Proof. unfold title_at. by intros ->. Qed.

Lemma path_titles_nonempty h l : l <> [] -> path_titles h l <> [].
Proof. by destruct l. Qed.

Lemma path_fuel_chain h a l :
  chain h a l ->
  forall fuel, length l <= fuel ->
    path_fuel fuel h a = Some (JS.join_dot (rev (path_titles h l))).
Proof.
  induction 1 as [a n Ha Hp|a n p l Ha Hp Hc IH]; intros fuel Hf.
  - destruct fuel as [|fuel]; [simpl in Hf; lia|].
    simpl. by rewrite (title_at_lookup _ _ _ Ha), Ha, Hp.
  - destruct fuel as [|fuel]; [simpl in Hf; lia|].
    destruct (chain_head _ _ _ Hc) as (rest & pn & -> & Hpn).
    simpl in Hf. simpl path_fuel. rewrite Ha, Hp, Hpn.
    change (path_titles h (a :: p :: rest))
      with (title_at h a ::
              if bool_decide (title_at h p = "root") then []
              else path_titles h (p :: rest)).
    rewrite (title_at_lookup _ _ _ Ha), (title_at_lookup _ _ _ Hpn).
    destruct (decide (title pn = "root")) as [Hr|Hr].
    + rewrite bool_decide_eq_false_2 by (by intros ?).
      by rewrite bool_decide_eq_true_2.
    + rewrite bool_decide_eq_true_2 by done.
      rewrite (bool_decide_eq_false_2 _ Hr).
      rewrite IH by (simpl; lia).
      change (rev (title n :: path_titles h (p :: rest)))
        with (rev (path_titles h (p :: rest)) ++ [title n]).
      rewrite join_dot_snoc; [done|].
      intros Hnil. apply (f_equal length) in Hnil.
      rewrite length_rev in Hnil. simpl in Hnil. lia.
Qed.

Lemma chain_functional h a l1 l2 : chain h a l1 -> chain h a l2 -> l1 = l2.
Proof.
  intros H1. revert l2.
  induction H1 as [a n Ha Hp|a n p l Ha Hp Hc IH]; intros l2 H2;
    inversion H2 as [a' n' Ha' Hp'|a' n' p' l' Ha' Hp' Hc']; subst;
    rewrite Ha in Ha'; injection Ha' as <-; try congruence.
  rewrite Hp in Hp'. injection Hp' as <-. f_equal. by apply IH.
Qed.

Lemma chain_suffix h a l x :
  chain h a l -> x ∈ l ->
  exists l1 l2, l = l1 ++ l2 /\ chain h x l2.
Proof.
  induction 1 as [a n Ha Hp|a n p l Ha Hp Hc IH]; intros Hx.
  - apply list_elem_of_singleton in Hx as ->.
    exists [], [a]. split; [done|]. by eapply chain_top.
  - apply elem_of_cons in Hx as [->|Hx].
    + exists [], (a :: l). split; [done|]. by eapply chain_up.
    + destruct (IH Hx) as (l1 & l2 & -> & Hc2).
      by exists (a :: l1), l2.
Qed.

Lemma chain_NoDup h a l : chain h a l -> NoDup l.
Proof.
  induction 1 as [a n Ha Hp|a n p l Ha Hp Hc IH].
  - apply NoDup_singleton.
  - apply NoDup_cons. split; [|done]. intros Hin.
    destruct (chain_suffix _ _ _ _ Hc Hin) as (l1 & l2 & -> & Hc2).
    assert (Heq : l2 = a :: l1 ++ l2).
    { eapply chain_functional; [done|]. by eapply chain_up. }
    apply (f_equal length) in Heq. simpl in Heq.
    rewrite length_app in Heq. lia.
Qed.

Lemma chain_valid h a l x : chain h a l -> x ∈ l -> x < length h.
Proof.
  induction 1 as [a n Ha Hp|a n p l Ha Hp Hc IH]; intros Hx.
  - apply list_elem_of_singleton in Hx as ->. by eapply lookup_lt_Some.
  - apply elem_of_cons in Hx as [->|Hx]; [by eapply lookup_lt_Some|auto].
Qed.

Lemma chain_length h a l : chain h a l -> length l <= length h.
Proof.
  intros Hc.
  rewrite <- (length_seq (length h) 0).
  apply submseteq_length, NoDup_submseteq; [by eapply chain_NoDup|].
  intros x Hx. apply elem_of_seq. split; [lia|].
  simpl. by eapply chain_valid.
Qed.

(** On a chain the getter returns, and returns the dot-join. *)
Lemma path_chain h a l :
  chain h a l -> path h a = Some (JS.join_dot (rev (path_titles h l))).
Proof.
  intros Hc. unfold path. apply path_fuel_chain; [done|].
  pose proof (chain_length _ _ _ Hc). lia.
Qed.

Lemma chain_alloc props h a l :
  chain h a l -> chain (alloc props h).2 a l.
Proof.
  induction 1 as [a n Ha Hp|a n p l Ha Hp Hc IH].
  - eapply chain_top; [|done]. by apply lookup_alloc_old.
  - eapply chain_up; [|done..]. by apply lookup_alloc_old.
Qed.

(** A chain that does not pass through [c] is not changed by attaching
    [c]. *)
Lemma chain_addChild_other h p c a l :
  chain h a l -> c ∉ l -> chain (addChild p c h) a l.
Proof.
  induction 1 as [a n Ha Hp|a n q l Ha Hp Hc IH]; intros Hnin.
  - apply chain_top with (addChild_at p c a n).
    + by rewrite lookup_addChild, Ha.
    + rewrite parent_addChild_at, bool_decide_eq_false_2; [done|].
      intros ->. apply Hnin. by left.
  - apply chain_up with (addChild_at p c a n) q.
    + by rewrite lookup_addChild, Ha.
    + rewrite parent_addChild_at, bool_decide_eq_false_2; [done|].
      intros ->. apply Hnin. by left.
    + apply IH. intros ?. apply Hnin. by right.
Qed.

(** A chain that ends in the detached node [c] goes on, once [c] is
    attached to [p], with the chain of [p]. *)
Lemma chain_addChild_through h p c (cn : Note) lp a l :
  h !! c = Some cn -> parent cn = None ->
  chain (addChild p c h) p lp ->
  chain h a l -> c ∈ l ->
  exists l', chain (addChild p c h) a l'.
Proof.
  intros Hc Hcp Hlp.
  induction 1 as [a n Ha Hp|a n q l Ha Hp Hch IH]; intros Hin.
  - apply list_elem_of_singleton in Hin as ->.
    exists (a :: lp). apply chain_up with (addChild_at p a a n) p; [| |done].
    + by rewrite lookup_addChild, Ha.
    + by rewrite parent_addChild_at, bool_decide_eq_true_2.
  - destruct (decide (a = c)) as [->|Hne]; [congruence|].
    apply elem_of_cons in Hin as [->|Hin]; [done|].
    destruct (IH Hin) as (l' & Hl').
    exists (a :: l'). apply chain_up with (addChild_at p c a n) q; [| |done].
    + by rewrite lookup_addChild, Ha.
    + by rewrite parent_addChild_at, bool_decide_eq_false_2.
Qed.

(** Every node of a linked heap has its chain: the parent references form
    a forest. *)
Lemma linked_chain h :
  linked h -> forall a n, h !! a = Some n -> exists l, chain h a l.
Proof.
  induction 1 as [|h props Hl IH|h p c cn l Hl IH Hp Hc Hcp Hnin].
  - intros a n Ha. by rewrite lookup_nil in Ha.
  - intros a n Ha. simpl in Ha.
    apply lookup_app_Some in Ha as [Ha|[Hge Ha]].
    + destruct (IH _ _ Ha) as [l Hc]. exists l. by apply chain_alloc.
    + apply list_lookup_singleton_Some in Ha as [Hz <-].
      exists [a]. apply chain_top with (Note_new props); [|done].
      assert (a = length h) as -> by lia. apply lookup_alloc_new.
  - intros a n Ha. rewrite lookup_addChild in Ha.
    destruct (h !! a) as [n0|] eqn:Ha0; [|done].
    destruct (IH _ _ Ha0) as [la Hla].
    destruct (decide (c ∈ la)) as [Hin|Hnin'].
    + eapply chain_addChild_through; [done..| |done|done].
      by apply chain_addChild_other.
    + exists la. by apply chain_addChild_other.
Qed.

Lemma title_at_addChild h p c a :
  title_at (addChild p c h) a = title_at h a.
Proof.
  unfold title_at. rewrite lookup_addChild.
  destruct (h !! a); simpl; [apply title_addChild_at|done].
Qed.

Lemma path_titles_addChild h p c l :
  path_titles (addChild p c h) l = path_titles h l.
Proof.
  induction l as [|a l IH]; [done|]. simpl.
  rewrite title_at_addChild. destruct l as [|b l]; [done|].
  rewrite title_at_addChild. by rewrite IH.
Qed.

(** Below a root titled [root], and with no other node of that title on
    the way, the titles of the path are those of the whole chain without
    its top. *)
Lemma path_titles_below_root h l top :
  l <> [] -> title_at h top = "root" ->
  Forall (fun x => title_at h x <> "root") l ->
  path_titles h (l ++ [top]) = title_at h <$> l.
Proof.
  intros Hne Htop Hall. induction l as [|x l IH]; [done|].
  apply Forall_cons in Hall as [Hx Hall].
  destruct l as [|y l].
  - simpl. by rewrite bool_decide_eq_true_2.
  - apply Forall_cons in Hall as [Hy Hall].
    change (path_titles h ((x :: y :: l) ++ [top]))
      with (title_at h x ::
              if bool_decide (title_at h y = "root") then []
              else path_titles h ((y :: l) ++ [top])).
    rewrite bool_decide_eq_false_2 by done.
    rewrite IH; [done|done|by constructor].
Qed.

(** The getter is one step of its own definition on the live heap. *)
Lemma path_step h a (n : Note) l :
  chain h a l -> h !! a = Some n ->
  path h a
  = match parent n with
    | Some p =>
        if bool_decide (title_at h p <> "root")
        then (fun pp => JS.join_dot [pp; title n]) <$> path h p
        else Some (title n)
    | None => Some (title n)
    end.
Proof.
  intros Hc Ha.
  pose proof (chain_length _ _ _ Hc) as Hlen.
  unfold path at 1. simpl path_fuel. rewrite Ha.
  destruct Hc as [a n' Ha' Hp|a n' p l Ha' Hp Hc];
    rewrite Ha in Ha'; injection Ha' as <-; rewrite Hp; [done|].
  destruct (chain_head _ _ _ Hc) as (rest & pn & -> & Hpn).
  rewrite Hpn, (title_at_lookup _ _ _ Hpn).
  case_bool_decide; [|done].
  rewrite (path_chain _ _ _ Hc).
  rewrite (path_fuel_chain _ _ _ Hc) by (simpl in *; lia). done.
Qed.

End NodeFacts.


(** C9.  [toRawProps] yields the record of the nine scalar and identifier
    fields [id], [title], [desc], [type], [updated], [created], [body],
    [parentId], [childrenIds]; the [parent] and [children] references are not
    part of it, so no [addChild] changes the record of any node; and a node
    built again from its record ([new Note(record)], or the constructor of
    [DNode] on it) flattens to the same record. *)
Theorem toRawProps_roundtrip (n : Note) :
  toRawProps n
  = {| r_id := id n; r_title := title n; r_desc := desc n; r_type := type n;
       r_updated := updated n; r_created := created n; r_body := body n;
       r_parentId := parentId n; r_childrenIds := childrenIds n |}
  /\ (forall (h : list Note) (p c a : addr),
        (fun m : Note => toRawProps m) <$> (addChild p c h !! a)
        = (fun m : Note => toRawProps m) <$> (h !! a))
  /\ toRawProps (Note_new (note_opts_of_raw (toRawProps n))) = toRawProps n
  /\ toRawProps (DNode_new (opts_of_raw (toRawProps n))) = toRawProps n.
Proof.
  split; [done|]. split; [|done].
  intros h p c a. rewrite lookup_addChild.
  destruct (h !! a) as [m|]; simpl; [|done].
  by rewrite toRawProps_addChild_at.
Qed.

(** C10.  [new Note(opts)] is a detached node whatever [opts] holds: its
    [parent] is [null] and its [children] are empty, also when [opts] gives
    a parent or children (they do not change the note that is built), while
    a [parentId] and [childrenIds] that [opts] supplies are kept as they
    are (and are [null] and the empty list when [opts] leaves them out).
    Creating it changes no object of the heap, so no [children] list holds
    it; it is linked by [addChild] alone, which sets its [parent] and
    appends it to the [children] of that parent. *)
Theorem Note_new_detached (props : INoteOpts) (h : list Note) :
  let a := (alloc props h).1 in
  let h' := (alloc props h).2 in
  h' !! a = Some (Note_new props)
  /\ parent (Note_new props) = None
  /\ children (Note_new props) = []
  /\ (forall pid, o_parentId (o_node props) = Some pid ->
        parentId (Note_new props) = pid)
  /\ (o_parentId (o_node props) = None -> parentId (Note_new props) = None)
  /\ (forall cids, o_childrenIds (o_node props) = Some cids ->
        childrenIds (Note_new props) = cids)
  /\ (o_childrenIds (o_node props) = None -> childrenIds (Note_new props) = [])
  /\ (forall links kids,
        Note_new {| o_node := with_links links kids (o_node props);
                    o_schemaId := o_schemaId props;
                    o_fname := o_fname props |}
        = Note_new props)
  /\ (forall b, b < length h -> h' !! b = h !! b)
  /\ (forall p (pn : Note), h !! p = Some pn ->
        exists (pn' an' : Note),
          addChild p a h' !! p = Some pn'
          /\ children pn' = children pn ++ [a]
          /\ addChild p a h' !! a = Some an'
          /\ parent an' = Some p).
Proof.
  intros a h'. subst a h'.
  split; [apply lookup_alloc_new|].
  do 2 (split; [done|]).
  split; [intros pid Hpid; simpl; by rewrite Hpid|].
  split; [intros Hpid; simpl; by rewrite Hpid|].
  split; [intros cids Hcids; simpl; by rewrite Hcids|].
  split; [intros Hcids; simpl; by rewrite Hcids|].
  split; [done|].
  split.
  - intros b Hb. simpl. by rewrite lookup_app_l.
  - intros p pn Hp.
    assert (Hlt : p < length h) by (by eapply lookup_lt_Some).
    exists (addChild_at p (length h) p pn),
      (addChild_at p (length h) (length h) (Note_new props)).
    rewrite !lookup_addChild. simpl.
    rewrite (lookup_app_l_Some _ _ _ _ Hp).
    rewrite lookup_app_r, Nat.sub_diag by done. simpl.
    rewrite children_addChild_at, parent_addChild_at.
    rewrite !bool_decide_eq_true_2 by done. done.
Qed.



(** C5 (as the code has it).  In a heap linked by [addChild], every node
    has a chain of parents up to a node without parent, and [path] is the
    dot-join of the titles along that chain, from below the first ancestor
    titled [root] (or from the top of the chain when no ancestor is) down
    to the node.  So in a tree whose top is the root, titled [root], and
    where no other node on the way has that title, the path of a node is
    the dot-join of the titles from the root (exclusive) down to the node.
    The getter obeys [path = parent.path + "." + title] unless the parent
    is [null] or titled [root], where it is the title of the node.  It is
    computed from the heap as it is: attaching a node changes what the
    getter returns for it, from its own title to the path below its new
    parent. *)
Theorem path_is_dot_join (h : list Note) (a : addr) (n : Note) :
  linked h -> h !! a = Some n ->
  (exists l,
     chain h a l /\ path h a = Some (JS.join_dot (rev (path_titles h l))))
  /\ (forall l top,
        chain h a (l ++ [top]) -> l <> [] -> title_at h top = "root" ->
        Forall (fun x => title_at h x <> "root") l ->
        path h a = Some (JS.join_dot (rev (title_at h <$> l))))
  /\ path h a
     = match parent n with
       | Some p =>
           if bool_decide (title_at h p <> "root")
           then (fun pp => JS.join_dot [pp; title n]) <$> path h p
           else Some (title n)
       | None => Some (title n)
       end
  /\ (forall p c (cn : Note) lp,
        chain h p lp -> h !! c = Some cn -> parent cn = None -> c ∉ lp ->
        path h c = Some (title cn)
        /\ path (addChild p c h) c
           = if bool_decide (title_at h p <> "root")
             then (fun pp => JS.join_dot [pp; title cn]) <$> path h p
             else Some (title cn)).
Proof.
  intros Hl Ha.
  destruct (linked_chain _ Hl _ _ Ha) as [l Hc].
  split; [exists l; split; [done|by apply path_chain]|].
  split.
  { intros l' top Hc' Hne Htop Hall.
    rewrite (path_chain _ _ _ Hc'). by rewrite path_titles_below_root. }
  split; [by eapply path_step|].
  intros p c cn lp Hp Hcc Hcp Hnin. split.
  - rewrite (path_chain h c [c]) by (by eapply chain_top).
    simpl. by rewrite (title_at_lookup _ _ _ Hcc).
  - assert (Hp' : chain (addChild p c h) p lp)
      by (by apply chain_addChild_other).
    assert (Hc' : addChild p c h !! c = Some (addChild_at p c c cn))
      by (by rewrite lookup_addChild, Hcc).
    rewrite (path_step _ _ _ (c :: lp) (chain_up _ _ _ p _ Hc'
               ltac:(by rewrite parent_addChild_at, bool_decide_eq_true_2)
               Hp') Hc').
    rewrite parent_addChild_at, bool_decide_eq_true_2 by done.
    rewrite title_at_addChild, title_addChild_at.
    by rewrite (path_chain _ _ _ Hp'), (path_chain _ _ _ Hp),
      path_titles_addChild.
Qed.

Lemma path_is_dot_join_witness :
  linked Demo.tree
  /\ path Demo.tree 2 = Some "a.b"
  /\ path Demo.three_notes 2 = Some "b".
Proof.
  assert (Hl : linked Demo.tree).
  { unfold Demo.tree.
    eapply (linked_addChild _ 1 2 _ [1; 0]).
    - eapply (linked_addChild _ 0 1 _ [0]).
      + repeat apply linked_new. apply linked_nil.
      + eapply chain_top; reflexivity.
      + reflexivity.
      + reflexivity.
      + by intros ?%list_elem_of_singleton.
    - eapply chain_up; [reflexivity|reflexivity|].
      eapply chain_top; reflexivity.
    - reflexivity.
    - reflexivity.
    - rewrite !elem_of_cons, elem_of_nil. lia. }
  split; [exact Hl|].
  destruct (path_is_dot_join Demo.tree 2 _ Hl eq_refl)
    as ((l & Hc & Hp) & _ & _ & _).
  split.
  - rewrite Hp. f_equal.
    assert (l = [2; 1; 0]) as ->.
    { eapply chain_functional; [exact Hc|].
      eapply chain_up; [reflexivity|reflexivity|].
      eapply chain_up; [reflexivity|reflexivity|].
      eapply chain_top; reflexivity. }
    reflexivity.
  - reflexivity.
Defined.

(** C5 fails on the code.  The getter knows the root by its title, so a
    note titled [root] further down cuts the path like the root does.  In
    the tree [root] - [a] - [root] - [b], built by [new Note] and
    [addChild], the titles from the root (exclusive) down to [b] join to
    [a.root.b], and the path of [b] is [b].  The parser builds that tree
    from the files [root.md], [a.md], [a.root.md] and [a.root.b.md]. *)
Lemma path_below_inner_root :
  linked Demo.inner_root
  /\ chain Demo.inner_root 3 [3; 2; 1; 0]
  /\ (fun n : Note => (title n, parent n)) <$> Demo.inner_root
     = [("root", None); ("a", Some 0); ("root", Some 1); ("b", Some 2)]
  /\ JS.join_dot (rev (title_at Demo.inner_root <$> [3; 2; 1])) = "a.root.b"
  /\ path Demo.inner_root 3 = Some "b"
  /\ path Demo.inner_root 3
     <> Some (JS.join_dot (rev (title_at Demo.inner_root <$> [3; 2; 1])))
  /\ (fun n : Note => (title n, parent n))
       <$> FileParser.heap (Demo.parse None
                   ["root.md"; "a.md"; "a.root.md"; "a.root.b.md"]).2
     = (fun n : Note => (title n, parent n)) <$> Demo.inner_root
  /\ path (FileParser.heap (Demo.parse None
                   ["root.md"; "a.md"; "a.root.md"; "a.root.b.md"]).2) 3
     = Some "b".
Proof.
  split.
  { unfold Demo.inner_root.
    eapply (linked_addChild _ 2 3 _ [2; 1; 0]).
    - eapply (linked_addChild _ 1 2 _ [1; 0]).
      + eapply (linked_addChild _ 0 1 _ [0]).
        * repeat apply linked_new. apply linked_nil.
        * eapply chain_top; reflexivity.
        * reflexivity.
        * reflexivity.
        * by intros ?%list_elem_of_singleton.
      + eapply chain_up; [reflexivity|reflexivity|].
        eapply chain_top; reflexivity.
      + reflexivity.
      + reflexivity.
      + rewrite !elem_of_cons, elem_of_nil. lia.
    - eapply chain_up; [reflexivity|reflexivity|].
      eapply chain_up; [reflexivity|reflexivity|].
      eapply chain_top; reflexivity.
    - reflexivity.
    - reflexivity.
    - rewrite !elem_of_cons, elem_of_nil. lia. }
  split.
  { eapply chain_up; [reflexivity|reflexivity|].
    eapply chain_up; [reflexivity|reflexivity|].
    eapply chain_up; [reflexivity|reflexivity|].
    eapply chain_top; reflexivity. }
  split; [reflexivity|]. split; [reflexivity|]. split; [reflexivity|].
  split; [vm_compute; discriminate|].
  split; by vm_compute.
Qed.

(** ** The schema-file resolver *)

Section ResolverFacts.

Import Schema.

Variable path_name : string -> string.
Variable path_join : string -> string -> string.
Variable readYaml : string -> string + Yaml.
Variable SchemaUtils_fname : string -> string.
Variable createRawProps : SchemaRawOpts -> SchemaRawProps.

Local Abbreviation parseSchemaFile :=
  (parseSchemaFile path_name path_join readYaml SchemaUtils_fname createRawProps).
Local Abbreviation parseSchemaVersion1 :=
  (parseSchemaVersion1 path_name path_join readYaml SchemaUtils_fname
     createRawProps).
Local Abbreviation parseSchemaVersion1_with :=
  (parseSchemaVersion1_with SchemaUtils_fname createRawProps).
Local Abbreviation rewrite_import := (rewrite_import SchemaUtils_fname).

(** [flatMap] returns when every file does, with the results in order. *)
Lemma flatMap_Ok f l rs :
  Forall2 (fun ent r => f ent = Some (Ok r)) l rs ->
  flatMap f l = Some (Ok (concat rs)).
Proof.
  induction 1 as [|ent r l rs Hf _ IH]; [done|].
  simpl. by rewrite Hf, IH.
Qed.

Lemma flatMap_Ok_inv f l out :
  flatMap f l = Some (Ok out) ->
  exists rs, Forall2 (fun ent r => f ent = Some (Ok r)) l rs /\ out = concat rs.
Proof.
  revert out. induction l as [|ent l IH]; intros out; simpl.
  - intros [= <-]. by exists [].
  - destruct (f ent) as [[xs|e]|] eqn:Hf; [|done..].
    destruct (flatMap f l) as [[ys|e]|]; [|done..].
    intros [= <-]. destruct (IH _ eq_refl) as (rs & Hrs & ->).
    exists (xs :: rs). split; [by constructor|done].
Qed.

(** Every record [parseSchemaFile] returns carries the name of the file it
    was asked for, when [createRawProps] keeps the [fname] it is given. *)
Lemma parseSchemaFile_fname fuel fpath root recs :
  (forall f o, s_fname (createRawProps (with_fname f o)) = f) ->
  parseSchemaFile fuel fpath root = Some (Ok recs) ->
  Forall (fun r => s_fname r = path_name fpath) recs.
Proof.
  intros Hkeep. destruct fuel as [|fuel]; [done|]. simpl.
  destruct (readYaml _) as [err|y]; [done|].
  destruct y as [entries|o|]; simpl.
  - intros [= <-]. apply Forall_map, Forall_forall. intros o _. apply Hkeep.
  - unfold Schema.parseSchemaVersion1_with.
    destruct (flatMap _ _) as [[xs|e]|]; [|done..].
    destruct (schemas o) as [own|]; [|done].
    intros [= <-]. apply Forall_app. split.
    + apply Forall_map, Forall_forall. by intros r _.
    + apply Forall_map, Forall_forall. intros e _. apply Hkeep.
  - unfold Schema.parseSchemaVersion1_with. simpl. done.
Qed.

(** C6.  A version-1 schema file with fname [domain] that imports [shared]:
    every record resolved from [shared.schema.yml] is rewritten, and the
    rewritten records come before the importer's own entries.  For a record
    with id [x]: the id becomes [shared.x], the fname [domain], the pattern
    is kept when it is a non-empty string and is [x] otherwise (so [x] when
    it was absent), the parent is [null], and every id of its children gets
    the prefix [shared.].  The prefix is [SchemaUtils.fname] of the fname of
    the record, which is the name of the imported file. *)
Theorem import_namespacing (fuel : nat) (root : string)
    (own : list SchemaRawOpts) (recs : list SchemaRawProps) :
  SchemaUtils_fname (path_name "shared.schema.yml") = "shared" ->
  (forall f o, s_fname (createRawProps (with_fname f o)) = f) ->
  parseSchemaFile fuel "shared.schema.yml" root = Some (Ok recs) ->
  exists out,
    parseSchemaVersion1 fuel
      {| imports := Some ["shared"]; schemas := Some own |} "domain" root
    = Some (Ok (out ++ map (fun o => createRawProps (with_fname "domain" o))
                         own))
    /\ Forall2
         (fun r r' =>
            s_id r' = "shared." +:+ s_id r
            /\ s_fname r' = "domain"
            /\ pattern (data r') = Some (JS.or_else (pattern (data r)) (s_id r))
            /\ (pattern (data r) = None -> pattern (data r') = Some (s_id r))
            /\ d_title (data r') = d_title (data r)
            /\ d_desc (data r') = d_desc (data r)
            /\ s_parent r' = None
            /\ s_children r' = map (String.append "shared.") (s_children r))
         recs out.
Proof.
  intros Hdom Hkeep Hrecs.
  exists (map (rewrite_import "domain") recs). split.
  - unfold Schema.parseSchemaVersion1, Schema.parseSchemaVersion1_with.
    simpl. change ("shared" +:+ ".schema.yml") with "shared.schema.yml".
    rewrite Hrecs. simpl. by rewrite app_nil_r.
  - pose proof (parseSchemaFile_fname _ _ _ _ Hkeep Hrecs) as Hf.
    clear Hrecs. induction recs as [|r recs' IH]; [constructor|].
    apply Forall_cons in Hf as [Hr Hf]. simpl. constructor; [|by apply IH].
    unfold Schema.rewrite_import. simpl. rewrite Hr, Hdom.
    repeat split; try done.
    intros Hnone. by rewrite Hnone.
Qed.

(** C7.  [parseSchemaFile] tells the version of a file by the shape of the
    parsed value alone.  An array is version 0: each entry is normalized
    with the name of the file, that is, handed to [createRawProps] with its
    [fname] set to the name of the file and its other properties as they
    were.  Anything else is handed to [parseSchemaVersion1]: for an object
    with [imports] and [schemas], every import [m] is resolved by
    [parseSchemaFile] on [m.schema.yml], the records so obtained are
    rewritten and put before the entries of the file itself, which are
    normalized in the same way; a value without [schemas] is a
    [TypeError].  When [createRawProps] keeps the [fname] it is handed,
    every record that [parseSchemaFile] returns, for either version,
    carries the name of the file. *)
Theorem parseSchemaFile_by_shape (fuel : nat) (fpath root : string) :
  let fname := path_name fpath in
  let normalize (o : SchemaRawOpts) :=
    createRawProps {| e_id := e_id o; e_fname := Some fname;
                      e_data := e_data o; e_children := e_children o |} in
  match readYaml (path_join root fpath) with
  | inl err =>
      parseSchemaFile (S fuel) fpath root = Some (Throw (Thrown err))
  | inr (YArray entries) =>
      parseSchemaFile (S fuel) fpath root = Some (Ok (map normalize entries))
  | inr (YObject o) =>
      parseSchemaFile (S fuel) fpath root
      = parseSchemaVersion1 fuel o fname root
      /\ (forall own rs,
            schemas o = Some own ->
            Forall2 (fun m r =>
                       parseSchemaFile fuel (m +:+ ".schema.yml") root
                       = Some (Ok r)) (default [] (imports o)) rs ->
            parseSchemaFile (S fuel) fpath root
            = Some (Ok (map (rewrite_import fname) (concat rs)
                        ++ map normalize own)))
      /\ (forall rs,
            schemas o = None ->
            Forall2 (fun m r =>
                       parseSchemaFile fuel (m +:+ ".schema.yml") root
                       = Some (Ok r)) (default [] (imports o)) rs ->
            parseSchemaFile (S fuel) fpath root = Some (Throw TypeError))
  | inr YOther =>
      parseSchemaFile (S fuel) fpath root = Some (Throw TypeError)
  end
  /\ ((forall o f, e_fname o = Some f -> s_fname (createRawProps o) = f) ->
      forall recs,
        parseSchemaFile (S fuel) fpath root = Some (Ok recs) ->
        Forall (fun r => s_fname r = fname) recs).
Proof.
  intros fname normalize. split.
  - simpl. destruct (readYaml _) as [err|[entries|o|]]; simpl; try done.
    split; [done|]. split.
    + intros own rs Hs Hrs.
      unfold Schema.parseSchemaVersion1_with. rewrite Hs. unfold JS.defaults.
      by rewrite (flatMap_Ok _ _ _ Hrs).
    + intros rs Hs Hrs.
      unfold Schema.parseSchemaVersion1_with. rewrite Hs. unfold JS.defaults.
      by rewrite (flatMap_Ok _ _ _ Hrs).
  - intros Hkeep recs Hrecs.
    eapply parseSchemaFile_fname; [|exact Hrecs].
    intros f o. by apply Hkeep.
Qed.

End ResolverFacts.

Lemma import_namespacing_witness :
  exists out,
    Demo.parseSchemaVersion1 1
      {| Schema.imports := Some ["shared"];
         Schema.schemas := Some [Demo.entry "d" None []] |} "domain" "/vault"
    = Some (Ok (out ++ [Demo.createRawProps
                          (Schema.with_fname "domain" (Demo.entry "d" None []))]))
    /\ Schema.s_id <$> out = ["shared.x"; "shared.y"]
    /\ (Schema.pattern ∘ Schema.data) <$> out = [Some "x"; Some "why"].
Proof.
  destruct (import_namespacing Demo.path_name Demo.path_join Demo.readYaml
              Demo.SchemaUtils_fname Demo.createRawProps 1 "/vault"
              [Demo.entry "d" None []]
              [Demo.createRawProps
                 (Schema.with_fname "shared.schema" (Demo.entry "x" None ["y"]));
               Demo.createRawProps
                 (Schema.with_fname "shared.schema"
                    (Demo.entry "y" (Some "why") []))])
    as (out & Hout & Hrel).
  - reflexivity.
  - intros f o. reflexivity.
  - reflexivity.
  - exists out. split; [exact Hout|].
    apply Forall2_cons_inv_l in Hrel as (r1 & out1 & H1 & Hrel & ->).
    apply Forall2_cons_inv_l in Hrel as (r2 & out2 & H2 & Hrel & ->).
    apply Forall2_nil_inv_l in Hrel as ->.
    destruct H1 as (Hid1 & _ & Hp1 & _), H2 as (Hid2 & _ & Hp2 & _).
    simpl. rewrite Hid1, Hid2, Hp1, Hp2. split; reflexivity.
Defined.

Lemma parseSchemaFile_by_shape_witness :
  Demo.parseSchemaFile 1 "shared.schema.yml" "/vault"
  = Some (Ok [{| Schema.s_id := "x"; Schema.s_fname := "shared.schema";
                 Schema.data := {| Schema.pattern := None;
                                   Schema.d_title := None;
                                   Schema.d_desc := None |};
                 Schema.s_parent := None; Schema.s_children := ["y"] |};
              {| Schema.s_id := "y"; Schema.s_fname := "shared.schema";
                 Schema.data := {| Schema.pattern := Some "why";
                                   Schema.d_title := None;
                                   Schema.d_desc := None |};
                 Schema.s_parent := None; Schema.s_children := [] |}])
  /\ Schema.s_fname
       <$> default [] (match Demo.parseSchemaFile 2 "domain.schema.yml" "/vault"
                       with Some (Ok recs) => Some recs | _ => None end)
     = ["domain.schema"; "domain.schema"; "domain.schema"]
  /\ Schema.s_id
       <$> default [] (match Demo.parseSchemaFile 2 "domain.schema.yml" "/vault"
                       with Some (Ok recs) => Some recs | _ => None end)
     = ["shared.x"; "shared.y"; "d"].
Proof.
  destruct (parseSchemaFile_by_shape Demo.path_name Demo.path_join
              Demo.readYaml Demo.SchemaUtils_fname Demo.createRawProps
              0 "shared.schema.yml" "/vault") as [H0 _].
  destruct (parseSchemaFile_by_shape Demo.path_name Demo.path_join
              Demo.readYaml Demo.SchemaUtils_fname Demo.createRawProps
              1 "domain.schema.yml" "/vault") as [H1 Hf].
  split; [exact H0|].
  change (Demo.readYaml (Demo.path_join "/vault" "domain.schema.yml"))
    with (inr (B := Schema.Yaml) (A := string)
            (Schema.YObject
               {| Schema.imports := Some ["shared"];
                  Schema.schemas := Some [Demo.entry "d" None ["shared.x"]] |}))
    in H1.
  destruct H1 as (_ & H1 & _).
  specialize (H1 [Demo.entry "d" None ["shared.x"]]
                [[Demo.createRawProps
                    (Schema.with_fname "shared.schema"
                       (Demo.entry "x" None ["y"]));
                  Demo.createRawProps
                    (Schema.with_fname "shared.schema"
                       (Demo.entry "y" (Some "why") []))]] eq_refl).
  assert (Hkeep : forall o f, Schema.e_fname o = Some f ->
                    Schema.s_fname (Demo.createRawProps o) = f)
    by (intros o f Ho; simpl; by rewrite Ho).
  specialize (Hf Hkeep).
  unfold Demo.parseSchemaFile.
  rewrite H1 in Hf |- *.
  2,3: (constructor; [exact H0|constructor]).
  specialize (Hf _ eq_refl).
  simpl default. split; [|reflexivity].
  cbn [map concat app] in Hf |- *.
  apply Forall_cons in Hf as [Hx Hf].
  apply Forall_cons in Hf as [Hy Hf].
  rewrite !fmap_cons, Hx, Hy. reflexivity.
Defined.

Import FileParser.

(** ** The links of the heap *)

Section LinkFacts.

Implicit Types (h : list Note) (n : Note) (a p c : addr).

Lemma lookup_addChild_Some h p c a n :
  addChild p c h !! a = Some n ->
  exists n0 : Note, h !! a = Some n0 /\ n = addChild_at p c a n0.
Proof.
  rewrite lookup_addChild. destruct (h !! a) as [n0|]; [|done].
  intros [= <-]. by exists n0.
Qed.

Lemma well_linked_exactly_once h : well_linked h -> exactly_once h.
Proof.
  intros (Hnd & Hpc & _) a n p Ha Hp.
  destruct (Hpc _ _ _ Ha Hp) as (pn & Hpn & Hin).
  exists pn. split; [done|].
  apply NoDup_count_occ'; [|by apply list_elem_of_In].
  apply NoDup_ListNoDup. by eapply Hnd.
Qed.

Lemma well_linked_nil : well_linked [].
Proof. repeat split; intros *; by rewrite lookup_nil. Qed.

Lemma well_linked_alloc props h :
  well_linked h -> well_linked (alloc props h).2.
Proof.
  intros (Hnd & Hpc & Hcp). simpl. repeat split.
  - intros a n [Ha|[_ Ha]]%lookup_app_Some; [by eapply Hnd|].
    apply list_lookup_singleton_Some in Ha as [_ <-]. constructor.
  - intros a n p [Ha|[_ Ha]]%lookup_app_Some Hp.
    + destruct (Hpc _ _ _ Ha Hp) as (pn & Hpn & Hin).
      exists pn. split; [by apply lookup_app_l_Some|done].
    + by apply list_lookup_singleton_Some in Ha as [_ <-].
  - intros p pn c [Hp|[_ Hp]]%lookup_app_Some Hin.
    + destruct (Hcp _ _ _ Hp Hin) as (cn & Hcn & Hc).
      exists cn. split; [by apply lookup_app_l_Some|done].
    + apply list_lookup_singleton_Some in Hp as [_ <-].
      by apply elem_of_nil in Hin.
Qed.

Lemma detached_not_child h c p (pn : Note) :
  well_linked h -> detached h c -> h !! p = Some pn -> c ∉ children pn.
Proof.
  intros (_ & _ & Hcp) (cn & Hc & Hnone) Hp Hin.
  destruct (Hcp _ _ _ Hp Hin) as (cn' & Hc' & Hsome). congruence.
Qed.

(** [addChild] keeps the links in order when the child has no parent yet. *)
Lemma well_linked_addChild h p c :
  well_linked h -> is_Some (h !! p) -> detached h c ->
  well_linked (addChild p c h).
Proof.
  intros Hwl [pn Hp] Hdet.
  pose proof (detached_not_child _ _ _ _ Hwl Hdet Hp) as Hnin.
  destruct Hwl as (Hnd & Hpc & Hcp). destruct Hdet as (cn & Hc & Hnone).
  repeat split.
  - intros a n (n0 & Ha0 & ->)%lookup_addChild_Some.
    rewrite children_addChild_at. case_bool_decide as Hap; [|by eapply Hnd].
    subst a. rewrite Hp in Ha0. injection Ha0 as <-.
    apply NoDup_app. split; [by eapply Hnd|].
    split; [|apply NoDup_singleton].
    by intros x Hx ->%list_elem_of_singleton.
  - intros a n q (n0 & Ha0 & ->)%lookup_addChild_Some Hq.
    rewrite parent_addChild_at in Hq. case_bool_decide as Hac.
    + injection Hq as <-. subst a.
      exists (addChild_at p c p pn). rewrite lookup_addChild, Hp.
      split; [done|]. rewrite children_addChild_at, bool_decide_eq_true_2 by done.
      apply elem_of_app. right. by apply list_elem_of_singleton.
    + destruct (Hpc _ _ _ Ha0 Hq) as (qn & Hqn & Hin).
      exists (addChild_at p c q qn). rewrite lookup_addChild, Hqn.
      split; [done|]. rewrite children_addChild_at.
      case_bool_decide; [apply elem_of_app; by left|done].
  - intros q qn x (qn0 & Hq0 & ->)%lookup_addChild_Some Hin.
    rewrite children_addChild_at in Hin.
    assert (Hcase : x ∈ children qn0 \/ (q = p /\ x = c)).
    { case_bool_decide; [|by left].
      apply elem_of_app in Hin as [?|Hx]; [by left|].
      apply list_elem_of_singleton in Hx. by right. }
    destruct Hcase as [Hold|[-> ->]].
    + destruct (Hcp _ _ _ Hq0 Hold) as (xn & Hxn & Hx).
      exists (addChild_at p c x xn). rewrite lookup_addChild, Hxn.
      split; [done|]. rewrite parent_addChild_at, bool_decide_eq_false_2; [done|].
      intros ->. congruence.
    + exists (addChild_at p c c cn). rewrite lookup_addChild, Hc.
      split; [done|]. by rewrite parent_addChild_at, bool_decide_eq_true_2.
Qed.

Lemma detached_alloc_old props h a :
  detached h a -> detached (alloc props h).2 a.
Proof.
  intros (n & Ha & Hn). exists n. split; [by apply lookup_alloc_old|done].
Qed.

Lemma detached_alloc_new props h : detached (alloc props h).2 (length h).
Proof. exists (Note_new props). split; [apply lookup_alloc_new|done]. Qed.

Lemma detached_addChild_other h p c a :
  detached h a -> a <> c -> detached (addChild p c h) a.
Proof.
  intros (n & Ha & Hn) Hne. exists (addChild_at p c a n).
  rewrite lookup_addChild, Ha. split; [done|].
  by rewrite parent_addChild_at, bool_decide_eq_false_2.
Qed.

Lemma parents_kept_refl h : parents_kept h h.
Proof. split; [done|]. intros a n Ha. by exists n. Qed.

Lemma parents_kept_trans h1 h2 h3 :
  parents_kept h1 h2 -> parents_kept h2 h3 -> parents_kept h1 h3.
Proof.
  intros [Hl1 H1] [Hl2 H2]. split; [lia|]. intros a n Ha.
  destruct (H1 _ _ Ha) as (n' & Ha' & Hp').
  destruct (H2 _ _ Ha') as (n'' & Ha'' & Hp'').
  exists n''. split; [done|congruence].
Qed.

Lemma parents_kept_alloc props h : parents_kept h (alloc props h).2.
Proof.
  split; [simpl; rewrite length_app; lia|].
  intros a n Ha. exists n. split; [by apply lookup_alloc_old|done].
Qed.

(** Attaching a node that [h] does not hold yet changes no parent
    reference of [h]. *)
Lemma parents_kept_addChild_new h h' p c :
  parents_kept h h' -> length h <= c -> parents_kept h (addChild p c h').
Proof.
  intros [Hl Hk] Hc. split; [by rewrite length_addChild|].
  intros a n Ha. destruct (Hk _ _ Ha) as (n' & Ha' & Hp').
  exists (addChild_at p c a n'). rewrite lookup_addChild, Ha'.
  split; [done|]. rewrite parent_addChild_at, bool_decide_eq_false_2; [done|].
  apply lookup_lt_Some in Ha. lia.
Qed.

Lemma parents_kept_detached h h' a :
  parents_kept h h' -> detached h a -> detached h' a.
Proof.
  intros [_ Hk] (n & Ha & Hn). destruct (Hk _ _ Ha) as (n' & Ha' & Hp').
  exists n'. split; [done|congruence].
Qed.

Lemma path_fuel_valid fuel h a s :
  path_fuel fuel h a = Some s -> is_Some (h !! a).
Proof.
  destruct fuel as [|fuel]; [done|]. simpl.
  destruct (h !! a); [by eexists|done].
Qed.

Lemma find_parent_Some h parentPath parents p :
  find_parent h parentPath parents = Ok (Some p) ->
  Some p ∈ parents /\ path h p = Some parentPath.
Proof.
  induction parents as [|[q|] parents IH]; simpl; [done| |done].
  destruct (path h q) as [s|] eqn:Hq; [|done].
  destruct (String.eqb_spec s parentPath) as [->|Hne].
  - intros [= <-]. split; [by left|done].
  - intros [Hin Hp]%IH. split; [by right|done].
Qed.

Lemma find_parent_None h parentPath parents :
  find_parent h parentPath parents = Ok None ->
  forall q, q ∈ parents ->
    exists p s, q = Some p /\ path h p = Some s /\ s <> parentPath.
Proof.
  induction parents as [|[q|] parents IH]; simpl; [|  |done].
  - by intros _ q ?%elem_of_nil.
  - destruct (path h q) as [s|] eqn:Hq; [|done].
    destruct (String.eqb_spec s parentPath) as [->|Hne]; [done|].
    intros Hf x [->|Hx]%elem_of_cons; [by exists q, s|by apply IH].
Qed.

End LinkFacts.

(** ** Stub synthesis *)

Section StubFacts.

Implicit Types (s : PState) (h : list Note).

Lemma stub_chain_links parts : forall stubPath parent s,
  well_linked (heap s) -> parent < length (heap s) ->
  exists last stubs s',
    stub_chain stubPath parent parts s = (Ok (last, stubs), s')
    /\ well_linked (heap s')
    /\ parents_kept (heap s) (heap s')
    /\ last < length (heap s')
    /\ errors s' = errors s /\ missing s' = missing s
    /\ Forall (fun x => length (heap s) <= x < length (heap s')) stubs.
Proof.
  induction parts as [|part rest IH]; intros stubPath parent s Hwl Hp.
  - exists parent, [], s. simpl.
    split; [done|]. split; [done|]. split; [apply parents_kept_refl|].
    by repeat split.
  - set (sp := if String.eqb stubPath EmptyString then part
               else stubPath +:+ "." +:+ part).
    set (k := length (heap s)).
    set (s1 := with_heap (addChild parent k
                            (heap s ++ [Note_new (stub_props sp part)])) s).
    assert (Hwl1 : well_linked (heap s1)).
    { apply well_linked_addChild.
      - by apply (well_linked_alloc (stub_props sp part)).
      - apply lookup_lt_is_Some. rewrite length_app. simpl. lia.
      - apply (detached_alloc_new (stub_props sp part)). }
    assert (Hk1 : parents_kept (heap s) (heap s1)).
    { apply parents_kept_addChild_new; [|done].
      apply (parents_kept_alloc (stub_props sp part)). }
    assert (Hlen1 : length (heap s1) = S k).
    { simpl. rewrite length_addChild, length_app. simpl. lia. }
    destruct (IH sp k s1 Hwl1 ltac:(lia))
      as (last & stubs & s' & Heq & Hwl' & Hk' & Hlast & He & Hm & Hst).
    exists last, (k :: stubs), s'.
    split.
    { change (stub_chain stubPath parent (part :: rest) s)
        with (match stub_chain sp k rest s1 with
              | (Ok r, s2) => (Ok (r.1, k :: r.2), s2)
              | (Throw e, s2) => (Throw e, s2)
              end).
      by rewrite Heq. }
    split; [done|]. split; [by eapply parents_kept_trans|].
    split; [done|]. split; [by rewrite He|]. split; [by rewrite Hm|].
    constructor.
    { destruct Hk' as [Hk' _]. rewrite Hlen1 in Hk'. unfold k in *. lia. }
    eapply Forall_impl; [exact Hst|]. intros x Hx. cbv beta in Hx.
    rewrite Hlen1 in Hx. unfold k in Hx. lia.
Qed.

(** Stub synthesis keeps the links in order when the orphan has no parent;
    it returns when the closest ancestor is an object of the heap, and then
    the orphan has a parent. *)
Lemma createStubNotes_links from to s :
  well_linked (heap s) -> detached (heap s) to ->
  well_linked (heap (createStubNotes from (Some to) s).2)
  /\ length (heap s) <= length (heap (createStubNotes from (Some to) s).2)
  /\ errors (createStubNotes from (Some to) s).2 = errors s
  /\ missing (createStubNotes from (Some to) s).2 = missing s
  /\ (forall f, from = Some f -> f < length (heap s) ->
        exists stubs (tn : Note) q,
          (createStubNotes from (Some to) s).1 = Ok stubs
          /\ Forall (fun x => length (heap s) <= x
                              < length (heap (createStubNotes from (Some to) s).2))
               stubs
          /\ heap (createStubNotes from (Some to) s).2 !! to = Some tn
          /\ parent tn = Some q).
Proof.
  intros Hwl Hdet. destruct from as [f|]; [|by simpl].
  unfold createStubNotes, mbind, M_bind, get_heap.
  destruct Hdet as (toN & Hto & Hnone).
  destruct (heap s !! f) as [fromN|] eqn:Hf; [rewrite Hto|].
  2:{ simpl. do 4 (split; [done|]).
      intros f' [= <-] Hlt. apply lookup_lt_is_Some in Hlt.
      rewrite Hf in Hlt. by destruct Hlt. }
  set (parts := removelast _). set (fromPath := logicalPath fromN).
  destruct (stub_chain_links parts fromPath f s Hwl
              ltac:(by eapply lookup_lt_Some))
    as (last & stubs & s' & Heq & Hwl' & Hk' & Hlast & He & Hm & Hst).
  rewrite Heq. simpl.
  assert (Hdet' : detached (heap s') to).
  { eapply parents_kept_detached; [done|]. by exists toN. }
  split; [|split; [|split; [done|split; [done|]]]].
  - apply well_linked_addChild; [done| |done].
    by apply lookup_lt_is_Some.
  - rewrite length_addChild. by destruct Hk'.
  - intros _ _ _. destruct Hdet' as (tn & Htn & _).
    exists stubs, (addChild_at last to to tn), last.
    split; [done|]. split; [by rewrite length_addChild|].
    rewrite lookup_addChild, Htn. split; [done|].
    by rewrite parent_addChild_at, bool_decide_eq_true_2.
Qed.

Lemma index_nodes_state nodes : forall d s, (index_nodes nodes d s).2 = s.
Proof.
  induction nodes as [|n nodes IH]; intros d s; [done|].
  simpl. unfold mbind, M_bind, fname_key.
  destruct (heap s !! n) as [nd|]; [apply IH|done].
Qed.

Lemma index_nodes_Ok nodes : forall d s,
  Forall (fun x => x < length (heap s)) nodes ->
  exists d', index_nodes nodes d s = (Ok d', s).
Proof.
  induction nodes as [|n nodes IH]; intros d s Hall; [by exists d|].
  apply Forall_cons in Hall as [Hn Hall].
  simpl. unfold mbind, M_bind, fname_key.
  apply lookup_lt_is_Some in Hn as [nd Hnd]. rewrite Hnd. by apply IH.
Qed.

Lemma index_nodes_values nodes :
  forall (d d' : gmap string (option addr)) s s' k a,
  index_nodes nodes d s = (Ok d', s') ->
  d' !! k = Some (Some a) -> d !! k = Some (Some a) \/ a ∈ nodes.
Proof.
  induction nodes as [|n nodes IH]; intros d d' s s' k a Hrun Hk.
  { injection Hrun as <- <-. by left. }
  simpl in Hrun. unfold mbind, M_bind, fname_key in Hrun.
  destruct (heap s !! n) as [nd|]; [|done].
  destruct (IH _ _ _ _ _ _ Hrun Hk) as [Hold|Hin]; [|right; by right].
  destruct (decide (default "undefined" (fname nd) = k)) as [<-|Hne].
  - rewrite lookup_insert_eq in Hold. injection Hold as <-. right. by left.
  - rewrite lookup_insert_ne in Hold by done. by left.
Qed.

Lemma find_parent_first h parentPath parents p :
  find_parent h parentPath parents = Ok (Some p) ->
  exists pre post,
    parents = pre ++ Some p :: post
    /\ find_parent h parentPath pre = Ok None
    /\ path h p = Some parentPath.
Proof.
  induction parents as [|[q|] parents IH]; simpl; [done| |done].
  destruct (path h q) as [s|] eqn:Hq; [|done].
  destruct (String.eqb_spec s parentPath) as [->|Hne].
  - intros [= <-]. by exists [], parents.
  - intros (pre & post & -> & Hpre & Hp)%IH.
    exists (Some q :: pre), post. split; [done|]. split; [|done].
    simpl. rewrite Hq. by destruct (String.eqb_spec s parentPath).
Qed.

Lemma truthy_Some (x : string) : x <> EmptyString -> JS.truthy (Some x) = true.
Proof. intros Hx. simpl. by destruct (String.eqb_spec x EmptyString). Qed.

(** The stubs of a chain are the objects allocated by it. *)
Lemma stub_chain_shape parts : forall stubPath parent s,
  exists last stubs s',
    stub_chain stubPath parent parts s = (Ok (last, stubs), s')
    /\ length (heap s) <= length (heap s')
    /\ Forall (fun x => length (heap s) <= x < length (heap s')) stubs.
Proof.
  induction parts as [|part rest IH]; intros stubPath parent s.
  - exists parent, [], s. by repeat split.
  - set (sp := if String.eqb stubPath EmptyString then part
               else stubPath +:+ "." +:+ part).
    set (k := length (heap s)).
    set (s1 := with_heap (addChild parent k
                            (heap s ++ [Note_new (stub_props sp part)])) s).
    assert (Hlen1 : length (heap s1) = S k).
    { simpl. rewrite length_addChild, length_app. simpl. lia. }
    destruct (IH sp k s1) as (last & stubs & s' & Heq & Hlen & Hst).
    exists last, (k :: stubs), s'.
    split.
    { change (stub_chain stubPath parent (part :: rest) s)
        with (match stub_chain sp k rest s1 with
              | (Ok r, s2) => (Ok (r.1, k :: r.2), s2)
              | (Throw e, s2) => (Throw e, s2)
              end).
      by rewrite Heq. }
    split; [lia|]. constructor; [lia|].
    eapply Forall_impl; [exact Hst|]. intros x Hx. cbv beta in Hx. lia.
Qed.

Lemma createStubNotes_shape from to s res s' :
  createStubNotes from to s = (res, s') ->
  length (heap s) <= length (heap s')
  /\ forall stubs, res = Ok stubs ->
       Forall (fun x => length (heap s) <= x < length (heap s')) stubs.
Proof.
  unfold createStubNotes. intros Hrun.
  destruct from as [f|], to as [t|]; try (by injection Hrun as <- <-).
  unfold mbind, M_bind, get_heap in Hrun.
  destruct (heap s !! f) as [fromN|]; [|by injection Hrun as <- <-].
  destruct (heap s !! t) as [toN|]; [|by injection Hrun as <- <-].
  match type of Hrun with context [stub_chain ?sp f ?parts s] =>
    destruct (stub_chain_shape parts sp f s)
      as (last & stubs & s1 & Heq & Hlen & Hst);
    rewrite Heq in Hrun
  end.
  simpl in Hrun. injection Hrun as <- <-. simpl.
  rewrite length_addChild. split; [done|]. by intros ? [= <-].
Qed.

(** A chain of stubs touches neither the errors nor the missing set. *)
Lemma stub_chain_fields parts : forall stubPath parent s res s',
  stub_chain stubPath parent parts s = (res, s') ->
  errors s' = errors s /\ missing s' = missing s.
Proof.
  induction parts as [|part rest IH]; intros stubPath parent s res s' Hrun.
  { by injection Hrun as <- <-. }
  simpl in Hrun. unfold mbind, M_bind, new_Note, get_heap, put_heap in Hrun.
  simpl in Hrun.
  match type of Hrun with context [stub_chain ?sp ?k rest ?s1] =>
    destruct (stub_chain sp k rest s1) as [[r|e] s2] eqn:Hc;
    destruct (IH _ _ _ _ _ Hc) as [He Hm]
  end; injection Hrun as <- <-; by split.
Qed.

(** With the closest ancestor and the orphan in the heap, stub synthesis
    returns, and the orphan has a parent from then on. *)
Lemma createStubNotes_returns f t s :
  f < length (heap s) -> t < length (heap s) ->
  exists stubs s' (tn : Note) q,
    createStubNotes (Some f) (Some t) s = (Ok stubs, s')
    /\ errors s' = errors s /\ missing s' = missing s
    /\ Forall (fun x => x < length (heap s')) stubs
    /\ heap s' !! t = Some tn /\ parent tn = Some q.
Proof.
  intros [fromN Hf]%lookup_lt_is_Some [toN Ht]%lookup_lt_is_Some.
  unfold createStubNotes, mbind, M_bind, get_heap. rewrite Hf, Ht.
  match goal with |- context [stub_chain ?sp f ?parts s] =>
    destruct (stub_chain_shape parts sp f s)
      as (last & stubs & s1 & Heq & Hlen & Hst);
    destruct (stub_chain_fields _ _ _ _ _ _ Heq) as [He Hm];
    rewrite Heq
  end.
  simpl.
  assert (Ht1 : is_Some (heap s1 !! t)).
  { apply lookup_lt_is_Some. apply lookup_lt_Some in Ht. lia. }
  destruct Ht1 as [tn Htn].
  exists stubs, (with_heap (addChild last t (heap s1)) s1),
    (addChild_at last t t tn), last.
  split; [done|]. split; [done|]. split; [done|]. split.
  { simpl. rewrite length_addChild.
    eapply Forall_impl; [exact Hst|]. intros x Hx. simpl in Hx. lia. }
  simpl. rewrite lookup_addChild, Htn. split; [done|].
  by rewrite parent_addChild_at, bool_decide_eq_true_2.
Qed.

End StubFacts.

(** ** FileParser *)

Section ParserFacts.

Variable path_name : string -> string.
Variable path_join : string -> string -> string.
Variable globMatch : list string -> string -> bool.
Variable mdFile2NodeProps : string -> string + INoteOpts.
Variable root : string.

Local Abbreviation toNode := (toNode path_join mdFile2NodeProps root).
Local Abbreviation level_entry :=
  (level_entry path_join globMatch mdFile2NodeProps root).
Local Abbreviation level_map :=
  (level_map path_join globMatch mdFile2NodeProps root).
Local Abbreviation parse_levels :=
  (parse_levels path_join globMatch mdFile2NodeProps root).
Local Abbreviation getFileMeta := (getFileMeta path_name).
Local Abbreviation parse :=
  (parse path_name path_join globMatch mdFile2NodeProps root).

Implicit Types (s : PState) (h : list Note) (ent : FileMeta).

(** [toNode] on a file that does not parse. *)
Lemma toNode_bad_parse ent parents o s err :
  mdFile2NodeProps (path_join root (fpath ent)) = inl err ->
  toNode ent parents o s
  = if JS.defaults (t_errorOnBadParse o) true
    then (Throw (Thrown err), s)
    else (Ok (None, None), with_error (BAD_PARSE ent err) s).
Proof.
  intros Hmd. unfold FileParser.toNode. rewrite Hmd.
  by destruct (JS.defaults (t_errorOnBadParse o) true).
Qed.

(** [toNode] on a file that parses. *)
Lemma toNode_parsed ent parents o s props :
  mdFile2NodeProps (path_join root (fpath ent)) = inr props ->
  toNode ent parents o s
  = let parentPath := dirName (prefix ent) in
    let k := length (heap s) in
    let msg := NO_PARENT_PATH ent parentPath in
    match find_parent (heap s) parentPath parents with
    | Throw e => (Throw e, s)
    | Ok (Some p) =>
        (Ok (Some k, None),
         with_heap (addChild p k
                      (heap s ++ [Note_new (with_parent (Some p) props)])) s)
    | Ok None =>
        if JS.defaults (t_isRoot o) false then
          (Ok (Some k, None),
           with_heap (heap s ++ [Note_new (with_parent None props)]) s)
        else if JS.defaults (t_errorOnEmpty o) true then
          (Throw (NoParent msg), with_error msg s)
        else
          (Ok (Some k, Some parentPath),
           with_heap (heap s ++ [Note_new (with_parent None props)])
             (with_error msg s))
    end.
Proof.
  intros Hmd. unfold FileParser.toNode. rewrite Hmd.
  unfold mbind, M_bind, get_heap, lift. simpl.
  destruct (find_parent _ _ _) as [[p|]|e]; simpl; [done| |done].
  destruct (JS.defaults (t_isRoot o) false); simpl; [done|].
  by destruct (JS.defaults (t_errorOnEmpty o) true).
Qed.

(** The note [toNode] returns is the object it has just allocated; a
    missing path comes with a note. *)
Lemma toNode_shape ent parents o s res s' :
  toNode ent parents o s = (res, s') ->
  length (heap s) <= length (heap s')
  /\ (forall m, res = Ok (None, m) -> m = None)
  /\ (forall n m, res = Ok (Some n, m) ->
        n = length (heap s) /\ n < length (heap s')).
Proof.
  destruct (mdFile2NodeProps (path_join root (fpath ent))) as [err|props] eqn:Hmd.
  { rewrite (toNode_bad_parse _ _ _ _ _ Hmd).
    destruct (JS.defaults _ _); intros [= <- <-]; simpl;
      (split; [done|]); split; congruence. }
  rewrite (toNode_parsed _ _ _ _ _ Hmd). cbv zeta.
  destruct (find_parent _ _ _) as [[p|]|e].
  - intros [= <- <-]. simpl. rewrite length_addChild, length_app. simpl.
    split; [lia|]. split; [done|]. intros n m [= <- <-]. lia.
  - destruct (JS.defaults (t_isRoot o) false).
    { intros [= <- <-]. simpl. rewrite length_app. simpl.
      split; [lia|]. split; [done|]. intros n m [= <- <-]. lia. }
    destruct (JS.defaults (t_errorOnEmpty o) true); intros [= <- <-]; simpl.
    { by repeat split. }
    rewrite length_app. simpl.
    split; [lia|]. split; [done|]. intros n m [= <- <-]. lia.
  - intros [= <- <-]. by repeat split.
Qed.

(** [toNode] keeps the links of the heap in order, changes no parent
    reference of an older object, and returns the object it has just
    allocated; that object has no parent when its parent path was not
    found. *)
Lemma toNode_links ent parents o s :
  well_linked (heap s) ->
  well_linked (heap (toNode ent parents o s).2)
  /\ parents_kept (heap s) (heap (toNode ent parents o s).2)
  /\ (forall m, (toNode ent parents o s).1 = Ok (None, m) -> m = None)
  /\ (forall n m, (toNode ent parents o s).1 = Ok (Some n, m) ->
        n = length (heap s)
        /\ n < length (heap (toNode ent parents o s).2)
        /\ (is_Some m \/ parents = [] ->
            detached (heap (toNode ent parents o s).2) n)).
Proof.
  intros Hwl.
  destruct (mdFile2NodeProps (path_join root (fpath ent))) as [err|props] eqn:Hmd.
  { rewrite (toNode_bad_parse _ _ _ _ _ Hmd).
    destruct (JS.defaults _ _); simpl;
      (split; [done|]); (split; [apply parents_kept_refl|]); split; congruence. }
  rewrite (toNode_parsed _ _ _ _ _ Hmd). cbv zeta.
  destruct (find_parent _ _ _) as [[p|]|e] eqn:Hfind; simpl.
  - apply find_parent_Some in Hfind as [Hin Hpath].
    apply path_fuel_valid in Hpath as [pn Hpn].
    split; [|split; [|split; [done|]]].
    + apply well_linked_addChild.
      * by apply (well_linked_alloc (with_parent (Some p) props)).
      * exists pn. by apply lookup_app_l_Some.
      * apply (detached_alloc_new (with_parent (Some p) props)).
    + apply parents_kept_addChild_new; [|done].
      apply (parents_kept_alloc (with_parent (Some p) props)).
    + intros n m [= <- <-]. split; [done|].
      rewrite length_addChild, length_app. simpl. split; [lia|].
      intros [[? [=]]| ->]. by apply elem_of_nil in Hin.
  - assert (Hnew : forall s0 : PState, heap s0 = heap s ->
              well_linked (heap s ++ [Note_new (with_parent None props)])
              /\ parents_kept (heap s)
                   (heap s ++ [Note_new (with_parent None props)])
              /\ length (heap s)
                 < length (heap s ++ [Note_new (with_parent None props)])
              /\ detached (heap s ++ [Note_new (with_parent None props)])
                   (length (heap s))).
    { intros _ _. split; [by apply (well_linked_alloc (with_parent None props))|].
      split; [apply (parents_kept_alloc (with_parent None props))|].
      split; [rewrite length_app; simpl; lia|].
      apply (detached_alloc_new (with_parent None props)). }
    destruct (Hnew s eq_refl) as (H1 & H2 & H3 & H4).
    destruct (JS.defaults (t_isRoot o) false); simpl.
    { split; [done|]. split; [done|]. split; [done|].
      by intros n m [= <- <-]. }
    destruct (JS.defaults (t_errorOnEmpty o) true); simpl.
    { split; [done|]. split; [apply parents_kept_refl|]. done. }
    split; [done|]. split; [done|]. split; [done|].
    by intros n m [= <- <-].
  - split; [done|]. split; [apply parents_kept_refl|]. done.
Qed.

Lemma level_entry_links opts prev ent d s :
  well_linked (heap s) ->
  well_linked (heap (level_entry opts prev ent d s).2)
  /\ length (heap s) <= length (heap (level_entry opts prev ent d s).2).
Proof.
  intros Hwl. unfold FileParser.level_entry.
  destruct (globMatch _ _); [done|].
  unfold mbind, M_bind.
  match goal with |- context [toNode ent prev ?o s] =>
    pose proof (toNode_links ent prev o s Hwl) as (Hwl1 & Hk1 & Hnone & Hsome);
    destruct (toNode ent prev o s) as [[[node missing]|e] s1] eqn:Ht
  end; simpl in *; [|split; [done|by destruct Hk1]].
  destruct (JS.truthy missing) eqn:Htr; [|split; [done|by destruct Hk1]].
  destruct node as [n|].
  2:{ rewrite (Hnone _ eq_refl) in Htr. done. }
  destruct (Hsome _ _ eq_refl) as (-> & Hlt & Hdet).
  assert (His : is_Some missing) by (destruct missing; [by eexists|done]).
  specialize (Hdet (or_introl His)).
  unfold get_heap. simpl.
  destruct (heap s1 !! length (heap s)) as [nd|] eqn:Hnd;
    [|split; [done|by destruct Hk1]].
  match goal with |- context [createStubNotes ?c ?t s1] =>
    pose proof (createStubNotes_links c (length (heap s)) s1 Hwl1 Hdet)
      as (Hwl2 & Hlen2 & _);
    destruct (createStubNotes c t s1) as [[stubs|e] s2] eqn:Hcs
  end; simpl in *; [|split; [done|destruct Hk1; lia]].
  pose proof (index_nodes_state stubs d s2) as Hi.
  destruct (index_nodes stubs d s2) as [[d'|e] s3]; simpl in Hi; subst s3;
    simpl; (split; [done|destruct Hk1; lia]).
Qed.

Lemma level_map_links opts prev ents : forall d s,
  well_linked (heap s) ->
  well_linked (heap (level_map opts prev ents d s).2)
  /\ length (heap s) <= length (heap (level_map opts prev ents d s).2).
Proof.
  induction ents as [|ent ents IH]; intros d s Hwl; [done|].
  simpl. unfold mbind, M_bind.
  pose proof (level_entry_links opts prev ent d s Hwl) as [Hwl1 Hlen1].
  destruct (level_entry opts prev ent d s) as [[r|e] s1]; simpl in *; [|done].
  pose proof (IH r.2 s1 Hwl1) as [Hwl2 Hlen2].
  destruct (level_map opts prev ents r.2 s1) as [[rs|e] s2]; simpl in *;
    (split; [done|lia]).
Qed.

Lemma parse_levels_links opts fileMetaDict n : forall lvl prev d s,
  well_linked (heap s) ->
  well_linked (heap (parse_levels opts fileMetaDict n lvl prev d s).2)
  /\ length (heap s)
     <= length (heap (parse_levels opts fileMetaDict n lvl prev d s).2).
Proof.
  induction n as [|n IH]; intros lvl prev d s Hwl; [done|].
  simpl. unfold mbind, M_bind.
  pose proof (level_map_links opts prev (default [] (fileMetaDict !! lvl))
                d s Hwl) as [Hwl1 Hlen1].
  destruct (level_map opts prev _ d s) as [[r|e] s1]; simpl in *; [|done].
  pose proof (index_nodes_state (omap (fun n => n) r.1) r.2 s1) as Hi.
  destruct (index_nodes _ r.2 s1) as [[d'|e] s2]; simpl in Hi; subst s2;
    simpl; [|done].
  destruct (IH (S lvl) (Some <$> omap (fun n => n) r.1) d' s1 Hwl1)
    as [Hwl2 Hlen2].
  split; [done|lia].
Qed.

(** A call of [toNode] for the first level, where [isRoot] is set and
    [errorOnBadParse] is left to its default, returns a note or throws. *)
Lemma toNode_domain_root ent s :
  toNode ent []
    {| t_errorOnEmpty := None; t_isRoot := Some true;
       t_errorOnBadParse := None |} s
  = match mdFile2NodeProps (path_join root (fpath ent)) with
    | inl err => (Throw (Thrown err), s)
    | inr props =>
        (Ok (Some (length (heap s)), None),
         with_heap (heap s ++ [Note_new (with_parent None props)]) s)
    end.
Proof.
  destruct (mdFile2NodeProps _) as [err|props] eqn:Hmd.
  - by rewrite (toNode_bad_parse _ _ _ _ _ Hmd).
  - by rewrite (toNode_parsed _ _ _ _ _ Hmd).
Qed.

(** The notes of the first level: each is the object just allocated, none
    has a parent, and no two are the same object. *)
Lemma domain_roots_links ents : forall s res s',
  well_linked (heap s) ->
  mapM (fun ent =>
          r ← toNode ent []
                {| t_errorOnEmpty := None; t_isRoot := Some true;
                   t_errorOnBadParse := None |};
          mret r.1) ents s = (res, s') ->
  well_linked (heap s')
  /\ parents_kept (heap s) (heap s')
  /\ forall nodes, res = Ok nodes ->
       NoDup nodes
       /\ Forall (fun x => exists a, x = Some a
                                     /\ length (heap s) <= a
                                     /\ detached (heap s') a) nodes.
Proof.
  induction ents as [|ent ents IH]; intros s res s' Hwl Hrun.
  { injection Hrun as <- <-. split; [done|]. split; [apply parents_kept_refl|].
    intros nodes [= <-]. split; constructor. }
  simpl in Hrun. unfold mbind, M_bind in Hrun.
  pose proof (toNode_links ent []
                {| t_errorOnEmpty := None; t_isRoot := Some true;
                   t_errorOnBadParse := None |} s Hwl)
    as (Hwl1 & Hk1 & _ & Hsome).
  rewrite toNode_domain_root in Hrun, Hwl1, Hk1, Hsome.
  destruct (mdFile2NodeProps _) as [err|props] eqn:Hmd; simpl in *.
  { injection Hrun as <- <-. split; [done|].
    split; [apply parents_kept_refl|]. by intros ? [=]. }
  set (s1 := with_heap _ s) in *.
  destruct (mapM (M := M) _ ents s1) as [[nodes|e] s2] eqn:Hm.
  2:{ injection Hrun as <- <-.
      destruct (IH s1 _ _ Hwl1 Hm) as (Hwl2 & Hk2 & _).
      split; [done|]. split; [by eapply parents_kept_trans|]. by intros ? [=]. }
  injection Hrun as <- <-.
  destruct (IH s1 _ _ Hwl1 Hm) as (Hwl2 & Hk2 & Hnodes).
  split; [done|]. split; [by eapply parents_kept_trans|].
  intros ? [= <-]. destruct (Hnodes _ eq_refl) as [Hnd Hall].
  destruct (Hsome _ _ eq_refl) as (_ & Hlt & Hdet).
  specialize (Hdet (or_intror eq_refl)).
  split.
  - apply NoDup_cons. split; [|done]. intros Hin.
    rewrite Forall_forall in Hall.
    destruct (Hall _ Hin) as (a & [= <-] & Hge & _).
    unfold s1 in Hge. simpl in Hge. rewrite length_app in Hge.
    simpl in Hge. lia.
  - constructor.
    + exists (length (heap s)). split; [done|]. split; [done|].
      by eapply parents_kept_detached.
    + eapply Forall_impl; [exact Hall|].
      intros x (a & -> & Hge & Hd). exists a. split; [done|].
      split; [|done]. unfold s1 in Hge. simpl in Hge.
      destruct Hk1. lia.
Qed.

Lemma attach_domains_links rootNode nodes : forall d s,
  well_linked (heap s) ->
  (forall r, rootNode = Some r -> r < length (heap s)) ->
  NoDup nodes ->
  Forall (fun x => exists a, x = Some a /\ detached (heap s) a) nodes ->
  well_linked (heap (attach_domains rootNode nodes d s).2)
  /\ length (heap (attach_domains rootNode nodes d s).2) = length (heap s).
Proof.
  induction nodes as [|n nodes IH]; intros d s Hwl Hroot Hnd Hall; [done|].
  apply NoDup_cons in Hnd as [Hnin Hnd].
  apply Forall_cons in Hall as [(a & -> & Hdet) Hall].
  simpl. unfold mbind at 1. unfold M_bind at 1.
  destruct rootNode as [r|]; [|done].
  simpl. unfold mbind at 1. unfold M_bind at 1. unfold get_heap, put_heap.
  unfold mbind, M_bind, fname_key. simpl.
  assert (Hwl1 : well_linked (addChild r a (heap s))).
  { apply well_linked_addChild; [done| |done].
    apply lookup_lt_is_Some. by apply Hroot. }
  destruct (addChild r a (heap s) !! a) as [nd|]; simpl.
  2:{ split; [done|by rewrite length_addChild]. }
  destruct (IH (<[default "undefined" (fname nd) := Some a]> d)
              (with_heap (addChild r a (heap s)) s)) as [Hwl' Hlen'].
  - done.
  - intros r' [= <-]. simpl. rewrite length_addChild. by apply Hroot.
  - done.
  - apply Forall_forall. intros x Hx. rewrite Forall_forall in Hall.
    destruct (Hall x Hx) as (b & -> & Hb).
    exists b. split; [done|]. simpl. apply detached_addChild_other; [done|].
    by intros ->.
  - split; [done|]. rewrite Hlen'. simpl. by rewrite length_addChild.
Qed.

(** [parse] keeps the links of the heap in order, whether it returns or
    throws. *)
Lemma parse_links opts data s :
  well_linked (heap s) -> well_linked (heap (parse opts data s).2).
Proof.
  intros Hwl. unfold FileParser.parse.
  case_bool_decide; [done|].
  destruct (getFileMeta data !! 1) as [lvl1|]; [|done].
  destruct (find _ lvl1) as [rootMeta|]; [|done].
  unfold mbind at 1. unfold M_bind at 1.
  match goal with |- context [toNode rootMeta [] ?o s] =>
    pose proof (toNode_links rootMeta [] o s Hwl) as (Hwl1 & Hk1 & _ & Hsome);
    destruct (toNode rootMeta [] o s) as [[[rootNode m]|e] s1] eqn:Ht
  end; simpl in *; [|done].
  unfold mbind at 1. unfold M_bind at 1.
  destruct (mapM (M := M) _ _ s1) as [res s2] eqn:Hm.
  destruct (domain_roots_links _ _ _ _ Hwl1 Hm) as (Hwl2 & Hk2 & Hnodes).
  destruct res as [prevNodes|e]; simpl in *; [|done].
  destruct (Hnodes _ eq_refl) as [Hnd Hall].
  unfold mbind at 1. unfold M_bind at 1.
  destruct (attach_domains_links rootNode prevNodes
              (<["root" := rootNode]> ∅) s2) as [Hwl3 Hlen3].
  - done.
  - intros r ->. destruct (Hsome _ _ eq_refl) as (_ & Hlt & _).
    destruct Hk2. lia.
  - done.
  - eapply Forall_impl; [exact Hall|]. intros x (a & -> & _ & Hd). by exists a.
  - destruct (attach_domains _ _ _ s2) as [[d|e] s3]; simpl in *; [|done].
    unfold mbind, M_bind.
    destruct (parse_levels_links opts (getFileMeta data)
                (maxLvl_of (getFileMeta data) - 1) 2 prevNodes d s3 Hwl3)
      as [Hwl4 _].
    by destruct (parse_levels _ _ _ _ _ _ s3) as [[d'|e] s4].
Qed.

(** *** The files by level *)

Lemma getFileMeta_fold data : forall (acc : gmap nat (list FileMeta)) lvl,
  fold_left
    (fun metaDict fpath =>
       let name := path_name fpath in
       let lvl := length (JS.split_dot name) in
       <[lvl := default [] (metaDict !! lvl)
                  ++ [{| prefix := name; fpath := fpath |}]]> metaDict)
    data acc !! lvl
  = match filter (fun f => length (JS.split_dot (path_name f)) = lvl) data with
    | [] => acc !! lvl
    | l => Some (default [] (acc !! lvl)
                 ++ ((fun f => {| prefix := path_name f; fpath := f |}) <$> l))
    end.
Proof.
  induction data as [|f data IH]; intros acc lvl; [done|].
  simpl fold_left. rewrite IH. rewrite filter_cons.
  destruct (decide (length (JS.split_dot (path_name f)) = lvl)) as [Heq|Hne].
  - rewrite Heq, lookup_insert_eq. simpl.
    destruct (filter _ data) as [|g l]; [done|].
    by rewrite <- app_assoc.
  - by rewrite lookup_insert_ne.
Qed.

(** [fileMetaDict[lvl]] holds the files of that level in the order of the
    listing, and is [undefined] when there is none. *)
Lemma getFileMeta_lookup data lvl :
  getFileMeta data !! lvl
  = match filter (fun f => length (JS.split_dot (path_name f)) = lvl) data with
    | [] => None
    | l => Some ((fun f => {| prefix := path_name f; fpath := f |}) <$> l)
    end.
Proof.
  unfold FileParser.getFileMeta. rewrite getFileMeta_fold.
  by destruct (filter _ data).
Qed.

(** *** The index only grows *)

Lemma index_nodes_keys nodes : forall (d d' : gmap string (option addr)) s s' k,
  index_nodes nodes d s = (Ok d', s') ->
  is_Some (d !! k) -> is_Some (d' !! k).
Proof.
  induction nodes as [|n nodes IH]; intros d d' s s' k Hrun Hk.
  { by injection Hrun as <- <-. }
  simpl in Hrun. unfold mbind, M_bind, fname_key in Hrun.
  destruct (heap s !! n) as [nd|]; [|done].
  eapply IH; [exact Hrun|].
  destruct (decide (default "undefined" (fname nd) = k)) as [<-|Hne].
  - rewrite lookup_insert_eq. by eexists.
  - by rewrite lookup_insert_ne.
Qed.

Lemma level_entry_keys opts prev ent (d : gmap string (option addr)) s r s' k :
  level_entry opts prev ent d s = (Ok r, s') ->
  is_Some (d !! k) -> is_Some (r.2 !! k).
Proof.
  unfold FileParser.level_entry. intros Hrun Hk.
  destruct (globMatch _ _); [by injection Hrun as <- <-|].
  unfold mbind, M_bind in Hrun.
  destruct (toNode _ _ _ s) as [[[node missing]|e] s1]; [|done].
  simpl in Hrun.
  destruct (JS.truthy missing); [|by injection Hrun as <- <-].
  unfold get_heap in Hrun. simpl in Hrun.
  match type of Hrun with
  | context [match ?x with Some _ => _ | None => _ end] =>
      destruct x as [nd|]; [|done]
  end.
  destruct (createStubNotes _ _ s1) as [[stubs|e] s2]; [|done].
  destruct (index_nodes stubs d s2) as [[d1|e] s3] eqn:Hi; [|done].
  simpl in Hrun. injection Hrun as <- <-. simpl.
  by eapply index_nodes_keys.
Qed.

Lemma level_map_keys opts prev ents :
  forall (d : gmap string (option addr)) s r s' k,
  level_map opts prev ents d s = (Ok r, s') ->
  is_Some (d !! k) -> is_Some (r.2 !! k).
Proof.
  induction ents as [|ent ents IH]; intros d s r s' k Hrun Hk.
  { by injection Hrun as <- <-. }
  simpl in Hrun. unfold mbind, M_bind in Hrun.
  destruct (level_entry opts prev ent d s) as [[r1|e] s1] eqn:He; [|done].
  destruct (level_map opts prev ents r1.2 s1) as [[rs|e] s2] eqn:Hm; [|done].
  simpl in Hrun. injection Hrun as <- <-. simpl.
  eapply IH; [exact Hm|]. by eapply level_entry_keys.
Qed.

Lemma parse_levels_keys opts fileMetaDict n :
  forall lvl prev (d d' : gmap string (option addr)) s s' k,
  parse_levels opts fileMetaDict n lvl prev d s = (Ok d', s') ->
  is_Some (d !! k) -> is_Some (d' !! k).
Proof.
  induction n as [|n IH]; intros lvl prev d d' s s' k Hrun Hk.
  { by injection Hrun as <- <-. }
  simpl in Hrun. unfold mbind, M_bind in Hrun.
  destruct (level_map opts prev _ d s) as [[r|e] s1] eqn:Hm; [|done].
  destruct (index_nodes _ r.2 s1) as [[d1|e] s2] eqn:Hi; [|done].
  eapply IH; [exact Hrun|].
  eapply index_nodes_keys; [exact Hi|]. by eapply level_map_keys.
Qed.

Lemma attach_domains_keys rootNode nodes :
  forall (d d' : gmap string (option addr)) s s' k,
  attach_domains rootNode nodes d s = (Ok d', s') ->
  is_Some (d !! k) -> is_Some (d' !! k).
Proof.
  induction nodes as [|n nodes IH]; intros d d' s s' k Hrun Hk.
  { by injection Hrun as <- <-. }
  simpl in Hrun. unfold mbind, M_bind in Hrun.
  destruct (addChildM rootNode n s) as [[[]|e] s1]; [|done].
  destruct (fname_key n s1) as [[key|e] s2]; [|done].
  eapply IH; [exact Hrun|].
  destruct (decide (key = k)) as [<-|Hne].
  - rewrite lookup_insert_eq. by eexists.
  - by rewrite lookup_insert_ne.
Qed.

(** C1 (as the code has it).  When the listing is empty, or holds a file of
    level 1 and no file of level 1 has the stem [root], [parse] returns the
    empty result: it throws nothing and leaves the heap, the errors and the
    missing set as they were.  When [root.md] is listed, once or several
    times, a result that [parse] returns is never empty. *)
Theorem parse_without_root opts data s :
  path_name "root.md" = "root" ->
  (data = []
   \/ ((exists f, f ∈ data /\ length (JS.split_dot (path_name f)) = 1)
       /\ forall f, f ∈ data -> length (JS.split_dot (path_name f)) = 1 ->
                    path_name f <> "root") ->
   parse opts data s = (Ok [], s))
  /\ (forall res s', "root.md" ∈ data ->
        parse opts data s = (Ok res, s') -> res <> []).
Proof.
  intros Hname. split.
  - intros [->|[(f0 & Hin0 & Hl0) Hnone]]; [done|].
    unfold FileParser.parse. rewrite bool_decide_eq_false_2.
    2:{ intros ->. by apply elem_of_nil in Hin0. }
    rewrite getFileMeta_lookup.
    destruct (filter _ data) as [|g l] eqn:Hf.
    { assert (Hin : f0 ∈ filter (fun f => length (JS.split_dot (path_name f)) = 1) data)
        by (by apply list_elem_of_filter).
      rewrite Hf in Hin. by apply elem_of_nil in Hin. }
    destruct (find _ _) as [m|] eqn:Hfind; [|done].
    apply find_some in Hfind as [Hm Hroot].
    apply String.eqb_eq in Hroot.
    apply list_elem_of_In, list_elem_of_fmap in Hm as (f & -> & Hf').
    rewrite <- Hf in Hf'. apply list_elem_of_filter in Hf' as [Hl Hin].
    simpl in Hroot. subst f. exfalso. by apply (Hnone "root.md").
  - intros res s' Hin Hrun. unfold FileParser.parse in Hrun.
    rewrite bool_decide_eq_false_2 in Hrun.
    2:{ intros ->. by apply elem_of_nil in Hin. }
    destruct (getFileMeta data !! 1) as [lvl1|] eqn:Hlvl; [|done].
    destruct (find _ lvl1) as [rootMeta|] eqn:Hfind.
    2:{ rewrite getFileMeta_lookup in Hlvl.
        assert (Hin1 : "root.md" ∈ filter
                  (fun f => length (JS.split_dot (path_name f)) = 1) data).
        { apply list_elem_of_filter. split; [by rewrite Hname|done]. }
        destruct (filter _ data) as [|g l]; [done|]. injection Hlvl as <-.
        apply (list_elem_of_fmap_2
                 (fun f => {| prefix := path_name f; fpath := f |})) in Hin1.
        apply list_elem_of_In in Hin1.
        by apply (find_none _ _ Hfind) in Hin1. }
    unfold mbind, M_bind in Hrun.
    destruct (toNode rootMeta [] _ s) as [[r|e] s1]; [|done].
    destruct (mapM (M := M) _ _ s1) as [[prevNodes|e] s2]; [|done].
    destruct (attach_domains _ _ _ s2) as [[d|e] s3] eqn:Ha; [|done].
    destruct (parse_levels _ _ _ _ _ _ s3) as [[d'|e] s4] eqn:Hp; [|done].
    injection Hrun as <- <-.
    assert (Hk : is_Some (d' !! "root")).
    { eapply parse_levels_keys; [exact Hp|].
      eapply attach_domains_keys; [exact Ha|].
      rewrite lookup_insert_eq. by eexists. }
    destruct Hk as [v Hv]. intros Hnil.
    apply elem_of_map_to_list in Hv.
    apply (list_elem_of_fmap_2 snd) in Hv. rewrite Hnil in Hv.
    by apply elem_of_nil in Hv.
Qed.

(** A file handed to [toNode] without [isRoot] (every file of level 2 and
    deeper that is not a [root.*] file), that parses, and whose parent path
    is not the path of any candidate: a [NO_PARENT_PATH] entry is pushed on
    the errors.  With [errorOnEmpty] set, which is the default, the build
    throws there.  With it unset, [toNode] throws nothing and returns the
    new note, which has no parent, with the parent path as missing; when
    that path is a non-empty string and the index holds a closest ancestor,
    [parse] hands the note to stub synthesis, after which it has a parent,
    and adds the path to the missing set.  Handed to [toNode] with
    [isRoot], as the files of level 1 are, the same file yields its note
    with no entry and no throw. *)
Lemma no_parent_path opts prev ent (d : gmap string (option addr)) s props :
  globMatch ["root.*"] (fpath ent) = false ->
  mdFile2NodeProps (path_join root (fpath ent)) = inr props ->
  find_parent (heap s) (dirName (prefix ent)) prev = Ok None ->
  let parentPath := dirName (prefix ent) in
  let msg := NO_PARENT_PATH ent parentPath in
  let n := length (heap s) in
  p_errorOnEmpty (constructor None) = true
  /\ (forall o, errorOnEmpty o = None ->
        p_errorOnEmpty (constructor (Some o)) = true)
  /\ (p_errorOnEmpty opts = true ->
      level_entry opts prev ent d s
      = (Throw (NoParent msg), with_error msg s))
  /\ (p_errorOnEmpty opts = false ->
      toNode ent prev
        {| t_errorOnEmpty := Some false; t_isRoot := None;
           t_errorOnBadParse := Some (p_errorOnBadParse opts) |} s
      = (Ok (Some n, Some parentPath),
         with_heap (heap s ++ [Note_new (with_parent None props)])
           (with_error msg s))
      /\ (parentPath <> EmptyString ->
          forall c,
            findClosestParent
              (logicalPath (Note_new (with_parent None props))) d = Some c ->
            c < length (heap s) ->
            exists d' s' (nd : Note) q,
              level_entry opts prev ent d s = (Ok (Some n, d'), s')
              /\ errors s' = errors s ++ [msg]
              /\ missing s' = (if bool_decide (parentPath ∈ missing s)
                               then missing s
                               else missing s ++ [parentPath])
              /\ heap s' !! n = Some nd /\ parent nd = Some q))
  /\ (forall e b,
        toNode ent prev
          {| t_errorOnEmpty := e; t_isRoot := Some true;
             t_errorOnBadParse := b |} s
        = (Ok (Some n, None),
           with_heap (heap s ++ [Note_new (with_parent None props)]) s)).
Proof.
  intros Hglob Hmd Hfind parentPath msg n.
  split; [done|]. split.
  { intros o Ho. unfold constructor. simpl. by rewrite Ho. }
  split; [|split].
  3:{ intros e b. rewrite (toNode_parsed _ _ _ _ _ Hmd). cbv zeta.
      by rewrite Hfind. }
  - intros Hopt. unfold FileParser.level_entry. rewrite Hglob.
    unfold mbind, M_bind. rewrite (toNode_parsed _ _ _ _ _ Hmd).
    cbv zeta. rewrite Hfind. simpl. by rewrite Hopt.
  - intros Hopt.
    assert (Ht : forall b,
              toNode ent prev
                {| t_errorOnEmpty := Some false; t_isRoot := None;
                   t_errorOnBadParse := b |} s
              = (Ok (Some n, Some parentPath),
                 with_heap (heap s ++ [Note_new (with_parent None props)])
                   (with_error msg s))).
    { intros b. rewrite (toNode_parsed _ _ _ _ _ Hmd). cbv zeta.
      by rewrite Hfind. }
    split; [apply Ht|].
    intros Hne c Hc Hlt.
    set (s1 := with_heap (heap s ++ [Note_new (with_parent None props)])
                 (with_error msg s)).
    assert (Hlen1 : length (heap s1) = S n).
    { simpl. rewrite length_app. simpl. unfold n. lia. }
    destruct (createStubNotes_returns c n s1)
      as (stubs & s2 & tn & q & Hcs & Herr2 & Hmis2 & Hstubs & Htn & Hq).
    { rewrite Hlen1. unfold n. lia. }
    { rewrite Hlen1. lia. }
    destruct (index_nodes_Ok stubs d s2 Hstubs) as [d' Hd'].
    exists d', (with_missing parentPath s2), tn, q.
    split.
    + unfold FileParser.level_entry. rewrite Hglob.
      unfold mbind, M_bind. rewrite Hopt, Ht. cbv beta iota.
      change (Some n, Some parentPath).2 with (Some parentPath).
      change (Some n, Some parentPath).1 with (Some n).
      rewrite (truthy_Some _ Hne). unfold get_heap. cbv beta iota.
      change (option_bind _ _ ?f (Some n)) with (f n). cbv beta.
      change ((Ok (heap s1), s1).1)
        with (Ok (A := list Note) (heap s1)).
      assert (Hn : heap s1 !! n = Some (Note_new (with_parent None props)))
        by apply (lookup_alloc_new (with_parent None props)).
      fold s1. rewrite Hn, Hc, Hcs. unfold mbind, M_bind. rewrite Hd'. done.
    + simpl. rewrite Herr2, Hmis2. done.
Qed.

(** *** The candidates of a level *)

(** The node a file of a level yields is the object allocated first in its
    step; what the step adds to the index are stubs, allocated after it. *)
Lemma level_entry_node opts prev ent (d : gmap string (option addr)) s r s' :
  level_entry opts prev ent d s = (Ok r, s') ->
  length (heap s) <= length (heap s')
  /\ (forall a, r.1 = Some a ->
        a = length (heap s) /\ a < length (heap s'))
  /\ (forall k a, r.2 !! k = Some (Some a) ->
        d !! k = Some (Some a) \/ length (heap s) < a < length (heap s')).
Proof.
  intros Hrun. unfold FileParser.level_entry in Hrun.
  destruct (globMatch _ _).
  { injection Hrun as <- <-. split; [done|]. split; [done|].
    intros k a Hk. by left. }
  unfold mbind, M_bind in Hrun.
  destruct (toNode ent prev _ s) as [[[node missing]|e] s1] eqn:Ht; [|done].
  destruct (toNode_shape _ _ _ _ _ _ Ht) as (Hlen1 & Hnone & Hsome).
  cbv beta iota in Hrun.
  change ((node, missing).1) with node in Hrun.
  change ((node, missing).2) with missing in Hrun.
  destruct (JS.truthy missing) eqn:Htr.
  2:{ injection Hrun as <- <-. simpl. split; [done|].
      split; [|intros k a Hk; by left].
      intros a ->. by destruct (Hsome _ _ eq_refl). }
  destruct node as [n|].
  2:{ rewrite (Hnone _ eq_refl) in Htr. done. }
  destruct (Hsome _ _ eq_refl) as (-> & Hlt).
  unfold get_heap in Hrun. cbv beta iota in Hrun.
  match type of Hrun with
  | context [match ?x with Some _ => _ | None => _ end] =>
      destruct x as [nd|]; [|done]
  end.
  destruct (createStubNotes _ _ s1) as [[stubs|e] s2] eqn:Hcs; [|done].
  destruct (createStubNotes_shape _ _ _ _ _ Hcs) as [Hlen2 Hst].
  specialize (Hst _ eq_refl).
  destruct (index_nodes stubs d s2) as [[d1|e] s3] eqn:Hi; [|done].
  pose proof (index_nodes_state stubs d s2) as Hs3. rewrite Hi in Hs3.
  simpl in Hs3. subst s3. simpl in Hrun. injection Hrun as <- <-.
  simpl. split; [lia|].
  split; [intros a [= <-]; split; [done|lia]|].
  intros k a Hk.
  destruct (index_nodes_values _ _ _ _ _ _ _ Hi Hk) as [Hold|Hin]; [by left|].
  right. rewrite Forall_forall in Hst. specialize (Hst _ Hin). simpl in Hst.
  lia.
Qed.

Lemma level_map_nodes opts prev ents :
  forall (d : gmap string (option addr)) s r s',
  level_map opts prev ents d s = (Ok r, s') ->
  length (heap s) <= length (heap s')
  /\ Forall (fun x => forall a, x = Some a ->
                       length (heap s) <= a < length (heap s')) r.1
  /\ (forall k a, r.2 !! k = Some (Some a) ->
        d !! k = Some (Some a)
        \/ (length (heap s) <= a < length (heap s') /\ Some a ∉ r.1)).
Proof.
  induction ents as [|ent ents IH]; intros d s r s' Hrun.
  { injection Hrun as <- <-. simpl. split; [done|]. split; [constructor|].
    intros k a Hk. by left. }
  simpl in Hrun. unfold mbind, M_bind in Hrun.
  destruct (level_entry opts prev ent d s) as [[r1|e] s1] eqn:He; [|done].
  destruct (level_entry_node _ _ _ _ _ _ _ He) as (Hlen1 & Hnode & Hnew).
  destruct (level_map opts prev ents r1.2 s1) as [[rs|e] s2] eqn:Hm; [|done].
  destruct (IH _ _ _ _ Hm) as (Hlen2 & Hnodes & Hnew2).
  simpl in Hrun. injection Hrun as <- <-. simpl.
  split; [lia|]. split.
  - constructor.
    + intros a Ha. destruct (Hnode _ Ha) as [-> Hlt]. lia.
    + eapply Forall_impl; [exact Hnodes|]. intros x Hx a Ha.
      specialize (Hx a Ha). lia.
  - intros k a Hk. destruct (Hnew2 _ _ Hk) as [Hold|[Hrange Hnin]].
    + destruct (Hnew _ _ Hold) as [?|Hrange]; [by left|]. right.
      split; [lia|]. intros [Heq|Hin]%elem_of_cons.
      * symmetry in Heq. destruct (Hnode _ Heq) as [-> _]. lia.
      * rewrite Forall_forall in Hnodes. specialize (Hnodes _ Hin a eq_refl).
        lia.
    + right. split; [lia|]. intros [Heq|Hin]%elem_of_cons; [|done].
      symmetry in Heq. destruct (Hnode _ Heq) as [-> Hlt]. lia.
Qed.

(** C8.  [addChild] appends the child to the [children] of the receiver
    and sets the [parent] of the child to the receiver, and touches nothing
    else.  A node that has no parent when it is attached keeps the heap well
    linked.  [toNode] and the whole of [parse] attach every note once, and
    while it has no parent: in the state they leave, by returning or by
    throwing, every node whose parent is [p] stands in [p.children] exactly
    once. *)
Theorem addChild_exactly_once opts data ent parents o s :
  well_linked (heap s) ->
  (forall p c a,
     addChild p c (heap s) !! a = addChild_at p c a <$> heap s !! a)
  /\ (forall p c a (n : Note),
        children (addChild_at p c a n)
        = (if bool_decide (a = p) then children n ++ [c] else children n)
        /\ parent (addChild_at p c a n)
           = (if bool_decide (a = c) then Some p else parent n)
        /\ toRawProps (addChild_at p c a n) = toRawProps n)
  /\ (forall p c, is_Some (heap s !! p) -> detached (heap s) c ->
        exactly_once (addChild p c (heap s)))
  /\ exactly_once (heap (toNode ent parents o s).2)
  /\ exactly_once (heap (parse opts data s).2).
Proof.
  intros Hwl. split; [intros; apply lookup_addChild|]. split.
  { intros p c a n. by rewrite children_addChild_at, parent_addChild_at,
      toRawProps_addChild_at. }
  split.
  { intros p c Hp Hc. by apply well_linked_exactly_once, well_linked_addChild. }
  split.
  - apply well_linked_exactly_once. by apply toNode_links.
  - apply well_linked_exactly_once. by apply parse_links.
Qed.

End ParserFacts.

(** ** The parser on a concrete file system *)

(** Without the discipline of attaching a node once, [addChild] does not
    keep the invariant: it does not look for the child among the children
    it already has. *)
Example addChild_twice :
  (fun n : Note => children n)
    <$> (addChild 0 1 (addChild 0 1 Demo.three_notes) !! 0)
  = Some [1; 1].
Proof. reflexivity. Qed.

Lemma parse_without_root_witness :
  Demo.parse None ["a.md"; "a.b.md"] = (Ok [], fresh []).
Proof.
  apply (parse_without_root Demo.path_name Demo.path_join Demo.globMatch
           Demo.mdFile2NodeProps Demo.root (constructor None)
           ["a.md"; "a.b.md"] (fresh [])).
  - reflexivity.
  - right. split.
    + exists "a.md". split; [by left|reflexivity].
    + intros f Hin Hl.
      apply elem_of_cons in Hin as [->|Hin]; [by vm_compute|].
      apply list_elem_of_singleton in Hin as ->. by vm_compute in Hl.
Defined.

(** C1 fails on the code.  A listing without a file of level 1 makes
    [parse] throw a [TypeError] ([fileMetaDict[1]] is [undefined]); and with
    two files of level 1 whose stem is [root], [root.md] and [root.txt],
    the result is not empty: both files become notes, and the index keeps
    the one stored last under the key [root]. *)
Lemma parse_root_counterexample :
  Demo.parse None ["a.b.md"] = (Throw TypeError, fresh [])
  /\ Demo.path_name "root.md" = "root"
  /\ Demo.path_name "root.txt" = "root"
  /\ (Demo.parse None ["root.md"; "root.txt"]).1 = Ok [Some 1]
  /\ (fun n : Note => parent n) <$> heap (Demo.parse None ["root.md"; "root.txt"]).2
     = [None; Some 0].
Proof. vm_compute. repeat split. Qed.


(** C3 fails on the code.  With [errorOnBadParse] unset, a file of level 1
    other than [root.md] that does not parse makes [parse] throw the error
    of the collaborator, and no entry is recorded: the call of [toNode] for
    the first level does not hand the flag over.  The same file one level
    down is recorded as [BAD_PARSE] and skipped.  When it is [root.md] that
    does not parse, the entry is recorded and the root is [null]:
    attaching the next note of level 1 to it is a [TypeError]. *)
Theorem bad_parse_at_first_level :
  Demo.parse Demo.relaxed ["root.md"; "bad.md"]
  = (Throw (Thrown "bad front matter"),
     fresh [Note_new (with_parent None (Demo.props_of "root"))])
  /\ Demo.returned (Demo.parse Demo.relaxed ["root.md"; "a.md"; "a.bad.md"])
     = Some 2
  /\ errors (Demo.parse Demo.relaxed ["root.md"; "a.md"; "a.bad.md"]).2
     = [BAD_PARSE {| prefix := "a.bad"; fpath := "a.bad.md" |}
          "bad front matter"]
  /\ (Demo.parse_no_root Demo.relaxed ["root.md"; "a.md"]).1 = Throw TypeError
  /\ errors (Demo.parse_no_root Demo.relaxed ["root.md"; "a.md"]).2
     = [BAD_PARSE {| prefix := "root"; fpath := "root.md" |}
          "bad front matter"].
Proof. vm_compute. repeat split. Qed.

(** C4 fails on the code.  The file [.b.md] has the stem [.b], of level 2,
    and the empty string as parent path, which is the path of no candidate.
    With [errorOnEmpty] set the build throws, as for any other file without
    parent.  With [errorOnEmpty] unset the [NO_PARENT_PATH] entry is
    recorded, but [parse] tests [if (missing)] and the empty string is
    falsy: the path is not added to the missing set, no stub is made, and
    the note stays without parent.  For [a.b.md], whose parent path [a] is
    missing as well, the same run records the entry, adds [a] to the
    missing set, makes the stub [a] below the root and attaches the note
    to it. *)
Theorem no_parent_path_empty :
  let strict := Demo.parse None ["root.md"; ".b.md"] in
  let relaxed := Demo.parse Demo.relaxed ["root.md"; ".b.md"] in
  let sibling := Demo.parse Demo.relaxed ["root.md"; "a.b.md"] in
  let ent := {| prefix := ".b"; fpath := ".b.md" |} in
  getFileMeta Demo.path_name ["root.md"; ".b.md"] !! 2 = Some [ent]
  /\ dirName (prefix ent) = EmptyString
  /\ strict.1 = Throw (NoParent (NO_PARENT_PATH ent EmptyString))
  /\ Demo.returned relaxed = Some 2
  /\ errors relaxed.2 = [NO_PARENT_PATH ent EmptyString]
  /\ missing relaxed.2 = []
  /\ (fun n : Note => (fname n, parent n)) <$> heap relaxed.2
     = [(Some "root", None); (Some ".b", None)]
  /\ Demo.returned sibling = Some 3
  /\ errors sibling.2
     = [NO_PARENT_PATH {| prefix := "a.b"; fpath := "a.b.md" |} "a"]
  /\ missing sibling.2 = ["a"]
  /\ (fun n : Note => (fname n, parent n)) <$> heap sibling.2
     = [(Some "root", None); (Some "a.b", Some 2); (Some "a", Some 0)].
Proof. vm_compute. repeat split. Qed.

Lemma no_parent_path_witness :
  let s := fresh [Note_new (with_parent None (Demo.props_of "root"))] in
  let ent := {| prefix := "a.b"; fpath := "a.b.md" |} in
  level_entry Demo.path_join Demo.globMatch Demo.mdFile2NodeProps Demo.root
    (constructor None) [] ent (<["root" := Some 0]> ∅) s
  = (Throw (NoParent (NO_PARENT_PATH ent "a")),
     with_error (NO_PARENT_PATH ent "a") s)
  /\ exists d' s' (nd : Note) q,
       level_entry Demo.path_join Demo.globMatch Demo.mdFile2NodeProps
         Demo.root (constructor Demo.relaxed) [] ent (<["root" := Some 0]> ∅) s
       = (Ok (Some 1, d'), s')
       /\ errors s' = [NO_PARENT_PATH ent "a"]
       /\ missing s' = ["a"]
       /\ heap s' !! 1 = Some nd /\ parent nd = Some q.
Proof.
  intros s ent. split.
  - destruct (no_parent_path Demo.path_join Demo.globMatch
                Demo.mdFile2NodeProps Demo.root (constructor None) [] ent
                (<["root" := Some 0]> ∅) s (Demo.props_of "a.b"))
      as (_ & _ & H & _).
    + reflexivity.
    + reflexivity.
    + reflexivity.
    + apply H. reflexivity.
  - destruct (no_parent_path Demo.path_join Demo.globMatch
                Demo.mdFile2NodeProps Demo.root (constructor Demo.relaxed) []
                ent (<["root" := Some 0]> ∅) s (Demo.props_of "a.b"))
      as (_ & _ & _ & H & _).
    + reflexivity.
    + reflexivity.
    + reflexivity.
    + destruct (H eq_refl) as [_ H'].
      apply (H' ltac:(done) 0 eq_refl ltac:(simpl; lia)).
Defined.

Lemma addChild_exactly_once_witness :
  exactly_once (heap (Demo.parse None ["root.md"; "a.md"; "a.b.md"]).2).
Proof.
  destruct (addChild_exactly_once Demo.path_name Demo.path_join Demo.globMatch
              Demo.mdFile2NodeProps Demo.root (constructor None)
              ["root.md"; "a.md"; "a.b.md"]
              {| prefix := "a"; fpath := "a.md" |} []
              {| t_errorOnEmpty := None; t_isRoot := None;
                 t_errorOnBadParse := None |} (fresh []))
    as (_ & _ & _ & _ & H).
  - apply well_linked_nil.
  - exact H.
Defined.

Lemma Note_new_detached_witness :
  let props := Demo.with_ids (Some 0) [1] "p" ["k"] (Demo.titled "c") in
  parent (Note_new props) = None
  /\ children (Note_new props) = []
  /\ parentId (Note_new props) = Some "p"
  /\ childrenIds (Note_new props) = ["k"]
  /\ Note_new props
     = Note_new (Demo.with_ids None [] "p" ["k"] (Demo.titled "c"))
  /\ exists pn' an' : Note,
       addChild 0 3 (alloc props Demo.tree).2 !! 0 = Some pn'
       /\ children pn' = [1; 3]
       /\ addChild 0 3 (alloc props Demo.tree).2 !! 3 = Some an'
       /\ parent an' = Some 0.
Proof.
  intros props.
  destruct (Note_new_detached props Demo.tree)
    as (_ & Hp & Hc & Hpid & _ & Hcids & _ & Hlinks & _ & H).
  split; [exact Hp|]. split; [exact Hc|].
  split; [exact (Hpid (Some "p") eq_refl)|].
  split; [exact (Hcids ["k"] eq_refl)|].
  split; [symmetry; exact (Hlinks (Some None) (Some []))|].
  destruct (H 0 _ eq_refl) as (pn' & an' & H1 & H2 & H3 & H4).
  exists pn', an'. repeat split; assumption.
Defined.

(** * Further properties

    What the code does beyond the statements above: the grouping of the
    listing, the two logs of a run and the notes it works on, the first
    level of the tree, the listing of schema files, and the node methods
    used outside their intended discipline. *)

Import Run Frame.

Section LevelExtras.

Variable path_name : string -> string.

Local Abbreviation getFileMeta := (getFileMeta path_name).
Local Abbreviation level f := (length (JS.split_dot (path_name f))).

Lemma split_dot_length (s : string) : 1 <= length (JS.split_dot s).
Proof.
  induction s as [|ch s IH]; simpl; [lia|].
  destruct (Ascii.eqb ch "."%char); simpl; [lia|].
  destruct (JS.split_dot s); simpl in *; lia.
Qed.

Lemma getFileMeta_elem (data : list string) (f : string) :
  f ∈ data ->
  exists metas, getFileMeta data !! level f = Some metas
                /\ {| prefix := path_name f; fpath := f |} ∈ metas.
Proof.
  intros Hin. rewrite getFileMeta_lookup.
  assert (Hf : f ∈ filter (fun g => level g = level f) data)
    by (by apply list_elem_of_filter).
  destruct (filter _ data) as [|g l] eqn:Heq; [by apply elem_of_nil in Hf|].
  eexists. split; [done|].
  by apply (list_elem_of_fmap_2
              (fun f => {| prefix := path_name f; fpath := f |})).
Qed.

(** X1.  [getFileMeta] groups the listing by level, the number of
    dot-separated segments of the file name without its extension.  The
    entry of a level holds the files of that level, all of them and in the
    order of the listing, each with its name as [prefix]; every listed file
    is in the entry of its level; a level without files has no entry, and
    there is no level 0. *)
Theorem getFileMeta_by_level (data : list string) :
  (forall lvl metas, getFileMeta data !! lvl = Some metas ->
     1 <= lvl /\ metas <> []
     /\ metas = (fun f => {| prefix := path_name f; fpath := f |})
                  <$> filter (fun f => level f = lvl) data)
  /\ (forall f, f ∈ data ->
        exists metas, getFileMeta data !! level f = Some metas
                      /\ {| prefix := path_name f; fpath := f |} ∈ metas)
  /\ (forall lvl, getFileMeta data !! lvl = None
                  <-> forall f, f ∈ data -> level f <> lvl).
Proof.
  split; [|split].
  - intros lvl metas. rewrite getFileMeta_lookup.
    destruct (filter _ data) as [|g l] eqn:Hf; [done|].
    intros [= <-]. split; [|split; done].
    assert (Hg : g ∈ filter (fun f => level f = lvl) data)
      by (rewrite Hf; by left).
    apply list_elem_of_filter in Hg as [<- _]. apply split_dot_length.
  - apply getFileMeta_elem.
  - intros lvl. rewrite getFileMeta_lookup.
    destruct (filter _ data) as [|g l] eqn:Hf.
    + split; [|done]. intros _ f Hin Hl.
      assert (Hin' : f ∈ filter (fun f => level f = lvl) data)
        by (by apply list_elem_of_filter).
      rewrite Hf in Hin'. by apply elem_of_nil in Hin'.
    + split; [done|]. intros Hnone.
      assert (Hg : g ∈ filter (fun f => level f = lvl) data)
        by (rewrite Hf; by left).
      apply list_elem_of_filter in Hg as [Hl Hin]. by destruct (Hnone g Hin).
Qed.

Lemma max_list_same (l1 l2 : list nat) :
  (forall x, x ∈ l1 <-> x ∈ l2) -> max_list l1 = max_list l2.
Proof.
  intros Hsame.
  destruct l1 as [|x l1], l2 as [|y l2]; [done| | |].
  - assert (Hy : y ∈ @nil nat) by (apply Hsame; by left). by apply elem_of_nil in Hy.
  - assert (Hx : x ∈ @nil nat) by (apply Hsame; by left). by apply elem_of_nil in Hx.
  - apply Nat.le_antisymm.
    + apply max_list_elem_of_le, Hsame, max_list_elem_of. done.
    + apply max_list_elem_of_le, Hsame, max_list_elem_of. done.
Qed.

(** X2.  For a listing that is not empty, [maxLvl] in [parse] is the
    deepest level of a listed file: it is at least 1, every file is at a
    level up to it, and there are files at that level.  The fallback
    [|| 2] is what an empty dictionary gives, which [parse] never has there,
    since it returns before for an empty listing. *)
Theorem maxLvl_of_listing (data : list string) :
  data <> [] ->
  maxLvl_of (getFileMeta data) = max_list ((fun f => level f) <$> data)
  /\ 1 <= maxLvl_of (getFileMeta data)
  /\ (forall f, f ∈ data -> level f <= maxLvl_of (getFileMeta data))
  /\ is_Some (getFileMeta data !! maxLvl_of (getFileMeta data))
  /\ maxLvl_of (∅ : gmap nat (list FileMeta)) = 2.
Proof.
  intros Hne.
  assert (Hkeys : max_list (fst <$> map_to_list (getFileMeta data))
                  = max_list ((fun f => level f) <$> data)).
  { apply max_list_same. intros x. split.
    - intros ([k v] & -> & Hkv%elem_of_map_to_list)%list_elem_of_fmap.
      simpl. rewrite getFileMeta_lookup in Hkv.
      destruct (filter _ data) as [|g l] eqn:Hf; [done|].
      assert (Hg : g ∈ filter (fun f => level f = k) data)
        by (rewrite Hf; by left).
      apply list_elem_of_filter in Hg as [<- Hin].
      by apply (list_elem_of_fmap_2 (fun f => level f)).
    - intros (f & -> & Hin)%list_elem_of_fmap.
      destruct (getFileMeta_elem data f Hin)
        as (metas & Hm & _).
      apply elem_of_map_to_list in Hm.
      by apply (list_elem_of_fmap_2 fst) in Hm. }
  assert (Hpos : 1 <= max_list ((fun f => level f) <$> data)).
  { destruct data as [|f data]; [done|].
    etrans; [apply (split_dot_length (path_name f))|].
    apply max_list_elem_of_le. by left. }
  assert (Hmax : maxLvl_of (getFileMeta data) = max_list ((fun f => level f) <$> data)).
  { unfold maxLvl_of. rewrite Hkeys.
    destruct (Nat.eqb_spec (max_list ((fun f => level f) <$> data)) 0); [lia|done]. }
  split; [done|]. rewrite Hmax. split; [done|]. split; [|split; [|done]].
  - intros f Hin. apply max_list_elem_of_le. by apply (list_elem_of_fmap_2 (fun f => level f)).
  - assert (Hin : max_list ((fun f => level f) <$> data) ∈ (fun f => level f) <$> data).
    { apply max_list_elem_of. by destruct data. }
    apply list_elem_of_fmap in Hin as (f & -> & Hin).
    destruct (getFileMeta_elem data f Hin)
      as (metas & Hm & _).
    by eexists.
Qed.

End LevelExtras.

Lemma maxLvl_of_listing_witness :
  maxLvl_of (FileParser.getFileMeta Demo.path_name ["root.md"; "a.md"; "a.b.c.md"])
  = 3.
Proof.
  destruct (maxLvl_of_listing Demo.path_name ["root.md"; "a.md"; "a.b.c.md"])
    as [H _]; [done|].
  rewrite H. reflexivity.
Defined.

Section ListingFacts.

Variable path_name : string -> string.
Variable path_join : string -> string -> string.
Variable globMatch : list string -> string -> bool.
Variable mdFile2NodeProps : string -> string + INoteOpts.
Variable root : string.

Local Abbreviation getFileMeta := (getFileMeta path_name).
Local Abbreviation parse :=
  (parse path_name path_join globMatch mdFile2NodeProps root).
Local Abbreviation level f := (length (JS.split_dot (path_name f))).

(** X3.  [parse] depends on the listing through [getFileMeta] alone: two
    listings that hold the same files in the same order at every level give
    the same dictionary and the same run, however the levels are
    interleaved. *)
Theorem parse_by_level opts (data data' : list string) s :
  (forall lvl, filter (fun f => level f = lvl) data
               = filter (fun f => level f = lvl) data') ->
  getFileMeta data = getFileMeta data'
  /\ parse opts data s = parse opts data' s.
Proof.
  intros Hsame.
  assert (Hmeta : getFileMeta data = getFileMeta data').
  { apply map_eq. intros lvl. by rewrite !getFileMeta_lookup, Hsame. }
  split; [done|].
  assert (Hnil : forall d d' : list string,
            (forall lvl, filter (fun f => level f = lvl) d
                         = filter (fun f => level f = lvl) d') ->
            d = [] -> d' = []).
  { intros d d' H ->. destruct d' as [|f d']; [done|].
    specialize (H (level f)). rewrite filter_nil, filter_cons in H.
    by rewrite decide_True in H. }
  unfold FileParser.parse. rewrite Hmeta.
  destruct (decide (data = [])) as [Hd|Hd].
  - rewrite (Hnil _ _ Hsame Hd), Hd. done.
  - rewrite !bool_decide_eq_false_2; [done| |done].
    intros Hd'. apply Hd. by apply (Hnil data' data).
Qed.

End ListingFacts.

Lemma parse_by_level_witness :
  Demo.parse None ["a.b.md"; "root.md"; "a.md"]
  = Demo.parse None ["root.md"; "a.md"; "a.b.md"].
Proof.
  apply (parse_by_level Demo.path_name Demo.path_join Demo.globMatch
           Demo.mdFile2NodeProps Demo.root).
  intros lvl. rewrite !filter_cons, !filter_nil.
  change (length (JS.split_dot (Demo.path_name "a.b.md"))) with 2.
  change (length (JS.split_dot (Demo.path_name "root.md"))) with 1.
  change (length (JS.split_dot (Demo.path_name "a.md"))) with 1.
  repeat case_decide; done || lia.
Defined.

Section LogFacts.

Context {A B : Type}.
Implicit Types (s : PState) (ok : ErrorMsg -> Prop).

Lemma logs_silent ok eE eB s (r : Outcome A) s' :
  errors s' = errors s -> missing s' = missing s ->
  (forall msg, r <> Throw (NoParent msg)) ->
  logs ok eE eB s (r, s').
Proof.
  intros He Hm Hr. exists [], []. simpl. rewrite He, Hm, !app_nil_r.
  split; [done|]. split; [done|]. split; [constructor|].
  split; [by intros m ?%elem_of_nil|].
  split; [intros _; split; [done|left; constructor]|].
  split; [done|]. intros _. constructor.
Qed.

Lemma logs_weaken ok ok' eE eB s (r : Outcome A * PState) :
  (forall m, ok m -> ok' m) -> logs ok eE eB s r -> logs ok' eE eB s r.
Proof.
  intros Hok (es & ms & He & Hm & Hall & Hms & HE & HN & HB).
  exists es, ms. do 2 (split; [done|]).
  split; [by eapply Forall_impl|done].
Qed.

Lemma logs_eB ok eE eB s (r : Outcome A * PState) :
  logs ok eE true s r -> logs ok eE eB s r.
Proof.
  intros (es & ms & He & Hm & Hall & Hms & HE & HN & HB).
  exists es, ms. do 6 (split; [done|]). intros _. by apply HB.
Qed.

Lemma logs_bind ok eE eB s (c : M A) (f : A -> M B) :
  logs ok eE eB s (c s) ->
  (forall a s1, c s = (Ok a, s1) -> logs ok eE eB s1 (f a s1)) ->
  logs ok eE eB s ((c ≫= f) s).
Proof.
  intros Hc Hf. unfold mbind, M_bind.
  destruct (c s) as [[a|e] s1] eqn:Hcs.
  2:{ destruct Hc as (es & ms & He & Hm & Hall & Hms & HE & HN & HB).
      exists es, ms. simpl in *. do 4 (split; [done|]).
      split; [|split; [|done]].
      - intros HeE. destruct (HE HeE) as [-> [Hno|(es0 & msg & -> & H0 & Hm1 & [= ->])]].
        + split; [done|by left].
        + split; [done|]. right. by exists es0, msg.
      - intros HeE msg [= ->]. by apply (HN HeE msg). }
  destruct Hc as (es1 & ms1 & He1 & Hm1 & Hall1 & Hms1 & HE1 & HN1 & HB1).
  destruct (Hf a s1 eq_refl) as (es2 & ms2 & He2 & Hm2 & Hall2 & Hms2 & HE2 & HN2 & HB2).
  simpl in *. exists (es1 ++ es2), (ms1 ++ ms2).
  rewrite He2, He1, Hm2, Hm1, !app_assoc.
  split; [done|]. split; [done|]. split; [by apply Forall_app|].
  split; [|split; [|split]].
  - intros m [Hin|Hin]%elem_of_app.
    + destruct (Hms1 _ Hin) as [Hne [ent Hent]]. split; [done|].
      exists ent. apply elem_of_app. by left.
    + destruct (Hms2 _ Hin) as [Hne [ent Hent]]. split; [done|].
      exists ent. apply elem_of_app. by right.
  - intros HeE.
    destruct (HE1 HeE) as [-> [Hno1|(es0 & msg & -> & H0 & Hmsg & [=])]].
    destruct (HE2 HeE) as [-> [Hno2|(es0 & msg & -> & H0 & Hmsg & Hr)]].
    + split; [done|]. left. by apply Forall_app.
    + split; [done|]. right. exists (es1 ++ es0), msg.
      rewrite app_assoc. split; [done|]. split; [by apply Forall_app|done].
  - done.
  - intros HeB. apply Forall_app. split; [by apply HB1|by apply HB2].
Qed.

End LogFacts.

Section ParserLogs.

Variable path_name : string -> string.
Variable path_join : string -> string -> string.
Variable globMatch : list string -> string -> bool.
Variable mdFile2NodeProps : string -> string + INoteOpts.
Variable root : string.

Local Abbreviation toNode := (toNode path_join mdFile2NodeProps root).
Local Abbreviation level_entry :=
  (level_entry path_join globMatch mdFile2NodeProps root).
Local Abbreviation level_map :=
  (level_map path_join globMatch mdFile2NodeProps root).
Local Abbreviation parse_levels :=
  (parse_levels path_join globMatch mdFile2NodeProps root).
Local Abbreviation getFileMeta := (getFileMeta path_name).
Local Abbreviation parse :=
  (parse path_name path_join globMatch mdFile2NodeProps root).

Implicit Types (s : PState) (h : list Note) (ent : FileMeta).

Local Abbreviation entry_for := (entry_for path_join mdFile2NodeProps root).
Local Abbreviation entry_in := (entry_in path_join mdFile2NodeProps root).
Local Abbreviation entry_listed :=
  (entry_listed path_name path_join mdFile2NodeProps root).

Lemma toNode_logs ent parents o s eE :
  JS.defaults (t_isRoot o) false = true
  \/ eE = JS.defaults (t_errorOnEmpty o) true ->
  logs (entry_for ent) eE (JS.defaults (t_errorOnBadParse o) true) s
    (toNode ent parents o s).
Proof.
  intros Hmode.
  destruct (mdFile2NodeProps (path_join root (fpath ent))) as [err|props] eqn:Hmd.
  { rewrite (toNode_bad_parse _ _ _ _ _ _ _ _ Hmd).
    destruct (JS.defaults (t_errorOnBadParse o) true) eqn:HB.
    - by apply logs_silent.
    - exists [BAD_PARSE ent err], []. simpl. rewrite app_nil_r.
      split; [done|]. split; [done|]. split; [by repeat constructor|].
      split; [by intros m ?%elem_of_nil|].
      split; [intros _; split; [done|left; by repeat constructor]|].
      split; done. }
  rewrite (toNode_parsed _ _ _ _ _ _ _ _ Hmd). cbv zeta.
  destruct (find_parent _ _ _) as [[p|]|e] eqn:Hfind.
  - by apply logs_silent.
  - destruct (JS.defaults (t_isRoot o) false) eqn:HR.
    { by apply logs_silent. }
    destruct Hmode as [?| ->]; [done|].
    destruct (JS.defaults (t_errorOnEmpty o) true) eqn:HE.
    + exists [NO_PARENT_PATH ent (dirName (prefix ent))], []. simpl.
      rewrite app_nil_r. split; [done|]. split; [done|].
      split; [repeat constructor; by eexists|].
      split; [by intros m ?%elem_of_nil|].
      split; [|split; [done|intros _; by repeat constructor]].
      intros _. split; [done|]. right.
      exists [], (NO_PARENT_PATH ent (dirName (prefix ent))).
      by repeat split.
    + exists [NO_PARENT_PATH ent (dirName (prefix ent))], []. simpl.
      rewrite app_nil_r. split; [done|]. split; [done|].
      split; [repeat constructor; by eexists|].
      split; [by intros m ?%elem_of_nil|].
      split; [done|]. split; [done|]. intros _. by repeat constructor.
  - apply logs_silent; [done..|].
    intros msg [= ->]. clear -Hfind.
    induction parents as [|[q|] parents IH]; simpl in Hfind; [done| |done].
    destruct (path (heap s) q); [|done].
    destruct (String.eqb _ _); [done|auto].
Qed.

Lemma createStubNotes_fields from to s res s' :
  createStubNotes from to s = (res, s') ->
  errors s' = errors s /\ missing s' = missing s
  /\ forall msg, res <> Throw (NoParent msg).
Proof.
  unfold createStubNotes. intros Hrun.
  destruct from as [f|], to as [t|]; try (by injection Hrun as <- <-).
  unfold mbind, M_bind, get_heap in Hrun.
  destruct (heap s !! f) as [fromN|]; [|by injection Hrun as <- <-].
  destruct (heap s !! t) as [toN|]; [|by injection Hrun as <- <-].
  match type of Hrun with context [stub_chain ?sp f ?parts s] =>
    destruct (stub_chain_shape parts sp f s)
      as (last & stubs & s1 & Heq & Hlen & Hst);
    destruct (stub_chain_fields _ _ _ _ _ _ Heq) as [He Hm];
    rewrite Heq in Hrun
  end.
  simpl in Hrun. injection Hrun as <- <-. simpl. by repeat split.
Qed.

Lemma index_nodes_no_parent nodes : forall (d : gmap string (option addr)) s msg,
  (index_nodes nodes d s).1 <> Throw (NoParent msg).
Proof.
  induction nodes as [|n nodes IH]; intros d s msg; [done|].
  simpl. unfold mbind, M_bind, fname_key.
  destruct (heap s !! n) as [nd|]; [apply IH|done].
Qed.

Lemma index_nodes_logs ok eE eB nodes (d : gmap string (option addr)) s :
  logs ok eE eB s (index_nodes nodes d s).
Proof.
  pose proof (index_nodes_state nodes d s) as Hs.
  pose proof (index_nodes_no_parent nodes d s) as Hn.
  destruct (index_nodes nodes d s) as [r s']. simpl in *. subst s'.
  by apply logs_silent.
Qed.

Lemma level_entry_logs opts prev ent (d : gmap string (option addr)) s :
  logs (entry_for ent) (p_errorOnEmpty opts) (p_errorOnBadParse opts) s
    (level_entry opts prev ent d s).
Proof.
  unfold FileParser.level_entry.
  destruct (globMatch _ _); [by apply logs_silent|].
  destruct (mdFile2NodeProps (path_join root (fpath ent))) as [err|props] eqn:Hmd.
  { apply logs_bind; [by apply toNode_logs; right|].
    intros [node m] s1. rewrite (toNode_bad_parse _ _ _ _ _ _ _ _ Hmd). simpl.
    destruct (p_errorOnBadParse opts); [done|]. intros [= <- <- <-].
    by apply logs_silent. }
  unfold mbind, M_bind.
  rewrite (toNode_parsed _ _ _ _ _ _ _ _ Hmd). cbv zeta.
  destruct (find_parent _ _ _) as [[p|]|e] eqn:Hfind.
  - by apply logs_silent.
  - simpl. destruct (p_errorOnEmpty opts) eqn:HE.
    + exists [NO_PARENT_PATH ent (dirName (prefix ent))], []. simpl.
      rewrite app_nil_r. split; [done|]. split; [done|].
      split; [repeat constructor; by eexists|].
      split; [by intros m ?%elem_of_nil|].
      split; [|split; [done|intros _; by repeat constructor]].
      intros _. split; [done|]. right.
      exists [], (NO_PARENT_PATH ent (dirName (prefix ent))).
      by repeat split.
    + set (msg := NO_PARENT_PATH ent (dirName (prefix ent))).
      set (s1 := with_heap _ (with_error msg s)).
      assert (Hbase : forall (r : Outcome (option addr * gmap string (option addr))) s2 ms,
                errors s2 = errors s1 -> missing s2 = missing s ++ ms ->
                (forall m, m ∈ ms -> m = dirName (prefix ent) /\ m <> EmptyString) ->
                (forall msg', r <> Throw (NoParent msg')) ->
                logs (entry_for ent) false (p_errorOnBadParse opts) s (r, s2)).
      { intros r s2 ms He Hm Hms Hr. exists [msg], ms. simpl.
        split; [by rewrite He|]. split; [done|].
        split; [repeat constructor; by eexists|].
        split; [|split; [done|split; [done|intros _; by repeat constructor]]].
        intros m Hin. destruct (Hms _ Hin) as [-> Hne]. split; [done|].
        exists ent. by left. }
      cbv beta iota.
      change ((Some (length (heap s)), Some (dirName (prefix ent))).2)
        with (Some (dirName (prefix ent))).
      change ((Some (length (heap s)), Some (dirName (prefix ent))).1)
        with (Some (length (heap s))).
      destruct (JS.truthy (Some (dirName (prefix ent)))) eqn:Htr.
      2:{ apply (Hbase _ _ []); [done|by rewrite app_nil_r| |done].
          by intros m ?%elem_of_nil. }
      assert (Hne : dirName (prefix ent) <> EmptyString).
      { simpl in Htr. by destruct (String.eqb_spec (dirName (prefix ent)) EmptyString). }
      unfold get_heap. cbv beta iota.
      match goal with
      | |- context [match ?x with Some _ => _ | None => _ end] =>
          destruct x as [nd|]
      end.
      2:{ apply (Hbase _ _ []); [done|by rewrite app_nil_r| |done].
          by intros m ?%elem_of_nil. }
      destruct (createStubNotes _ _ s1) as [[stubs|e] s2] eqn:Hcs;
        destruct (createStubNotes_fields _ _ _ _ _ Hcs) as (He2 & Hm2 & Hn2).
      2:{ apply (Hbase _ _ []); [done|by rewrite Hm2, app_nil_r| |].
          - by intros m ?%elem_of_nil.
          - intros msg' [= ->]. by apply (Hn2 msg'). }
      pose proof (index_nodes_state stubs d s2) as Hs3.
      pose proof (index_nodes_no_parent stubs d s2) as Hn3.
      destruct (index_nodes stubs d s2) as [[d1|e] s3]; simpl in Hs3, Hn3; subst s3.
      2:{ apply (Hbase _ _ []); [done|by rewrite Hm2, app_nil_r| |].
          - by intros m ?%elem_of_nil.
          - intros msg' [= ->]. by apply (Hn3 msg'). }
      simpl.
      apply (Hbase _ _ (if bool_decide (dirName (prefix ent) ∈ missing s2)
                        then [] else [dirName (prefix ent)])).
      * done.
      * simpl. rewrite Hm2. simpl. case_bool_decide; [by rewrite app_nil_r|done].
      * intros m. case_bool_decide; [by intros ?%elem_of_nil|].
        by intros ->%list_elem_of_singleton.
      * done.
  - apply logs_silent; [done..|].
    intros msg [= ->]. clear -Hfind.
    induction prev as [|[q|] prev IH]; simpl in Hfind; [done| |done].
    destruct (path (heap s) q); [|done].
    destruct (String.eqb _ _); [done|auto].
Qed.

Lemma level_map_logs opts prev ents :
  forall (d : gmap string (option addr)) s,
  logs (entry_in ents) (p_errorOnEmpty opts) (p_errorOnBadParse opts) s
    (level_map opts prev ents d s).
Proof.
  induction ents as [|ent ents IH]; intros d s; [by apply logs_silent|].
  simpl. apply logs_bind.
  { eapply logs_weaken; [|apply level_entry_logs].
    intros m Hm. exists ent. split; [by left|done]. }
  intros r s1 _. apply logs_bind.
  { eapply logs_weaken; [|apply IH].
    intros m (e & He & Hm). exists e. split; [by right|done]. }
  intros rs s2 _. by apply logs_silent.
Qed.

Lemma meta_listed data lvl metas ent :
  getFileMeta data !! lvl = Some metas -> ent ∈ metas ->
  exists f, f ∈ data /\ ent = {| prefix := path_name f; fpath := f |}.
Proof.
  rewrite getFileMeta_lookup.
  destruct (filter _ data) as [|g l] eqn:Hf; [done|].
  rewrite <- Hf. intros [= <-] (f & -> & Hin)%list_elem_of_fmap.
  apply list_elem_of_filter in Hin as [_ Hin].
  by exists f.
Qed.

Lemma entry_in_listed data lvl m :
  entry_in (default [] (getFileMeta data !! lvl)) m -> entry_listed data m.
Proof.
  intros (ent & Hin & Hm).
  destruct (getFileMeta data !! lvl) as [metas|] eqn:Hl;
    [|by apply elem_of_nil in Hin].
  destruct (meta_listed _ _ _ _ Hl Hin) as (f & Hf & ->). by exists f.
Qed.

Lemma parse_levels_logs opts data n :
  forall lvl prev (d : gmap string (option addr)) s,
  logs (entry_listed data) (p_errorOnEmpty opts) (p_errorOnBadParse opts) s
    (parse_levels opts (getFileMeta data) n lvl prev d s).
Proof.
  induction n as [|n IH]; intros lvl prev d s; [by apply logs_silent|].
  simpl. apply logs_bind.
  { eapply logs_weaken; [apply entry_in_listed|apply level_map_logs]. }
  intros r s1 _. apply logs_bind; [apply index_nodes_logs|].
  intros d1 s2 _. apply IH.
Qed.

Lemma domain_roots_logs eE eB ents : forall s,
  logs (entry_in ents) eE eB s
    (mapM (fun ent =>
             r ← toNode ent []
                   {| t_errorOnEmpty := None; t_isRoot := Some true;
                      t_errorOnBadParse := None |};
             mret r.1) ents s).
Proof.
  induction ents as [|ent ents IH]; intros s; [by apply logs_silent|].
  simpl. apply logs_bind.
  { apply logs_bind.
    - apply logs_eB. eapply logs_weaken; [|apply toNode_logs; by left].
      intros m Hm. exists ent. split; [by left|done].
    - intros r s1 _. by apply logs_silent. }
  intros x s1 _. apply logs_bind.
  { eapply logs_weaken; [|apply IH].
    intros m (e & He & Hm). exists e. split; [by right|done]. }
  intros xs s2 _. by apply logs_silent.
Qed.

Lemma attach_domains_fields rootNode nodes :
  forall (d : gmap string (option addr)) s,
  errors (attach_domains rootNode nodes d s).2 = errors s
  /\ missing (attach_domains rootNode nodes d s).2 = missing s
  /\ forall msg, (attach_domains rootNode nodes d s).1 <> Throw (NoParent msg).
Proof.
  induction nodes as [|n nodes IH]; intros d s; [done|].
  simpl. unfold mbind at 1. unfold M_bind at 1.
  destruct rootNode as [r|], n as [a|]; simpl; try done.
  unfold mbind at 1. unfold M_bind at 1. unfold get_heap, put_heap.
  unfold mbind, M_bind, fname_key. simpl.
  destruct (addChild r a (heap s) !! a) as [nd|]; simpl; [|done].
  apply (IH _ (with_heap (addChild r a (heap s)) s)).
Qed.

Lemma parse_logs opts data s :
  logs (entry_listed data) (p_errorOnEmpty opts) (p_errorOnBadParse opts) s
    (parse opts data s).
Proof.
  unfold FileParser.parse. case_bool_decide; [by apply logs_silent|].
  destruct (getFileMeta data !! 1) as [lvl1|] eqn:Hl1; [|by apply logs_silent].
  destruct (find _ lvl1) as [rootMeta|] eqn:Hfind; [|by apply logs_silent].
  apply find_some in Hfind as [Hin _]. apply list_elem_of_In in Hin.
  destruct (meta_listed _ _ _ _ Hl1 Hin) as (f & Hf & ->).
  apply logs_bind.
  { eapply logs_weaken; [|apply toNode_logs; by left].
    intros m Hm. by exists f. }
  intros r s1 _. apply logs_bind.
  { eapply logs_weaken; [|apply domain_roots_logs].
    intros m (ent & Hent & Hm).
    apply list_elem_of_In, filter_In in Hent as [Hent _].
    apply list_elem_of_In in Hent.
    destruct (meta_listed _ _ _ _ Hl1 Hent) as (g & Hg & ->). by exists g. }
  intros prevNodes s2 _. apply logs_bind.
  { pose proof (attach_domains_fields r.1 prevNodes (<["root" := r.1]> ∅) s2)
      as (He & Hm & Hn).
    destruct (attach_domains _ _ _ s2) as [res s3]. by apply logs_silent. }
  intros d s3 _. apply logs_bind; [apply parse_levels_logs|].
  intros d' s4 _. by apply logs_silent.
Qed.

(** X7.  The two logs after a run of [parse], returned or thrown.
    [errors] and [missing] are only appended to.  Every new entry is about
    a listed file: a [BAD_PARSE] entry about a file on which
    [mdFile2NodeProps] throws, and only with [errorOnBadParse] unset; a
    [NO_PARENT_PATH] entry about a file that parses, with the [dirName] of
    its name as parent path.  Every new missing path is a non-empty string
    and the parent path of a [NO_PARENT_PATH] entry of this run, and there
    is none unless [errorOnEmpty] is unset.  With [errorOnEmpty] unset the
    run never throws a [NO_PARENT_PATH] error. *)
Theorem parse_logs_sound opts data s :
  exists es ms,
    errors (parse opts data s).2 = errors s ++ es
    /\ missing (parse opts data s).2 = missing s ++ ms
    /\ Forall (fun m =>
                 exists f,
                   f ∈ data
                   /\ match m with
                      | BAD_PARSE ent err =>
                          ent = {| prefix := path_name f; fpath := f |}
                          /\ mdFile2NodeProps (path_join root f) = inl err
                          /\ p_errorOnBadParse opts = false
                      | NO_PARENT_PATH ent parentPath =>
                          ent = {| prefix := path_name f; fpath := f |}
                          /\ parentPath = dirName (path_name f)
                          /\ exists props,
                               mdFile2NodeProps (path_join root f) = inr props
                      end) es
    /\ (forall m, m ∈ ms ->
          m <> EmptyString
          /\ p_errorOnEmpty opts = false
          /\ exists f, f ∈ data
                       /\ m = dirName (path_name f)
                       /\ NO_PARENT_PATH {| prefix := path_name f; fpath := f |} m
                          ∈ es)
    /\ (p_errorOnEmpty opts = false ->
        forall msg, (parse opts data s).1 <> Throw (NoParent msg)).
Proof.
  destruct (parse_logs opts data s)
    as (es & ms & He & Hm & Hall & Hms & HE & HN & HB).
  exists es, ms. split; [done|]. split; [done|]. split; [|split; [|done]].
  - apply Forall_forall. intros m Hin.
    rewrite Forall_forall in Hall. destruct (Hall m Hin) as (f & Hf & Hm').
    exists f. split; [done|]. destruct m as [ent err|ent pp]; simpl in Hm'.
    + destruct Hm' as [-> Hmd]. split; [done|]. split; [done|].
      destruct (p_errorOnBadParse opts) eqn:HeB; [|done].
      specialize (HB eq_refl). rewrite Forall_forall in HB.
      by specialize (HB _ Hin).
    + destruct Hm' as (-> & -> & Hp). done.
  - intros m Hin. destruct (Hms m Hin) as [Hne [ent Hent]].
    split; [done|]. split.
    { destruct (p_errorOnEmpty opts); [|done].
      destruct (HE eq_refl) as [-> _]. by apply elem_of_nil in Hin. }
    rewrite Forall_forall in Hall.
    destruct (Hall _ Hent) as (f & Hf & -> & Hpp & _). simpl in Hpp.
    exists f. by subst m.
Qed.

(** X8.  With [errorOnEmpty] set, as it is by default, [parse] adds nothing
    to [missing], and it records a [NO_PARENT_PATH] entry only as the last
    entry of a run that throws it.  With [errorOnBadParse] set as well, a
    run that returns leaves [errors], and so [report()], as they were, and
    a run that throws has recorded nothing, or the one entry it throws. *)
Theorem parse_strict opts data s :
  p_errorOnEmpty opts = true ->
  missing (parse opts data s).2 = missing s
  /\ (exists es,
        errors (parse opts data s).2 = errors s ++ es
        /\ match (parse opts data s).1 with
           | Ok _ => Forall (fun m => is_no_parent m = false) es
           | Throw e =>
               Forall (fun m => is_no_parent m = false) es
               \/ exists es0 ent,
                    es = es0 ++ [NO_PARENT_PATH ent (dirName (prefix ent))]
                    /\ Forall (fun m => is_no_parent m = false) es0
                    /\ e = NoParent
                             (NO_PARENT_PATH ent (dirName (prefix ent)))
           end)
  /\ (p_errorOnBadParse opts = true ->
      match (parse opts data s).1 with
      | Ok _ =>
          errors (parse opts data s).2 = errors s
          /\ report (parse opts data s).2 = report s
      | Throw e =>
          errors (parse opts data s).2 = errors s
          \/ exists msg,
               e = NoParent msg
               /\ errors (parse opts data s).2 = errors s ++ [msg]
      end).
Proof.
  intros HeE.
  destruct (parse_logs opts data s)
    as (es & ms & He & Hm & Hall & Hms & HE & HN & HB).
  destruct (HE HeE) as [-> Hcase]. rewrite app_nil_r in Hm.
  split; [done|]. split.
  - exists es. split; [done|].
    destruct Hcase as [Hno|(es0 & msg & -> & H0 & Hmsg & Hr)].
    + destruct (parse opts data s).1; [done|by left].
    + rewrite Hr. right.
      rewrite Forall_forall in Hall.
      destruct msg as [ent err|ent pp]; [done|].
      destruct (Hall (NO_PARENT_PATH ent pp)) as (f & _ & -> & -> & _).
      { apply elem_of_app. right. by left. }
      by exists es0, {| prefix := path_name f; fpath := f |}.
  - intros HeB. specialize (HB HeB).
    assert (Hnil : forall l, Forall (fun m => is_no_parent m = false) l ->
                             Forall (fun m => is_no_parent m = true) l -> l = []).
    { intros [|m l] H1 H2; [done|].
      apply Forall_cons in H1 as [H1 _]. apply Forall_cons in H2 as [H2 _].
      congruence. }
    destruct Hcase as [Hno|(es0 & msg & -> & H0 & Hmsg & Hr)].
    + rewrite (Hnil _ Hno HB), app_nil_r in He.
      destruct (parse opts data s).1; [|by left].
      split; [done|]. unfold report. by rewrite He, Hm.
    + rewrite Hr. right. exists msg. split; [done|].
      apply Forall_app in HB as [HB _]. by rewrite (Hnil _ H0 HB) in He.
Qed.

End ParserLogs.

Section FrameFacts.

Implicit Types (s : PState) (h : list Note) (n : Note) (a p c : addr).

Lemma same_fields_refl n : same_fields n n.
Proof. done. Qed.

Lemma same_fields_trans n1 n2 n3 :
  same_fields n1 n2 -> same_fields n2 n3 -> same_fields n1 n3.
Proof. intros (?&?&?) (?&?&?). repeat split; congruence. Qed.

Lemma same_fields_addChild_at p c a n : same_fields n (addChild_at p c a n).
Proof.
  unfold same_fields, addChild_at. by repeat case_bool_decide.
Qed.

Lemma frame_refl lo hi h : frame lo hi h h.
Proof.
  split; [done|]. split; [done|]. intros a n _ Ha. exists n.
  split; [done|]. split; [done|]. split; [done|]. exists []. by rewrite app_nil_r.
Qed.

Lemma frame_trans lo hi h1 h2 h3 :
  frame lo hi h1 h2 -> frame lo hi h2 h3 -> frame lo hi h1 h3.
Proof.
  intros (Hl1 & Hu1 & Hk1) (Hl2 & Hu2 & Hk2).
  split; [lia|]. split.
  - intros a Ha. by rewrite Hu2, Hu1.
  - intros a n Ha Hn.
    destruct (Hk1 _ _ Ha Hn) as (n' & Hn' & Hf' & Hp' & cs' & Hc').
    destruct (Hk2 _ _ Ha Hn') as (n'' & Hn'' & Hf'' & Hp'' & cs'' & Hc'').
    exists n''. split; [done|]. split; [by eapply same_fields_trans|].
    split; [congruence|]. exists (cs' ++ cs''). by rewrite Hc'', Hc', app_assoc.
Qed.

Lemma frame_alloc lo hi h (x : Note) :
  lo <= length h -> frame lo hi h (h ++ [x]).
Proof.
  intros Hlo. split; [rewrite length_app; simpl; lia|]. split.
  - intros a Ha. apply lookup_app_l. lia.
  - intros a n _ Hn. exists n. split; [by apply lookup_app_l_Some|].
    split; [done|]. split; [done|]. exists []. by rewrite app_nil_r.
Qed.

Lemma frame_addChild lo hi h p c :
  lo <= p -> lo <= c -> hi <= c -> frame lo hi h (addChild p c h).
Proof.
  intros Hp Hc Hhi. split; [by rewrite length_addChild|]. split.
  - intros a Ha. rewrite lookup_addChild. destruct (h !! a) as [n|]; [|done].
    simpl. f_equal. unfold addChild_at.
    rewrite !bool_decide_eq_false_2 by lia. done.
  - intros a n Ha Hn. exists (addChild_at p c a n).
    rewrite lookup_addChild, Hn. split; [done|].
    split; [apply same_fields_addChild_at|].
    rewrite parent_addChild_at, children_addChild_at.
    rewrite (bool_decide_eq_false_2 (a = c)) by lia. split; [done|].
    case_bool_decide; [by eexists|]. exists []. by rewrite app_nil_r.
Qed.

Lemma frame_length lo hi h h' : frame lo hi h h' -> length h <= length h'.
Proof. by intros [? _]. Qed.

End FrameFacts.

Section StubFrame.

Implicit Types (s : PState) (h : list Note).

Lemma stub_chain_frame lo hi parts : forall stubPath parent s,
  lo <= parent -> lo <= length (heap s) -> hi <= length (heap s) ->
  exists last stubs s',
    stub_chain stubPath parent parts s = (Ok (last, stubs), s')
    /\ frame lo hi (heap s) (heap s') /\ lo <= last.
Proof.
  induction parts as [|part rest IH]; intros stubPath parent s Hp Hlo Hhi.
  - exists parent, [], s. split; [done|]. split; [apply frame_refl|done].
  - set (sp := if String.eqb stubPath EmptyString then part
               else stubPath +:+ "." +:+ part).
    set (k := length (heap s)).
    set (s1 := with_heap (addChild parent k
                            (heap s ++ [Note_new (stub_props sp part)])) s).
    assert (Hf1 : frame lo hi (heap s) (heap s1)).
    { eapply frame_trans; [by apply (frame_alloc lo hi _ (Note_new (stub_props sp part)))|].
      apply frame_addChild; unfold k; lia. }
    assert (Hlen1 : length (heap s1) = S k).
    { simpl. rewrite length_addChild, length_app. simpl. lia. }
    destruct (IH sp k s1) as (last & stubs & s' & Heq & Hf' & Hlast);
      [unfold k; lia|lia|lia|].
    exists last, (k :: stubs), s'.
    split.
    { change (stub_chain stubPath parent (part :: rest) s)
        with (match stub_chain sp k rest s1 with
              | (Ok r, s2) => (Ok (r.1, k :: r.2), s2)
              | (Throw e, s2) => (Throw e, s2)
              end).
      by rewrite Heq. }
    split; [by eapply frame_trans|done].
Qed.

Lemma createStubNotes_frame lo hi from to s :
  above lo from -> above lo to -> above hi to ->
  lo <= length (heap s) -> hi <= length (heap s) ->
  frame lo hi (heap s) (heap (createStubNotes from to s).2).
Proof.
  intros Hfrom Hto Hto' Hlo Hhi. unfold createStubNotes.
  destruct from as [f|], to as [t|]; try apply frame_refl.
  unfold mbind, M_bind, get_heap.
  destruct (heap s !! f) as [fromN|]; [|apply frame_refl].
  destruct (heap s !! t) as [toN|]; [|apply frame_refl].
  match goal with |- context [stub_chain ?sp f ?parts s] =>
    destruct (stub_chain_frame lo hi parts sp f s)
      as (last & stubs & s1 & Heq & Hf1 & Hlast);
    [by apply Hfrom|done|done|rewrite Heq]
  end.
  simpl. eapply frame_trans; [done|].
  apply frame_addChild; [done|by apply Hto|by apply Hto'].
Qed.

Lemma findClosestParent_segs_value rsegs (d : gmap string (option addr)) c :
  findClosestParent_segs rsegs d = Some c -> exists k, d !! k = Some (Some c).
Proof.
  induction rsegs as [|x rest IH]; simpl.
  - destruct (d !! "root") as [[r|]|] eqn:Hr; simpl; [|done..].
    intros [= <-]. by exists "root".
  - destruct (String.eqb _ _).
    + destruct (d !! "root") as [[r|]|] eqn:Hr; simpl; [|done..].
      intros [= <-]. by exists "root".
    + destruct (d !! _) as [[n|]|] eqn:Hn; [|done..].
      intros [= <-]. by eexists.
Qed.

Lemma findClosestParent_value fpath (d : gmap string (option addr)) c :
  findClosestParent fpath d = Some c -> exists k, d !! k = Some (Some c).
Proof. apply findClosestParent_segs_value. Qed.

End StubFrame.

Section ParserFrame.

Variable path_name : string -> string.
Variable path_join : string -> string -> string.
Variable globMatch : list string -> string -> bool.
Variable mdFile2NodeProps : string -> string + INoteOpts.
Variable root : string.

Local Abbreviation toNode := (toNode path_join mdFile2NodeProps root).
Local Abbreviation level_entry :=
  (level_entry path_join globMatch mdFile2NodeProps root).
Local Abbreviation level_map :=
  (level_map path_join globMatch mdFile2NodeProps root).
Local Abbreviation parse_levels :=
  (parse_levels path_join globMatch mdFile2NodeProps root).
Local Abbreviation getFileMeta := (getFileMeta path_name).
Local Abbreviation parse :=
  (parse path_name path_join globMatch mdFile2NodeProps root).

Implicit Types (s : PState) (h : list Note) (ent : FileMeta).

Lemma toNode_frame lo hi ent parents o s :
  lo <= length (heap s) -> hi <= length (heap s) ->
  Forall (above lo) parents ->
  frame lo hi (heap s) (heap (toNode ent parents o s).2).
Proof.
  intros Hlo Hhi Hpar.
  destruct (mdFile2NodeProps (path_join root (fpath ent))) as [err|props] eqn:Hmd.
  { rewrite (toNode_bad_parse _ _ _ _ _ _ _ _ Hmd).
    destruct (JS.defaults _ _); apply frame_refl. }
  rewrite (toNode_parsed _ _ _ _ _ _ _ _ Hmd). cbv zeta.
  destruct (find_parent _ _ _) as [[p|]|e] eqn:Hfind; simpl.
  - apply find_parent_Some in Hfind as [Hin _].
    rewrite Forall_forall in Hpar. specialize (Hpar _ Hin p eq_refl).
    eapply frame_trans; [by apply frame_alloc|].
    by apply frame_addChild.
  - destruct (JS.defaults (t_isRoot o) false); simpl; [by apply frame_alloc|].
    destruct (JS.defaults (t_errorOnEmpty o) true); simpl;
      [apply frame_refl|by apply frame_alloc].
  - apply frame_refl.
Qed.

Lemma level_entry_frame lo hi opts prev ent (d : gmap string (option addr)) s :
  lo <= length (heap s) -> hi <= length (heap s) ->
  Forall (above lo) prev -> index_above lo d ->
  frame lo hi (heap s) (heap (level_entry opts prev ent d s).2)
  /\ forall r, (level_entry opts prev ent d s).1 = Ok r ->
       above lo r.1 /\ index_above lo r.2.
Proof.
  intros Hlo Hhi Hprev Hd.
  destruct (level_entry opts prev ent d s) as [res s'] eqn:Hrun. simpl.
  split.
  2:{ intros r ->.
      destruct (level_entry_node _ _ _ _ _ _ _ _ _ _ _ Hrun) as (Hlen & Hnode & Hnew).
      split.
      - intros a Ha. destruct (Hnode _ Ha) as [-> _]. done.
      - intros k a Hk. destruct (Hnew _ _ Hk) as [Hold|Hr]; [by eapply Hd|lia]. }
  unfold FileParser.level_entry in Hrun.
  destruct (globMatch _ _); [injection Hrun as <- <-; apply frame_refl|].
  unfold mbind, M_bind in Hrun.
  match type of Hrun with context [toNode ent prev ?o s] =>
    pose proof (toNode_frame lo hi ent prev o s Hlo Hhi Hprev) as Hf1;
    destruct (toNode ent prev o s) as [[[node missing]|e] s1] eqn:Ht
  end; simpl in Hf1; [|by injection Hrun as <- <-].
  destruct (toNode_shape _ _ _ _ _ _ _ _ _ Ht) as (Hlen1 & Hnone & Hsome).
  cbv beta iota in Hrun.
  change ((node, missing).1) with node in Hrun.
  change ((node, missing).2) with missing in Hrun.
  destruct (JS.truthy missing) eqn:Htr; [|by injection Hrun as <- <-].
  destruct node as [n|].
  2:{ rewrite (Hnone _ eq_refl) in Htr. done. }
  destruct (Hsome _ _ eq_refl) as (-> & Hlt).
  unfold get_heap in Hrun. cbv beta iota in Hrun.
  match type of Hrun with
  | context [match ?x with Some _ => _ | None => _ end] =>
      destruct x as [nd|]; [|by injection Hrun as <- <-]
  end.
  match type of Hrun with context [createStubNotes ?c ?t s1] =>
    pose proof (createStubNotes_frame lo hi c t s1) as Hf2;
    destruct (createStubNotes c t s1) as [[stubs|e] s2] eqn:Hcs
  end; simpl in Hf2.
  2:{ injection Hrun as <- <-. eapply frame_trans; [done|]. apply Hf2.
      - intros c Hc. apply findClosestParent_value in Hc as [k Hk].
        by eapply Hd.
      - by intros a [= <-].
      - by intros a [= <-].
      - lia.
      - lia. }
  pose proof (index_nodes_state stubs d s2) as Hs3.
  destruct (index_nodes stubs d s2) as [[d1|e] s3]; simpl in Hs3; subst s3;
    simpl in Hrun; injection Hrun as <- <-; simpl;
    (eapply frame_trans; [done|]); apply Hf2;
    try (by intros a [= <-]); try lia;
    intros c Hc; apply findClosestParent_value in Hc as [k Hk]; by eapply Hd.
Qed.

Lemma level_map_frame lo hi opts prev ents :
  forall (d : gmap string (option addr)) s,
  lo <= length (heap s) -> hi <= length (heap s) ->
  Forall (above lo) prev -> index_above lo d ->
  frame lo hi (heap s) (heap (level_map opts prev ents d s).2)
  /\ forall r, (level_map opts prev ents d s).1 = Ok r ->
       Forall (above lo) r.1 /\ index_above lo r.2.
Proof.
  induction ents as [|ent ents IH]; intros d s Hlo Hhi Hprev Hd.
  { simpl. split; [apply frame_refl|]. intros r [= <-]. by split. }
  simpl. unfold mbind, M_bind.
  destruct (level_entry_frame lo hi opts prev ent d s Hlo Hhi Hprev Hd)
    as [Hf1 Hr1].
  destruct (level_entry opts prev ent d s) as [[r1|e] s1]; simpl in *;
    [|split; [done|by intros ? [=]]].
  destruct (Hr1 _ eq_refl) as [Ha1 Hd1].
  pose proof (frame_length _ _ _ _ Hf1) as Hlen1.
  destruct (IH r1.2 s1 ltac:(lia) ltac:(lia) Hprev Hd1) as [Hf2 Hr2].
  destruct (level_map opts prev ents r1.2 s1) as [[rs|e] s2]; simpl in *.
  - split; [by eapply frame_trans|]. intros r [= <-]. simpl.
    destruct (Hr2 _ eq_refl) as [Ha2 Hd2]. split; [by constructor|done].
  - split; [by eapply frame_trans|]. by intros ? [=].
Qed.

Lemma index_nodes_above lo nodes :
  forall (d d' : gmap string (option addr)) s s',
  index_nodes nodes d s = (Ok d', s') ->
  index_above lo d -> Forall (fun a => lo <= a) nodes -> index_above lo d'.
Proof.
  intros d d' s s' Hrun Hd Hall k a Hk.
  destruct (index_nodes_values _ _ _ _ _ _ _ Hrun Hk) as [Hold|Hin];
    [by eapply Hd|].
  rewrite Forall_forall in Hall. by apply Hall.
Qed.

Lemma above_omap lo (l : list (option addr)) :
  Forall (above lo) l -> Forall (fun a => lo <= a) (omap (fun x => x) l).
Proof.
  induction 1 as [|[a|] l Ha _ IH]; simpl; [constructor| |done].
  constructor; [by apply Ha|done].
Qed.

Lemma above_fmap_Some lo (l : list addr) :
  Forall (fun a => lo <= a) l -> Forall (above lo) (Some <$> l).
Proof.
  induction 1 as [|a l Ha _ IH]; simpl; constructor; [|done].
  by intros ? [= <-].
Qed.

Lemma parse_levels_frame lo hi opts fileMetaDict n :
  forall lvl prev (d : gmap string (option addr)) s,
  lo <= length (heap s) -> hi <= length (heap s) ->
  Forall (above lo) prev -> index_above lo d ->
  frame lo hi (heap s) (heap (parse_levels opts fileMetaDict n lvl prev d s).2)
  /\ forall d', (parse_levels opts fileMetaDict n lvl prev d s).1 = Ok d' ->
       index_above lo d'.
Proof.
  induction n as [|n IH]; intros lvl prev d s Hlo Hhi Hprev Hd.
  { simpl. split; [apply frame_refl|]. by intros d' [= <-]. }
  simpl. unfold mbind, M_bind.
  destruct (level_map_frame lo hi opts prev (default [] (fileMetaDict !! lvl))
              d s Hlo Hhi Hprev Hd) as [Hf1 Hr1].
  destruct (level_map opts prev _ d s) as [[r|e] s1]; simpl in *;
    [|split; [done|by intros ? [=]]].
  destruct (Hr1 _ eq_refl) as [Ha1 Hd1].
  pose proof (frame_length _ _ _ _ Hf1) as Hlen1.
  pose proof (index_nodes_state (omap (fun n => n) r.1) r.2 s1) as Hi.
  destruct (index_nodes _ r.2 s1) as [[d1|e] s2] eqn:Hrun; simpl in Hi; subst s2;
    simpl; [|split; [done|by intros ? [=]]].
  destruct (IH (S lvl) (Some <$> omap (fun n => n) r.1) d1 s1)
    as [Hf2 Hr2]; [lia|lia| | |].
  - by apply above_fmap_Some, above_omap.
  - eapply index_nodes_above; [exact Hrun|done|by apply above_omap].
  - split; [by eapply frame_trans|done].
Qed.

(** *** The first level *)

Lemma frame_app lo hi h (l : list Note) :
  lo <= length h -> frame lo hi h (h ++ l).
Proof.
  intros Hlo. split; [rewrite length_app; lia|]. split.
  - intros a Ha. apply lookup_app_l. lia.
  - intros a n _ Hn. exists n. split; [by apply lookup_app_l_Some|].
    split; [done|]. split; [done|]. exists []. by rewrite app_nil_r.
Qed.

(** The notes of the first level are allocated one after the other, in the
    order of the listing, and nothing else is done. *)
Lemma domain_roots_run ents : forall s res s',
  mapM (fun ent =>
          r ← toNode ent []
                {| t_errorOnEmpty := None; t_isRoot := Some true;
                   t_errorOnBadParse := None |};
          mret r.1) ents s = (res, s') ->
  exists propss,
    heap s' = heap s ++ ((fun p => Note_new (with_parent None p)) <$> propss)
    /\ errors s' = errors s /\ missing s' = missing s
    /\ match res with
       | Ok nodes =>
           nodes = Some <$> seq (length (heap s)) (length ents)
           /\ Forall2 (fun ent props =>
                         mdFile2NodeProps (path_join root (fpath ent))
                         = inr props) ents propss
       | Throw e =>
           exists pre ent post err,
             ents = pre ++ ent :: post
             /\ Forall2 (fun ent props =>
                           mdFile2NodeProps (path_join root (fpath ent))
                           = inr props) pre propss
             /\ mdFile2NodeProps (path_join root (fpath ent)) = inl err
             /\ e = Thrown err
       end.
Proof.
  induction ents as [|ent ents IH]; intros s res s' Hrun.
  { injection Hrun as <- <-. exists []. simpl. rewrite app_nil_r.
    by repeat split. }
  simpl in Hrun. unfold mbind, M_bind in Hrun.
  rewrite toNode_domain_root in Hrun.
  destruct (mdFile2NodeProps _) as [err|props] eqn:Hmd.
  { injection Hrun as <- <-. exists []. simpl. rewrite app_nil_r.
    do 3 (split; [done|]). by exists [], ent, ents, err. }
  simpl in Hrun.
  set (s1 := with_heap _ s) in Hrun.
  destruct (mapM (M := M) _ ents s1) as [res1 s2] eqn:Hm.
  destruct (IH _ _ _ Hm) as (propss & Hh & He & Hmi & Hres).
  exists (props :: propss). simpl in Hh.
  destruct res1 as [nodes|e]; injection Hrun as <- <-.
  - split; [by rewrite Hh, <- app_assoc|]. split; [done|]. split; [done|].
    destruct Hres as [-> Hall]. split; [|by constructor].
    simpl. rewrite length_app. simpl. by rewrite Nat.add_1_r.
  - split; [by rewrite Hh, <- app_assoc|]. split; [done|]. split; [done|].
    destruct Hres as (pre & ent' & post & err & -> & Hpre & Hent & ->).
    exists (ent :: pre), ent', post, err. split; [done|].
    split; [by constructor|done].
Qed.

Lemma find_root_md (l : list string) :
  "root.md" ∈ l ->
  find (fun n => String.eqb (fpath n) "root.md")
    ((fun f => {| prefix := path_name f; fpath := f |}) <$> l)
  = Some {| prefix := path_name "root.md"; fpath := "root.md" |}.
Proof.
  induction l as [|f l IH]; [by intros ?%elem_of_nil|].
  intros Hin. simpl. destruct (String.eqb_spec f "root.md") as [->|Hne]; [done|].
  apply IH. by apply elem_of_cons in Hin as [?|?].
Qed.

Lemma filter_domains (l : list string) :
  List.filter (fun n => negb (String.eqb (fpath n) "root.md"))
    ((fun f => {| prefix := path_name f; fpath := f |}) <$> l)
  = (fun f => {| prefix := path_name f; fpath := f |})
      <$> filter (fun f => f <> "root.md") l.
Proof.
  induction l as [|f l IH]; [done|]. simpl. rewrite filter_cons.
  destruct (String.eqb_spec f "root.md") as [Heq|Hne]; simpl.
  - by rewrite decide_False by (by intros ?).
  - rewrite decide_True by done. simpl. f_equal. apply IH.
Qed.

(** Attaching the notes of the first level to the root. *)
Lemma attach_domains_run r (l : list addr) :
  forall (d : gmap string (option addr)) s,
  r < length (heap s) -> Forall (fun a => a < length (heap s)) l ->
  r ∉ l -> NoDup l ->
  exists d' s',
    attach_domains (Some r) (Some <$> l) d s = (Ok d', s')
    /\ errors s' = errors s /\ missing s' = missing s
    /\ length (heap s') = length (heap s)
    /\ (forall k v, d' !! k = Some v ->
          d !! k = Some v \/ exists a, v = Some a /\ a ∈ l)
    /\ forall a (n : Note), heap s !! a = Some n ->
         exists n' : Note,
           heap s' !! a = Some n' /\ same_fields n n'
           /\ children n' = children n ++ (if bool_decide (a = r) then l else [])
           /\ parent n' = if bool_decide (a ∈ l) then Some r else parent n.
Proof.
  induction l as [|c l IH]; intros d s Hr Hall Hnin Hnd.
  { exists d, s. split; [done|]. do 3 (split; [done|]).
    split; [intros k v Hk; by left|].
    intros a n Ha. exists n. split; [done|]. split; [done|].
    rewrite (bool_decide_eq_false_2 (a ∈ [])) by (by intros ?%elem_of_nil).
    split; [|done]. case_bool_decide; by rewrite app_nil_r. }
  apply Forall_cons in Hall as [Hc Hall].
  apply NoDup_cons in Hnd as [Hcl Hnd].
  apply not_elem_of_cons in Hnin as [Hrc Hnin].
  simpl. unfold mbind at 1. unfold M_bind at 1.
  simpl. unfold mbind at 1. unfold M_bind at 1. unfold get_heap, put_heap.
  unfold mbind, M_bind, fname_key. simpl.
  destruct (lookup_lt_is_Some_2 (heap s) c Hc) as [cn Hcn].
  rewrite lookup_addChild, Hcn. simpl.
  set (s1 := with_heap (addChild r c (heap s)) s).
  destruct (IH (<[default "undefined" (fname (addChild_at r c c cn)) := Some c]> d) s1)
    as (d' & s' & Hrun & He & Hm & Hlen & Hd & Hheap).
  { simpl. by rewrite length_addChild. }
  { simpl. rewrite length_addChild. done. }
  { done. }
  { done. }
  exists d', s'. split; [exact Hrun|]. split; [done|]. split; [done|].
  split; [rewrite Hlen; simpl; by rewrite length_addChild|]. split.
  - intros k v Hk. destruct (Hd _ _ Hk) as [Hold|(a & -> & Ha)].
    + destruct (decide (default "undefined" (fname (addChild_at r c c cn)) = k))
        as [<-|Hne].
      * rewrite lookup_insert_eq in Hold. injection Hold as <-.
        right. exists c. split; [done|by left].
      * rewrite lookup_insert_ne in Hold by done. by left.
    + right. exists a. split; [done|by right].
  - intros a n Ha.
    destruct (Hheap a (addChild_at r c a n)) as (n' & Hn' & Hf' & Hc' & Hp').
    { simpl. by rewrite lookup_addChild, Ha. }
    exists n'. split; [done|].
    split; [eapply same_fields_trans; [apply (same_fields_addChild_at r c a)|done]|].
    rewrite Hc', Hp', children_addChild_at, parent_addChild_at. split.
    + destruct (bool_decide (a = r)); [by rewrite <- app_assoc|done].
    + destruct (decide (a = c)) as [->|Hac].
      * rewrite (bool_decide_eq_true_2 (c ∈ c :: l)) by (by left).
        rewrite (bool_decide_eq_true_2 (c = c)) by done.
        by destruct (bool_decide (c ∈ l)).
      * rewrite (bool_decide_eq_false_2 (a = c)) by done.
        destruct (decide (a ∈ l)) as [Hin|Hnin'].
        -- rewrite !bool_decide_eq_true_2; [done|by right|done].
        -- rewrite !bool_decide_eq_false_2; [done| |done].
           by intros [?|?]%elem_of_cons.
Qed.

Lemma attach_domains_frame lo hi rootNode nodes :
  forall (d : gmap string (option addr)) s,
  above lo rootNode -> Forall (above lo) nodes -> Forall (above hi) nodes ->
  frame lo hi (heap s) (heap (attach_domains rootNode nodes d s).2).
Proof.
  induction nodes as [|n nodes IH]; intros d s Hr Hlo Hhi; [apply frame_refl|].
  apply Forall_cons in Hlo as [Hn Hlo]. apply Forall_cons in Hhi as [Hn' Hhi].
  simpl. unfold mbind at 1. unfold M_bind at 1.
  destruct rootNode as [r|], n as [c|]; simpl; try apply frame_refl.
  unfold mbind at 1. unfold M_bind at 1. unfold get_heap, put_heap.
  unfold mbind, M_bind, fname_key. simpl.
  assert (Hf1 : frame lo hi (heap s) (addChild r c (heap s))).
  { apply frame_addChild; [by apply Hr|by apply Hn|by apply Hn']. }
  destruct (addChild r c (heap s) !! c) as [nd|]; simpl; [|done].
  eapply frame_trans; [exact Hf1|].
  apply (IH _ (with_heap (addChild r c (heap s)) s)); done.
Qed.

(** *** What the index holds *)

Lemma index_nodes_none nodes :
  forall (d d' : gmap string (option addr)) s s' k,
  index_nodes nodes d s = (Ok d', s') ->
  d' !! k = Some None -> d !! k = Some None.
Proof.
  induction nodes as [|n nodes IH]; intros d d' s s' k Hrun Hk.
  { by injection Hrun as <- <-. }
  simpl in Hrun. unfold mbind, M_bind, fname_key in Hrun.
  destruct (heap s !! n) as [nd|]; [|done].
  specialize (IH _ _ _ _ _ Hrun Hk).
  destruct (decide (default "undefined" (fname nd) = k)) as [<-|Hne].
  - by rewrite lookup_insert_eq in IH.
  - by rewrite lookup_insert_ne in IH.
Qed.

Lemma level_entry_none opts prev ent (d : gmap string (option addr)) s r s' k :
  level_entry opts prev ent d s = (Ok r, s') ->
  r.2 !! k = Some None -> d !! k = Some None.
Proof.
  unfold FileParser.level_entry. intros Hrun Hk.
  destruct (globMatch _ _); [by injection Hrun as <- <-|].
  unfold mbind, M_bind in Hrun.
  destruct (toNode _ _ _ s) as [[[node missing]|e] s1]; [|done].
  simpl in Hrun.
  destruct (JS.truthy missing); [|by injection Hrun as <- <-].
  unfold get_heap in Hrun. simpl in Hrun.
  match type of Hrun with
  | context [match ?x with Some _ => _ | None => _ end] =>
      destruct x as [nd|]; [|done]
  end.
  destruct (createStubNotes _ _ s1) as [[stubs|e] s2]; [|done].
  destruct (index_nodes stubs d s2) as [[d1|e] s3] eqn:Hi; [|done].
  simpl in Hrun. injection Hrun as <- <-. simpl in Hk.
  by eapply index_nodes_none.
Qed.

Lemma level_map_none opts prev ents :
  forall (d : gmap string (option addr)) s r s' k,
  level_map opts prev ents d s = (Ok r, s') ->
  r.2 !! k = Some None -> d !! k = Some None.
Proof.
  induction ents as [|ent ents IH]; intros d s r s' k Hrun Hk.
  { by injection Hrun as <- <-. }
  simpl in Hrun. unfold mbind, M_bind in Hrun.
  destruct (level_entry opts prev ent d s) as [[r1|e] s1] eqn:He; [|done].
  destruct (level_map opts prev ents r1.2 s1) as [[rs|e] s2] eqn:Hm; [|done].
  simpl in Hrun. injection Hrun as <- <-. simpl in Hk.
  eapply level_entry_none; [exact He|]. by eapply IH.
Qed.

(** What the loop over the levels leaves in the index: what was there, and
    notes of its own. *)
Lemma parse_levels_values opts fileMetaDict n :
  forall lvl prev (d d' : gmap string (option addr)) s s',
  parse_levels opts fileMetaDict n lvl prev d s = (Ok d', s') ->
  length (heap s) <= length (heap s')
  /\ forall k v, d' !! k = Some v ->
       d !! k = Some v
       \/ exists a, v = Some a /\ length (heap s) <= a < length (heap s').
Proof.
  induction n as [|n IH]; intros lvl prev d d' s s' Hrun.
  { injection Hrun as <- <-. split; [done|]. intros k v Hk. by left. }
  simpl in Hrun. unfold mbind, M_bind in Hrun.
  destruct (level_map opts prev _ d s) as [[r|e] s1] eqn:Hm; [|done].
  destruct (level_map_nodes _ _ _ _ _ _ _ _ _ _ _ Hm) as (Hlen1 & Hnodes & Hnew).
  pose proof (index_nodes_state (omap (fun n => n) r.1) r.2 s1) as Hs2.
  destruct (index_nodes _ r.2 s1) as [[d1|e] s2] eqn:Hi; [|done].
  simpl in Hs2. subst s2.
  destruct (IH _ _ _ _ _ _ Hrun) as [Hlen2 Hvals].
  split; [lia|]. intros k v Hk.
  destruct (Hvals _ _ Hk) as [Hold|(a & -> & Ha)];
    [|right; exists a; split; [done|lia]].
  destruct v as [a|].
  - destruct (index_nodes_values _ _ _ _ _ _ _ Hi Hold) as [Hold'|Hin].
    + destruct (Hnew _ _ Hold') as [?|[Hr _]]; [by left|].
      right. exists a. split; [done|lia].
    + right. exists a. split; [done|].
      apply list_elem_of_omap in Hin as (x & Hx & Hxa). simpl in Hxa. subst x.
      rewrite Forall_forall in Hnodes. specialize (Hnodes _ Hx a eq_refl). lia.
  - left. eapply level_map_none; [exact Hm|].
    by eapply index_nodes_none.
Qed.

Lemma toNode_null ent parents o s m s' :
  toNode ent parents o s = (Ok (None, m), s') ->
  exists err,
    mdFile2NodeProps (path_join root (fpath ent)) = inl err
    /\ JS.defaults (t_errorOnBadParse o) true = false.
Proof.
  destruct (mdFile2NodeProps (path_join root (fpath ent))) as [err|props] eqn:Hmd.
  { rewrite (toNode_bad_parse _ _ _ _ _ _ _ _ Hmd).
    destruct (JS.defaults _ _); [done|]. intros _. by exists err. }
  rewrite (toNode_parsed _ _ _ _ _ _ _ _ Hmd). cbv zeta.
  destruct (find_parent _ _ _) as [[p|]|e]; [done| |done].
  destruct (JS.defaults (t_isRoot o) false); [done|].
  by destruct (JS.defaults (t_errorOnEmpty o) true).
Qed.

(** X4.  A run of [parse] works on notes of its own.  Whether it returns
    or throws, the notes that were there before the call are left as they
    were, and every reference it returns is to a note allocated during the
    call.  A [null] in the result is the root that did not parse, with
    [errorOnBadParse] unset. *)
Theorem parse_creates opts data s :
  take (length (heap s)) (heap (parse opts data s).2) = heap s
  /\ (forall res, (parse opts data s).1 = Ok res ->
        Forall (fun x =>
                  match x with
                  | Some a =>
                      length (heap s) <= a
                      < length (heap (parse opts data s).2)
                  | None =>
                      p_errorOnBadParse opts = false
                      /\ exists err,
                           mdFile2NodeProps (path_join root "root.md") = inl err
                  end) res).
Proof.
  set (base := length (heap s)).
  destruct (parse opts data s) as [out s'] eqn:Hrun. simpl.
  assert (Hmain : frame base base (heap s) (heap s')
            /\ forall res, out = Ok res ->
                 Forall (fun x =>
                  match x with
                  | Some a => base <= a < length (heap s')
                  | None =>
                      p_errorOnBadParse opts = false
                      /\ exists err,
                           mdFile2NodeProps (path_join root "root.md") = inl err
                  end) res).
  2:{ destruct Hmain as [(Hlen & Hun & _) Hres]. split; [|done].
      apply list_eq. intros a. destruct (decide (a < base)) as [Ha|Ha].
      - rewrite lookup_take_lt by done. by apply Hun.
      - rewrite lookup_take_ge by lia. symmetry. apply lookup_ge_None.
        unfold base in Ha. lia. }
  unfold FileParser.parse in Hrun. case_bool_decide.
  { injection Hrun as <- <-. split; [apply frame_refl|].
    intros res [= <-]. constructor. }
  destruct (getFileMeta data !! 1) as [lvl1|] eqn:Hl1.
  2:{ injection Hrun as <- <-. split; [apply frame_refl|by intros ? [=]]. }
  destruct (find _ lvl1) as [rootMeta|] eqn:Hfind.
  2:{ injection Hrun as <- <-. split; [apply frame_refl|].
      intros res [= <-]. constructor. }
  assert (Hroot : fpath rootMeta = "root.md").
  { apply find_some in Hfind as [_ Heq]. by apply String.eqb_eq in Heq. }
  unfold mbind at 1 in Hrun. unfold M_bind at 1 in Hrun.
  match type of Hrun with context [toNode rootMeta [] ?o s] =>
    pose proof (toNode_frame base base rootMeta [] o s
                  ltac:(done) ltac:(done) ltac:(constructor)) as Hf1;
    destruct (toNode rootMeta [] o s) as [[[rootNode m]|e] s1] eqn:Ht
  end; simpl in Hf1.
  2:{ injection Hrun as <- <-. split; [done|by intros ? [=]]. }
  destruct (toNode_shape _ _ _ _ _ _ _ _ _ Ht) as (Hlen1 & _ & Hsome).
  assert (Hrn : match rootNode with
                | Some r => r = base /\ r < length (heap s1)
                | None => p_errorOnBadParse opts = false
                          /\ exists err,
                               mdFile2NodeProps (path_join root "root.md") = inl err
                end).
  { destruct rootNode as [r|]; [by apply (Hsome r m)|].
    destruct (toNode_null _ _ _ _ _ _ Ht) as (err & Hmd & Hflag).
    rewrite Hroot in Hmd. split; [done|by exists err]. }
  cbv beta iota zeta in Hrun.
  change ((rootNode, m).1) with rootNode in Hrun.
  unfold mbind at 1 in Hrun. unfold M_bind at 1 in Hrun.
  destruct (mapM (M := M) _ _ s1) as [res2 s2] eqn:Hm.
  destruct (domain_roots_run _ _ _ _ Hm) as (propss & Hh2 & _ & _ & Hres2).
  assert (Hf2 : frame base base (heap s) (heap s2)).
  { eapply frame_trans; [exact Hf1|]. rewrite Hh2. apply frame_app.
    unfold base. lia. }
  destruct res2 as [prevNodes|e].
  2:{ injection Hrun as <- <-. split; [done|by intros ? [=]]. }
  destruct Hres2 as [-> Hprops].
  set (k := length (List.filter _ lvl1)) in *.
  assert (Hlen2 : length (heap s2) = length (heap s1) + k).
  { rewrite Hh2, length_app, length_fmap.
    by rewrite <- (Forall2_length _ _ _ Hprops). }
  unfold mbind at 1 in Hrun. unfold M_bind at 1 in Hrun.
  assert (Hseq : Forall (fun a => base <= a) (seq (length (heap s1)) k)).
  { apply Forall_forall. intros a [Ha _]%elem_of_seq. unfold base. lia. }
  pose proof (attach_domains_frame base base rootNode
                (Some <$> seq (length (heap s1)) k)
                (<["root" := rootNode]> ∅) s2) as Hf3.
  destruct (attach_domains _ _ _ s2) as [[d|e] s3] eqn:Ha; simpl in Hf3.
  2:{ injection Hrun as <- <-. split; [|by intros ? [=]].
      eapply frame_trans; [exact Hf2|].
      apply Hf3; [|by apply above_fmap_Some..].
      intros r ->. by destruct Hrn as [-> _]. }
  assert (Hf3' : frame base base (heap s) (heap s3)).
  { eapply frame_trans; [exact Hf2|].
    apply Hf3; [|by apply above_fmap_Some..].
    intros r ->. by destruct Hrn as [-> _]. }
  assert (Hd : forall key v, d !! key = Some v ->
            match v with
            | Some a => base <= a < length (heap s3)
            | None => p_errorOnBadParse opts = false
                      /\ exists err,
                           mdFile2NodeProps (path_join root "root.md") = inl err
            end).
  { destruct rootNode as [r|].
    - destruct Hrn as [-> Hlt].
      destruct (attach_domains_run base (seq (length (heap s1)) k)
                  (<["root" := Some base]> ∅) s2)
        as (d0 & s0 & Hrun0 & _ & _ & Hlen0 & Hd0 & _).
      { lia. }
      { apply Forall_forall. intros a [_ Ha']%elem_of_seq. lia. }
      { intros [Hge _]%elem_of_seq. lia. }
      { apply NoDup_seq. }
      rewrite Hrun0 in Ha. injection Ha as <- <-.
      intros key v Hv. destruct (Hd0 _ _ Hv) as [Hold|(a & -> & Hin)].
      + destruct (decide (key = "root")) as [->|Hne].
        * rewrite lookup_insert_eq in Hold. injection Hold as <-. lia.
        * by rewrite lookup_insert_ne, lookup_empty in Hold.
      + apply elem_of_seq in Hin. unfold base. lia.
    - destruct (seq (length (heap s1)) k) as [|a l]; [|done].
      simpl in Ha. injection Ha as <- <-.
      intros key v Hv. destruct (decide (key = "root")) as [->|Hne].
      + rewrite lookup_insert_eq in Hv. by injection Hv as <-.
      + by rewrite lookup_insert_ne, lookup_empty in Hv. }
  unfold mbind, M_bind in Hrun.
  pose proof (frame_length _ _ _ _ Hf3') as Hlen3.
  destruct (parse_levels_frame base base opts (getFileMeta data)
              (maxLvl_of (getFileMeta data) - 1) 2
              (Some <$> seq (length (heap s1)) k) d s3)
    as [Hf4 _]; [done|done|by apply above_fmap_Some| |].
  { intros key a Hk. by destruct (Hd _ _ Hk). }
  destruct (parse_levels _ _ _ _ _ _ s3) as [[d'|e] s4] eqn:Hp; simpl in *;
    injection Hrun as <- <-.
  2:{ split; [by eapply frame_trans|by intros ? [=]]. }
  split; [by eapply frame_trans|]. intros res [= <-].
  destruct (parse_levels_values _ _ _ _ _ _ _ _ _ Hp) as [Hlen4 Hvals].
  apply Forall_forall.
  intros v ([key v'] & -> & Hkv%elem_of_map_to_list)%list_elem_of_fmap.
  simpl. destruct (Hvals _ _ Hkv) as [Hold|(a & -> & Hr)]; [|lia].
  specialize (Hd _ _ Hold). destruct v' as [a|]; [lia|done].
Qed.

(** The files of the first level, as [parse] finds them. *)
Lemma first_level data :
  length (JS.split_dot (path_name "root.md")) = 1 -> "root.md" ∈ data ->
  let l1 := filter (fun f => length (JS.split_dot (path_name f)) = 1) data in
  getFileMeta data !! 1
  = Some ((fun f => {| prefix := path_name f; fpath := f |}) <$> l1)
  /\ find (fun n => String.eqb (fpath n) "root.md")
       ((fun f => {| prefix := path_name f; fpath := f |}) <$> l1)
     = Some {| prefix := path_name "root.md"; fpath := "root.md" |}
  /\ List.filter (fun n => negb (String.eqb (fpath n) "root.md"))
       ((fun f => {| prefix := path_name f; fpath := f |}) <$> l1)
     = (fun f => {| prefix := path_name f; fpath := f |})
         <$> filter (fun f => f <> "root.md") l1.
Proof.
  intros Hlvl Hin l1.
  assert (Hin1 : "root.md" ∈ l1) by (by apply list_elem_of_filter).
  split; [|split; [by apply find_root_md|apply filter_domains]].
  rewrite getFileMeta_lookup. fold l1.
  destruct l1; [by apply elem_of_nil in Hin1|done].
Qed.

(** X5.  When [root.md] parses and [parse] returns, the root is the first
    note allocated by the run and has no parent.  The notes of the other
    files of level 1 are allocated next, in the order of the listing: each
    is built from the properties of its file and has the root as parent,
    and they are the first children of the root, in that order. *)
Theorem parse_first_level opts data s res s' rprops :
  length (JS.split_dot (path_name "root.md")) = 1 ->
  "root.md" ∈ data ->
  mdFile2NodeProps (path_join root "root.md") = inr rprops ->
  parse opts data s = (Ok res, s') ->
  let base := length (heap s) in
  let doms :=
    filter (fun f => f <> "root.md")
      (filter (fun f => length (JS.split_dot (path_name f)) = 1) data) in
  (exists (rn : Note) cs,
     heap s' !! base = Some rn
     /\ toRawProps rn = toRawProps (Note_new rprops)
     /\ fname rn = o_fname rprops
     /\ parent rn = None
     /\ children rn = seq (S base) (length doms) ++ cs)
  /\ (forall i f, doms !! i = Some f ->
        exists props (n : Note),
          mdFile2NodeProps (path_join root f) = inr props
          /\ heap s' !! (S base + i) = Some n
          /\ toRawProps n = toRawProps (Note_new props)
          /\ fname n = o_fname props
          /\ parent n = Some base).
Proof.
  intros Hlvl Hin Hmd Hrun base doms.
  destruct (first_level data Hlvl Hin) as (Hl1 & Hfind & Hdoms).
  unfold FileParser.parse in Hrun.
  rewrite bool_decide_eq_false_2 in Hrun
    by (intros ->; by apply elem_of_nil in Hin).
  rewrite Hl1, Hfind, Hdoms in Hrun. fold doms in Hrun.
  unfold mbind at 1 in Hrun. unfold M_bind at 1 in Hrun.
  rewrite (toNode_parsed _ _ _
             {| prefix := path_name "root.md"; fpath := "root.md" |}
             _ _ _ _ Hmd) in Hrun.
  cbv beta iota zeta in Hrun. simpl find_parent in Hrun.
  cbv beta iota in Hrun. simpl JS.defaults in Hrun. cbv beta iota in Hrun.
  change ((Some (length (heap s)), @None string).1)
    with (Some base) in Hrun.
  set (s1 := with_heap (heap s ++ [Note_new (with_parent None rprops)]) s) in Hrun.
  unfold mbind at 1 in Hrun. unfold M_bind at 1 in Hrun.
  destruct (mapM (M := M) _ _ s1) as [res2 s2] eqn:Hm.
  destruct (domain_roots_run _ _ _ _ Hm) as (propss & Hh2 & _ & _ & Hres2).
  destruct res2 as [prevNodes|e]; [|done].
  destruct Hres2 as [-> Hprops]. rewrite length_fmap in Hrun.
  assert (Hlen1 : length (heap s1) = S base).
  { simpl. rewrite length_app. simpl. unfold base. lia. }
  rewrite Hlen1 in Hrun.
  assert (Hlenp : length propss = length doms).
  { by rewrite <- (Forall2_length _ _ _ Hprops), length_fmap. }
  assert (Hlen2 : length (heap s2) = S base + length doms).
  { rewrite Hh2, length_app, length_fmap. lia. }
  unfold mbind at 1 in Hrun. unfold M_bind at 1 in Hrun.
  destruct (attach_domains_run base (seq (S base) (length doms))
              (<["root" := Some base]> ∅) s2)
    as (d0 & s3 & Hrun0 & _ & _ & Hlen3 & _ & Hheap3).
  { lia. }
  { apply Forall_forall. intros a [_ Ha']%elem_of_seq. lia. }
  { intros [Hge _]%elem_of_seq. lia. }
  { apply NoDup_seq. }
  rewrite Hrun0 in Hrun. unfold mbind, M_bind in Hrun.
  destruct (parse_levels_frame 0 (length (heap s3)) opts (getFileMeta data)
              (maxLvl_of (getFileMeta data) - 1) 2
              (Some <$> seq (S base) (length doms)) d0 s3)
    as [(_ & _ & Hkept) _]; [lia|lia| | |].
  { apply Forall_forall. intros x _ a _. lia. }
  { intros key a _. lia. }
  destruct (parse_levels _ _ _ _ _ _ s3) as [[d'|e] s4] eqn:Hp; [|done].
  simpl in Hkept. injection Hrun as <- <-.
  assert (Hold : forall a (n : Note), heap s2 !! a = Some n ->
            exists (n' : Note) cs,
              heap s4 !! a = Some n' /\ same_fields n n'
              /\ parent n' = (if bool_decide (a ∈ seq (S base) (length doms))
                              then Some base else parent n)
              /\ children n'
                 = children n
                   ++ (if bool_decide (a = base) then seq (S base) (length doms)
                       else []) ++ cs).
  { intros a n Ha.
    destruct (Hheap3 _ _ Ha) as (n3 & Hn3 & Hf3 & Hc3 & Hp3).
    destruct (Hkept a n3) as (n4 & Hn4 & Hf4 & Hp4 & cs & Hc4);
      [by eapply lookup_lt_Some|done|].
    exists n4, cs. split; [done|].
    split; [by eapply same_fields_trans|].
    split; [congruence|]. by rewrite Hc4, Hc3, <- app_assoc. }
  split.
  - destruct (Hold base (Note_new (with_parent None rprops)))
      as (rn & cs & Hrn & (Hraw & Hfn & _) & Hpar & Hch).
    { rewrite Hh2. apply lookup_app_l_Some.
      apply (lookup_alloc_new (with_parent None rprops)). }
    exists rn, cs. split; [done|]. split; [exact Hraw|]. split; [exact Hfn|].
    rewrite Hpar, Hch. rewrite (bool_decide_eq_true_2 (base = base)) by done.
    rewrite bool_decide_eq_false_2; [done|].
    intros [Hge _]%elem_of_seq. lia.
  - intros i f Hi.
    pose proof (list_lookup_fmap
                  (fun f => {| prefix := path_name f; fpath := f |}) doms i)
      as Hent.
    rewrite Hi in Hent. simpl in Hent.
    destruct (Forall2_lookup_l _ _ _ _ _ Hprops Hent) as (props & Hpi & Hmdi).
    simpl in Hmdi.
    destruct (Hold (S base + i) (Note_new (with_parent None props)))
      as (n & cs & Hn & (Hraw & Hfn & _) & Hpar & Hch).
    { rewrite Hh2, lookup_app_r by lia.
      rewrite Hlen1. replace (S base + i - S base) with i by lia.
      by rewrite list_lookup_fmap, Hpi. }
    exists props, n. split; [done|]. split; [done|]. split; [exact Hraw|].
    split; [exact Hfn|]. rewrite Hpar, bool_decide_eq_true_2; [done|].
    apply elem_of_seq. apply lookup_lt_Some in Hi. lia.
Qed.

(** X6.  When [root.md] does not parse and [errorOnBadParse] is unset, and
    the listing holds other files of level 1, all of which parse: [parse]
    throws a [TypeError], since [rootNode] is [null] when the first note is
    attached to it.  By then the [BAD_PARSE] entry for [root.md] is
    recorded, and the notes of level 1 are allocated and left without
    parent. *)
Theorem parse_null_root opts data s err :
  length (JS.split_dot (path_name "root.md")) = 1 ->
  "root.md" ∈ data ->
  mdFile2NodeProps (path_join root "root.md") = inl err ->
  p_errorOnBadParse opts = false ->
  let doms :=
    filter (fun f => f <> "root.md")
      (filter (fun f => length (JS.split_dot (path_name f)) = 1) data) in
  doms <> [] ->
  (forall f, f ∈ doms ->
     exists props, mdFile2NodeProps (path_join root f) = inr props) ->
  exists propss,
    Forall2 (fun f props => mdFile2NodeProps (path_join root f) = inr props)
      doms propss
    /\ parse opts data s
       = (Throw TypeError,
          {| heap := heap s ++ (Note_new <$> propss);
             errors := errors s
                       ++ [BAD_PARSE {| prefix := path_name "root.md";
                                        fpath := "root.md" |} err];
             missing := missing s |}).
Proof.
  intros Hlvl Hin Hmd Hflag doms Hne Hall.
  destruct (first_level data Hlvl Hin) as (Hl1 & Hfind & Hdoms).
  unfold FileParser.parse.
  rewrite bool_decide_eq_false_2 by (intros ->; by apply elem_of_nil in Hin).
  rewrite Hl1, Hfind, Hdoms. fold doms.
  unfold mbind at 1. unfold M_bind at 1.
  rewrite (toNode_bad_parse _ _ _
             {| prefix := path_name "root.md"; fpath := "root.md" |}
             _ _ _ _ Hmd). simpl JS.defaults.
  rewrite Hflag. cbv beta iota zeta.
  change ((@None addr, @None string).1) with (@None addr).
  set (s1 := with_error _ s).
  unfold mbind at 1. unfold M_bind at 1.
  destruct (mapM (M := M) _ _ s1) as [res2 s2] eqn:Hm.
  destruct (domain_roots_run _ _ _ _ Hm) as (propss & Hh2 & He2 & Hm2 & Hres2).
  destruct res2 as [prevNodes|e].
  2:{ destruct Hres2 as (pre & ent & post & err' & Heq & _ & Hbad & _).
      assert (Hent : ent ∈ (fun f => {| prefix := path_name f; fpath := f |})
                             <$> doms).
      { rewrite Heq. apply elem_of_app. right. by left. }
      apply list_elem_of_fmap in Hent as (f & -> & Hf).
      destruct (Hall f Hf) as [props Hp]. simpl in Hbad. congruence. }
  destruct Hres2 as [-> Hprops]. rewrite length_fmap.
  exists propss. split.
  { clear -Hprops. revert propss Hprops.
    induction doms as [|f l IH]; intros propss Hprops.
    - apply Forall2_nil_inv_l in Hprops as ->. constructor.
    - simpl in Hprops.
      apply Forall2_cons_inv_l in Hprops as (p & ps & Hp & Hps & ->).
      constructor; [done|by apply IH]. }
  destruct doms as [|f l]; [done|]. simpl.
  destruct s2 as [h2 e2 m2]. simpl in *. subst h2 e2 m2. done.
Qed.

End ParserFrame.

Section ResolverExtras.

Import Schema.

Variable path_name : string -> string.
Variable path_join : string -> string -> string.
Variable readYaml : string -> string + Yaml.
Variable SchemaUtils_fname : string -> string.
Variable createRawProps : SchemaRawOpts -> SchemaRawProps.

Local Abbreviation parseSchemaFile :=
  (parseSchemaFile path_name path_join readYaml SchemaUtils_fname createRawProps).
Local Abbreviation parseSchema :=
  (parseSchema path_name path_join readYaml SchemaUtils_fname createRawProps).
Local Abbreviation parseSchemaVersion1_with :=
  (parseSchemaVersion1_with SchemaUtils_fname createRawProps).
Local Abbreviation rewrite_import := (rewrite_import SchemaUtils_fname).

Lemma flatMap_app f l1 l2 :
  flatMap f (l1 ++ l2)
  = match flatMap f l1 with
    | Some (Ok xs) =>
        match flatMap f l2 with
        | Some (Ok ys) => Some (Ok (xs ++ ys))
        | other => other
        end
    | other => other
    end.
Proof.
  induction l1 as [|x l1 IH]; simpl.
  - by destruct (flatMap f l2) as [[ys|e]|].
  - destruct (f x) as [[xs|e]|]; [|done..]. rewrite IH.
    destruct (flatMap f l1) as [[xs'|e]|]; [|done..].
    destruct (flatMap f l2) as [[ys|e]|]; [|done..].
    by rewrite app_assoc.
Qed.

Lemma flatMap_mono f g l out :
  (forall ent o, ent ∈ l -> f ent = Some o -> g ent = Some o) ->
  flatMap f l = Some out -> flatMap g l = Some out.
Proof.
  revert out. induction l as [|x l IH]; intros out Hfg; [done|]. simpl.
  destruct (f x) as [[xs|e]|] eqn:Hf; [| |done].
  - rewrite (Hfg _ _ ltac:(by left) Hf).
    destruct (flatMap f l) as [[ys|e]|] eqn:Hl; [| |done].
    + rewrite (IH _ ltac:(intros; apply Hfg; [by right|done]) eq_refl). done.
    + rewrite (IH _ ltac:(intros; apply Hfg; [by right|done]) eq_refl). done.
  - by rewrite (Hfg _ _ ltac:(by left) Hf).
Qed.

(** The first file that throws ends the call, where the files before it
    have returned. *)
Lemma flatMap_Throw f pre m rest rs e :
  Forall2 (fun x r => f x = Some (Ok r)) pre rs ->
  f m = Some (Throw e) ->
  flatMap f (pre ++ m :: rest) = Some (Throw e).
Proof.
  intros Hpre Hm. rewrite flatMap_app, (flatMap_Ok _ _ _ Hpre).
  simpl. by rewrite Hm.
Qed.

Lemma flatMap_None f pre m rest :
  Forall (fun x => forall e, f x <> Some (Throw e)) pre ->
  f m = None ->
  flatMap f (pre ++ m :: rest) = None.
Proof.
  intros Hpre Hm. induction pre as [|x pre IH]; simpl.
  - by rewrite Hm.
  - apply Forall_cons in Hpre as [Hx Hpre].
    destruct (f x) as [[xs|e]|]; [|by destruct (Hx e)|done].
    by rewrite IH.
Qed.

(** X9.  [parseSchema] resolves the listed files in order and concatenates
    their records: the empty listing gives no record, one file gives what
    [parseSchemaFile] gives for it, and a listing in two parts gives the
    records of the first part followed by those of the second, or the first
    failure. *)
Theorem parseSchema_app fuel root (data1 data2 : list string) :
  parseSchema fuel [] root = Some (Ok [])
  /\ parseSchema fuel (data1 ++ data2) root
     = match parseSchema fuel data1 root with
       | Some (Ok xs) =>
           match parseSchema fuel data2 root with
           | Some (Ok ys) => Some (Ok (xs ++ ys))
           | other => other
           end
       | other => other
       end
  /\ (forall fpath,
        parseSchema fuel [fpath] root
        = parseSchemaFile fuel fpath root).
Proof.
  assert (Hflat : forall data,
            parseSchema fuel data root
            = flatMap (fun fpath => parseSchemaFile fuel fpath root) data).
  { intros data. unfold Schema.parseSchema. by case_bool_decide; subst. }
  split; [done|]. split.
  - rewrite !Hflat. apply flatMap_app.
  - intros fpath. rewrite Hflat. simpl.
    destruct (parseSchemaFile fuel fpath root) as [[xs|e]|]; [|done..].
    by rewrite app_nil_r.
Qed.

(** X10.  When [Schema.createRawProps] keeps the [fname] it is given,
    every record [parseSchema] returns carries the name of one of the listed
    files as its [fname], also when it came in through imports. *)
Theorem parseSchema_fname fuel root data recs :
  (forall f o, s_fname (createRawProps (with_fname f o)) = f) ->
  parseSchema fuel data root = Some (Ok recs) ->
  Forall (fun r => exists fpath, fpath ∈ data /\ s_fname r = path_name fpath) recs.
Proof.
  intros Hkeep. unfold Schema.parseSchema. case_bool_decide as Hd.
  { intros [= <-]. constructor. }
  clear Hd. revert recs. induction data as [|f data IH]; intros recs; simpl.
  { intros [= <-]. constructor. }
  destruct (parseSchemaFile fuel f root) as [[xs|e]|] eqn:Hf; [|done..].
  destruct (flatMap _ data) as [[ys|e]|]; [|done..].
  intros [= <-]. apply Forall_app. split.
  - eapply Forall_impl; [by eapply parseSchemaFile_fname|].
    intros r Hr. exists f. split; [by left|done].
  - eapply Forall_impl; [by apply IH|].
    intros r (g & Hg & Hr). exists g. split; [by right|done].
Qed.

(** One more level of imports allowed changes no result. *)
Lemma parseSchemaFile_S fuel : forall fpath root out,
  parseSchemaFile fuel fpath root = Some out ->
  parseSchemaFile (S fuel) fpath root = Some out.
Proof.
  induction fuel as [|fuel IH]; intros fpath root out; [done|].
  intros H.
  change (parseSchemaFile (S (S fuel)) fpath root)
    with (let fname := path_name fpath in
          match readYaml (path_join root fpath) with
          | inl err => Some (Throw (Thrown err))
          | inr schemaOpts =>
              let version := if isArray schemaOpts then 0 else 1 in
              if version =? 1 then
                parseSchemaVersion1_with (parseSchemaFile (S fuel))
                  (as_v1 schemaOpts) fname root
              else
                match schemaOpts with
                | YArray entries =>
                    Some (Ok (map (fun o => createRawProps (with_fname fname o))
                                entries))
                | _ => Some (Throw TypeError)
                end
          end).
  simpl in H. cbv zeta.
  destruct (readYaml _) as [err|y]; [done|].
  destruct ((if isArray y then 0 else 1) =? 1); [|done].
  revert H. unfold Schema.parseSchemaVersion1_with.
  destruct (flatMap (fun ent => parseSchemaFile fuel _ _) _) as [r|] eqn:Hfm;
    [|done].
  apply (flatMap_mono _ (fun ent => parseSchemaFile (S fuel)
                                      (ent +:+ ".schema.yml") root)) in Hfm;
    [|intros; by apply IH].
  by rewrite Hfm.
Qed.


(** X12.  An import cycle.  If every file of a set is a version-1 file
    whose imports reach a file of the set before any import throws, then
    [parseSchemaFile] returns for no file of the set, however deep the
    imports may go; nor does [parseSchema] on a listing that reaches such a
    file. *)
Theorem import_cycle_never_returns root (P : string -> Prop) :
  (forall f, P f ->
     exists o pre m rest,
       readYaml (path_join root f) = inr (YObject o)
       /\ imports o = Some (pre ++ m :: rest)
       /\ Forall (fun x => forall fuel e,
                    parseSchemaFile fuel (x +:+ ".schema.yml") root
                    <> Some (Throw e)) pre
       /\ P (m +:+ ".schema.yml")) ->
  forall fuel f, P f ->
    parseSchemaFile fuel f root = None
    /\ forall pre' rest',
         Forall (fun x => forall e,
                   parseSchemaFile fuel x root <> Some (Throw e)) pre' ->
         parseSchema fuel (pre' ++ f :: rest') root = None.
Proof.
  intros Hcyc.
  assert (Hnone : forall fuel f, P f -> parseSchemaFile fuel f root = None).
  { induction fuel as [|fuel IH]; intros f Hf; [done|].
    destruct (Hcyc f Hf) as (o & pre & m & rest & Hr & Hi & Hpre & Hm).
    simpl. rewrite Hr. simpl. unfold Schema.parseSchemaVersion1_with.
    rewrite Hi. simpl.
    rewrite (flatMap_None _ pre m rest); [done| |by apply IH].
    eapply Forall_impl; [exact Hpre|]. intros x Hx e. apply Hx. }
  intros fuel f Hf. split; [by apply Hnone|].
  intros pre' rest' Hpre'. unfold Schema.parseSchema.
  rewrite bool_decide_eq_false_2 by (by destruct pre').
  apply flatMap_None; [done|by apply Hnone].
Qed.

(** X13.  A version-1 file with an import that throws, after imports
    that resolve: [parseSchemaFile] throws that same error, whatever the
    remaining imports and the [schemas] of the file are.  So does
    [parseSchema] for a listing that holds the file after files that
    resolve. *)
Theorem import_failure_propagates fuel fpath root o pre m rest rs e :
  readYaml (path_join root fpath) = inr (YObject o) ->
  imports o = Some (pre ++ m :: rest) ->
  Forall2 (fun x r => parseSchemaFile fuel (x +:+ ".schema.yml") root
                      = Some (Ok r)) pre rs ->
  parseSchemaFile fuel (m +:+ ".schema.yml") root = Some (Throw e) ->
  parseSchemaFile (S fuel) fpath root = Some (Throw e)
  /\ forall before after outs,
       Forall2 (fun x r => parseSchemaFile (S fuel) x root = Some (Ok r))
         before outs ->
       parseSchema (S fuel) (before ++ fpath :: after) root = Some (Throw e).
Proof.
  intros Hr Hi Hpre Hm.
  assert (H : parseSchemaFile (S fuel) fpath root = Some (Throw e)).
  { simpl. rewrite Hr. simpl. unfold Schema.parseSchemaVersion1_with.
    rewrite Hi. simpl.
    by rewrite (flatMap_Throw
                  (fun ent => parseSchemaFile fuel (ent +:+ ".schema.yml") root)
                  pre m rest rs e Hpre Hm). }
  split; [done|]. intros before after outs Hb.
  unfold Schema.parseSchema.
  rewrite bool_decide_eq_false_2 by (by destruct before).
  by apply (flatMap_Throw (fun x => parseSchemaFile (S fuel) x root)
              before fpath after outs e).
Qed.

(** X14.  A record that comes in through two imports (a file imports a
    file that imports the file of the record).  Its id gets one prefix per
    import, the outer one first, and so does each of its children; its
    [fname] is the name of the outer file and its parent [null].  Its
    pattern is set at the first import, to the pattern it had or else to its
    id, and the second import keeps it, provided the record had a pattern
    or a non-empty id. *)
Theorem rewrite_import_twice (f1 f2 : string) (ent : SchemaRawProps) :
  let e1 := rewrite_import f1 ent in
  let e2 := rewrite_import f2 e1 in
  s_id e2
  = SchemaUtils_fname f1 +:+ "."
    +:+ (SchemaUtils_fname (s_fname ent) +:+ "." +:+ s_id ent)
  /\ s_fname e2 = f2
  /\ s_parent e2 = None
  /\ s_children e2
     = map (fun c => SchemaUtils_fname f1 +:+ "."
                     +:+ (SchemaUtils_fname (s_fname ent) +:+ "." +:+ c))
         (s_children ent)
  /\ (JS.truthy (pattern (data ent)) = true \/ s_id ent <> EmptyString ->
      pattern (data e2) = pattern (data e1)
      /\ pattern (data e1)
         = Some (JS.or_else (pattern (data ent)) (s_id ent)))
  /\ (pattern (data ent) = None -> s_id ent <> EmptyString ->
      pattern (data e2) = Some (s_id ent)).
Proof.
  intros e1 e2. subst e1 e2. unfold Schema.rewrite_import. simpl.
  split; [done|]. split; [done|]. split; [done|]. split.
  { rewrite map_map. done. }
  assert (Hstable : forall s : string, s <> EmptyString ->
            forall d, JS.or_else (Some s) d = s).
  { intros s Hs d. unfold JS.or_else. simpl.
    by destruct (String.eqb_spec s EmptyString). }
  split.
  - intros Hor. split; [|done]. f_equal. apply Hstable.
    unfold JS.or_else. destruct Hor as [Ht|Hid].
    + rewrite Ht. destruct (pattern (data ent)) as [s|]; [|done]. simpl in *.
      by destruct (String.eqb_spec s EmptyString).
    + destruct (JS.truthy (pattern (data ent))) eqn:Ht; [|done].
      destruct (pattern (data ent)) as [s|]; [|done]. simpl in *.
      by destruct (String.eqb_spec s EmptyString).
  - intros Hnone Hid. rewrite Hnone. f_equal. simpl.
    change (JS.or_else None (s_id ent)) with (s_id ent). by apply Hstable.
Qed.

End ResolverExtras.


Lemma import_cycle_never_returns_witness :
  Demo.parseSchemaFile 1000 "loop.schema.yml" "/vault" = None.
Proof.
  apply (import_cycle_never_returns Demo.path_name Demo.path_join Demo.readYaml
           Demo.SchemaUtils_fname Demo.createRawProps "/vault"
           (fun f => f = "loop.schema.yml")); [|done].
  intros f ->.
  exists {| Schema.imports := Some ["loop"]; Schema.schemas := Some [] |},
    [], "loop", [].
  split; [reflexivity|]. split; [reflexivity|]. split; [constructor|reflexivity].
Defined.

Section NodeExtras.

Implicit Types (h : list Note) (n : Note) (a p c : addr).

Lemma or_else_nonempty (v : option string) (d : string) :
  d <> EmptyString -> JS.or_else v d <> EmptyString.
Proof.
  intros Hd. unfold JS.or_else, JS.truthy.
  destruct v as [s|]; [|done]. simpl.
  destruct (String.eqb_spec s EmptyString); simpl; done.
Qed.

Lemma or_else_truthy (s d : string) :
  s <> EmptyString -> JS.or_else (Some s) d = s.
Proof.
  intros Hs. unfold JS.or_else, JS.truthy.
  by destruct (String.eqb_spec s EmptyString).
Qed.

(** X19.  [url] tells nodes apart exactly as their [id] does; every note
    built without an [id] has the url [/doc/TODO]. *)
Theorem url_by_id (n m : DNode) :
  (url n = url m <-> id n = id m)
  /\ (forall props, o_id (o_node props) = None ->
        url (Note_new props) = "/doc/TODO").
Proof.
  split.
  - unfold url. split; [|by intros ->].
    intros H. by apply (inj (String.app "/doc/")) in H.
  - intros props Hid. unfold url, Note_new, DNode_new. simpl. by rewrite Hid.
Qed.

(** X20.  [renderBody] never yields the empty string: it is the [body]
    when that is not empty, and [Empty Document] otherwise.  [toDocument]
    holds one text, the rendered body. *)
Theorem renderBody_never_empty (n : DNode) :
  renderBody n <> EmptyString
  /\ (body n <> EmptyString -> renderBody n = body n)
  /\ (body n = EmptyString -> renderBody n = "Empty Document")
  /\ (leaf_text <$> concat (block_nodes <$> doc_nodes (document (toDocument n))))
     = [renderBody n].
Proof.
  split; [by apply or_else_nonempty|].
  split; [apply or_else_truthy|].
  split; [|done]. unfold renderBody. by intros ->.
Qed.

(** X21.  The [schemaId] of a new [Note] is never the empty string: it
    is the one of the options when that is a non-empty string, and [-1]
    when it is absent or empty. *)
Theorem Note_schemaId_never_empty (props : INoteOpts) :
  schemaId (Note_new props) <> EmptyString
  /\ (forall s, o_schemaId props = Some s -> s <> EmptyString ->
        schemaId (Note_new props) = s)
  /\ (o_schemaId props = None \/ o_schemaId props = Some EmptyString ->
      schemaId (Note_new props) = "-1").
Proof.
  split; [by apply or_else_nonempty|]. split.
  - intros s Hs Hne. simpl. rewrite Hs. by apply or_else_truthy.
  - intros [H|H]; simpl; by rewrite H.
Qed.

(** *** addChild does not check *)

Lemma count_occ_snoc (l : list nat) (x : nat) :
  count_occ Nat.eq_dec (l ++ [x]) x = S (count_occ Nat.eq_dec l x).
Proof.
  rewrite count_occ_app. simpl. destruct (Nat.eq_dec x x); [lia|done].
Qed.

(** X15.  [addChild] does not check its argument.  Attaching the same
    child twice to the same node lists it twice among the children, so that
    exactly-once fails.  Attaching a child of [q] to another node [p] sets
    its parent to [p] and leaves it among the children of [q]: the links
    are no longer in order. *)
Theorem addChild_unguarded h p c (pn cn : Note) :
  h !! p = Some pn -> h !! c = Some cn ->
  (exists pn' cn' : Note,
     addChild p c (addChild p c h) !! p = Some pn'
     /\ children pn' = children pn ++ [c; c]
     /\ addChild p c (addChild p c h) !! c = Some cn'
     /\ parent cn' = Some p)
  /\ ~ exactly_once (addChild p c (addChild p c h))
  /\ (forall q (qn : Note),
        h !! q = Some qn -> q <> p -> c ∈ children qn ->
        exists qn' cn' : Note,
          addChild p c h !! q = Some qn'
          /\ c ∈ children qn'
          /\ addChild p c h !! c = Some cn'
          /\ parent cn' = Some p
          /\ ~ well_linked (addChild p c h)).
Proof.
  intros Hp Hc.
  assert (Htwice : exists pn' cn' : Note,
     addChild p c (addChild p c h) !! p = Some pn'
     /\ children pn' = children pn ++ [c; c]
     /\ addChild p c (addChild p c h) !! c = Some cn'
     /\ parent cn' = Some p).
  { exists (addChild_at p c p (addChild_at p c p pn)),
      (addChild_at p c c (addChild_at p c c cn)).
    rewrite !lookup_addChild, Hp, Hc. simpl.
    rewrite !children_addChild_at, !parent_addChild_at.
    rewrite !bool_decide_eq_true_2 by done.
    by rewrite <- app_assoc. }
  split; [exact Htwice|]. split.
  - destruct Htwice as (pn' & cn' & Hp' & Hch & Hc' & Hpar).
    intros Hex. destruct (Hex _ _ _ Hc' Hpar) as (pn2 & Hp2 & Hcount).
    rewrite Hp' in Hp2. injection Hp2 as <-.
    rewrite Hch in Hcount.
    change (children pn ++ [c; c]) with (children pn ++ [c] ++ [c]) in Hcount.
    rewrite app_assoc, !count_occ_snoc in Hcount. lia.
  - intros q qn Hq Hne Hin.
    exists (addChild_at p c q qn), (addChild_at p c c cn).
    rewrite !lookup_addChild, Hq, Hc. simpl.
    rewrite children_addChild_at, parent_addChild_at.
    rewrite (bool_decide_eq_false_2 (q = p)) by done.
    rewrite bool_decide_eq_true_2 by done.
    do 4 (split; [done|]).
    intros (_ & _ & Hcp).
    destruct (Hcp q (addChild_at p c q qn) c) as (cn2 & Hc2 & Hpar2).
    + by rewrite lookup_addChild, Hq.
    + by rewrite children_addChild_at, bool_decide_eq_false_2.
    + rewrite lookup_addChild, Hc in Hc2. injection Hc2 as <-.
      rewrite parent_addChild_at, bool_decide_eq_true_2 in Hpar2 by done.
      congruence.
Qed.

Lemma addChild_unguarded_witness :
  ~ exactly_once (addChild 0 1 (addChild 0 1 Demo.three_notes)).
Proof.
  destruct (addChild_unguarded Demo.three_notes 0 1 _ _ eq_refl eq_refl)
    as (_ & H & _).
  exact H.
Defined.

(** *** The getter on a cycle *)

(** X16.  On a cycle of parents none of which is titled [root], the getter
    [path] returns for no node of the cycle, however deep it may recurse
    (in JavaScript the stack overflows), and looking such a node up as a
    candidate parent throws. *)
Theorem path_on_cycle h (S : addr -> Prop) :
  (forall a, S a ->
     exists (n pn : Note) p,
       h !! a = Some n /\ parent n = Some p
       /\ h !! p = Some pn /\ title pn <> "root" /\ S p) ->
  forall a, S a ->
    (forall fuel, path_fuel fuel h a = None)
    /\ path h a = None
    /\ forall parentPath rest,
         find_parent h parentPath (Some a :: rest) = Throw RangeError.
Proof.
  intros Hcyc.
  assert (Hnone : forall fuel a, S a -> path_fuel fuel h a = None).
  { induction fuel as [|fuel IH]; intros a Ha; [done|].
    destruct (Hcyc a Ha) as (n & pn & p & Hn & Hp & Hpn & Ht & HS).
    simpl. rewrite Hn, Hp, Hpn.
    rewrite bool_decide_eq_true_2 by done. by rewrite (IH p HS). }
  intros a Ha. split; [intros fuel; by apply Hnone|].
  split; [by apply Hnone|].
  intros parentPath rest. simpl. unfold path. by rewrite Hnone.
Qed.

Lemma path_on_cycle_witness :
  path (addChild 0 0 [Note_new (Demo.titled "a")]) 0 = None.
Proof.
  apply (path_on_cycle (addChild 0 0 [Note_new (Demo.titled "a")])
           (fun a => a = 0)); [|done].
  intros a ->.
  eexists _, _, 0.
  split; [reflexivity|]. split; [reflexivity|]. split; [reflexivity|].
  split; [|done]. vm_compute. done.
Defined.

(** *** The fuel of the getter *)

Lemma path_fuel_walk fuel : forall h a s,
  path_fuel fuel h a = Some s -> exists l, walk h a l /\ length l <= fuel.
Proof.
  induction fuel as [|fuel IH]; intros h a s; [done|]. simpl.
  destruct (h !! a) as [n|] eqn:Ha; [|done].
  destruct (parent n) as [p|] eqn:Hp.
  2:{ intros _. exists [a]. split; [by eapply walk_top|simpl; lia]. }
  destruct (h !! p) as [pn|] eqn:Hpn; [|done].
  case_bool_decide as Ht.
  - destruct (path_fuel fuel h p) as [pp|] eqn:Hpp; [|done]. intros _.
    destruct (IH _ _ _ Hpp) as (l & Hl & Hlen).
    exists (a :: l). split; [by eapply walk_up|simpl; lia].
  - intros _. exists [a]. split; [|simpl; lia].
    eapply walk_root; [done..|]. by destruct (decide (title pn = "root")).
Qed.

Lemma walk_path_fuel h a l :
  walk h a l -> forall fuel, length l <= fuel -> is_Some (path_fuel fuel h a).
Proof.
  induction 1 as [a n Ha Hp|a n p pn Ha Hp Hpn Ht|a n p pn l Ha Hp Hpn Ht Hw IH];
    intros fuel Hf; (destruct fuel as [|fuel]; [simpl in Hf; lia|]); simpl;
    rewrite Ha, Hp; [by eexists| |].
  - rewrite Hpn, bool_decide_eq_false_2; [by eexists|]. by intros ?.
  - rewrite Hpn, bool_decide_eq_true_2 by done.
    destruct (IH fuel ltac:(simpl in Hf; lia)) as [pp ->]. by eexists.
Qed.

Lemma walk_functional h a l1 l2 : walk h a l1 -> walk h a l2 -> l1 = l2.
Proof.
  intros H1. revert l2.
  induction H1 as [a n Ha Hp|a n p pn Ha Hp Hpn Ht|a n p pn l Ha Hp Hpn Ht Hw IH];
    intros l2 H2;
    inversion H2 as [a' n' Ha' Hp'|a' n' p' pn' Ha' Hp' Hpn' Ht'
                    |a' n' p' pn' l' Ha' Hp' Hpn' Ht' Hw'];
    subst; rewrite Ha in Ha'; injection Ha' as <-; try congruence.
  rewrite Hp in Hp'. injection Hp' as <-. f_equal. by apply IH.
Qed.

Lemma walk_suffix h a l x :
  walk h a l -> x ∈ l -> exists l1 l2, l = l1 ++ l2 /\ walk h x l2.
Proof.
  induction 1 as [a n Ha Hp|a n p pn Ha Hp Hpn Ht|a n p pn l Ha Hp Hpn Ht Hw IH];
    intros Hx.
  - apply list_elem_of_singleton in Hx as ->.
    exists [], [a]. split; [done|]. by eapply walk_top.
  - apply list_elem_of_singleton in Hx as ->.
    exists [], [a]. split; [done|]. by eapply walk_root.
  - apply elem_of_cons in Hx as [->|Hx].
    + exists [], (a :: l). split; [done|]. by eapply walk_up.
    + destruct (IH Hx) as (l1 & l2 & -> & Hw2). by exists (a :: l1), l2.
Qed.

Lemma walk_NoDup h a l : walk h a l -> NoDup l.
Proof.
  induction 1 as [a n Ha Hp|a n p pn Ha Hp Hpn Ht|a n p pn l Ha Hp Hpn Ht Hw IH];
    [apply NoDup_singleton..|].
  apply NoDup_cons. split; [|done]. intros Hin.
  destruct (walk_suffix _ _ _ _ Hw Hin) as (l1 & l2 & -> & Hw2).
  assert (Heq : l2 = a :: l1 ++ l2).
  { eapply walk_functional; [done|]. by eapply walk_up. }
  apply (f_equal length) in Heq. simpl in Heq. rewrite length_app in Heq. lia.
Qed.

Lemma walk_valid h a l x : walk h a l -> x ∈ l -> x < length h.
Proof.
  induction 1 as [a n Ha Hp|a n p pn Ha Hp Hpn Ht|a n p pn l Ha Hp Hpn Ht Hw IH];
    intros Hx.
  - apply list_elem_of_singleton in Hx as ->. by eapply lookup_lt_Some.
  - apply list_elem_of_singleton in Hx as ->. by eapply lookup_lt_Some.
  - apply elem_of_cons in Hx as [->|Hx]; [by eapply lookup_lt_Some|auto].
Qed.

Lemma walk_length h a l : walk h a l -> length l <= length h.
Proof.
  intros Hw. rewrite <- (length_seq (length h) 0).
  apply submseteq_length, NoDup_submseteq; [by eapply walk_NoDup|].
  intros x Hx. apply elem_of_seq. split; [lia|]. simpl. by eapply walk_valid.
Qed.

Lemma path_fuel_S fuel : forall h a s,
  path_fuel fuel h a = Some s -> path_fuel (S fuel) h a = Some s.
Proof.
  induction fuel as [|fuel IH]; intros h a s; [done|].
  intros H. simpl in H. change (path_fuel (S (S fuel)) h a) with
    (match (h !! a : option Note) with
     | None => None
     | Some n =>
         match parent n with
         | Some p =>
             match (h !! p : option Note) with
             | None => None
             | Some pn =>
                 if bool_decide (title pn ≠ "root")
                 then match path_fuel (S fuel) h p with
                      | Some pp => Some (JS.join_dot [pp; title n])
                      | None => None
                      end
                 else Some (title n)
             end
         | None => Some (title n)
         end
     end).
  destruct (h !! a) as [n|]; [|done].
  destruct (parent n) as [p|]; [|done].
  destruct (h !! p) as [pn|]; [|done].
  case_bool_decide; [|done].
  destruct (path_fuel fuel h p) as [pp|] eqn:Hpp; [|done].
  by rewrite (IH _ _ _ Hpp).
Qed.

Lemma path_fuel_le fuel fuel' h a s :
  fuel <= fuel' -> path_fuel fuel h a = Some s -> path_fuel fuel' h a = Some s.
Proof.
  induction 1 as [|fuel' _ IH]; [done|]. intros H. by apply path_fuel_S, IH.
Qed.

(** X17.  What [path] returns does not depend on the bound of the
    model.  If the getter returns within some bound, then it returns the
    same within every larger one and within the bound [path] uses: the walk
    along the parents ends at a node without parent, or whose parent is
    titled [root], it visits no node twice, and so it is not longer than the
    heap has objects. *)
Theorem path_fuel_adequate fuel h a s :
  path_fuel fuel h a = Some s ->
  path h a = Some s
  /\ (forall fuel', fuel <= fuel' -> path_fuel fuel' h a = Some s)
  /\ exists l, walk h a l /\ NoDup l /\ length l <= length h
       /\ path_fuel (length l) h a = Some s.
Proof.
  intros H.
  destruct (path_fuel_walk _ _ _ _ H) as (l & Hw & Hlen).
  pose proof (walk_length _ _ _ Hw) as Hl.
  assert (Hmin : path_fuel (length l) h a = Some s).
  { destruct (walk_path_fuel _ _ _ Hw (length l) ltac:(done)) as [s' Hs'].
    rewrite Hs'. f_equal.
    pose proof (path_fuel_le _ _ _ _ _ Hlen Hs') as H'. congruence. }
  split; [|split].
  - unfold path. eapply path_fuel_le; [|exact Hmin]. lia.
  - intros fuel' Hle. by eapply path_fuel_le.
  - exists l. split; [done|]. split; [by eapply walk_NoDup|]. done.
Qed.

Lemma path_fuel_adequate_witness :
  path Demo.tree 2 = Some "a.b".
Proof.
  destruct (path_fuel_adequate 100 Demo.tree 2 "a.b") as [H _].
  - reflexivity.
  - exact H.
Defined.

(** *** Attaching a subtree *)

Lemma join_dot_app (l1 l2 : list string) :
  l1 <> [] -> l2 <> [] ->
  JS.join_dot (l1 ++ l2) = JS.join_dot l1 +:+ "." +:+ JS.join_dot l2.
Proof.
  intros H1 H2. induction l1 as [|x l1 IH]; [done|].
  destruct l1 as [|y l1].
  - simpl. by destruct l2.
  - change (JS.join_dot ((x :: y :: l1) ++ l2))
      with (x +:+ "." +:+ JS.join_dot ((y :: l1) ++ l2)).
    rewrite IH by done.
    change (JS.join_dot (x :: y :: l1)) with (x +:+ "." +:+ JS.join_dot (y :: l1)).
    by rewrite !append_assoc_s.
Qed.

Lemma chain_addChild_app h p c (cn : Note) lp a l :
  h !! c = Some cn -> parent cn = None ->
  chain h p lp -> c ∉ lp ->
  chain h a (l ++ [c]) ->
  chain (addChild p c h) a (l ++ c :: lp).
Proof.
  intros Hc Hcp Hlp Hnin. revert a.
  induction l as [|x l IH]; intros a Hch; simpl in *.
  - destruct (chain_head _ _ _ Hch) as (rest & n' & [= <- <-] & _).
    apply chain_up with (addChild_at p c c cn) p.
    + by rewrite lookup_addChild, Hc.
    + by rewrite parent_addChild_at, bool_decide_eq_true_2.
    + by apply chain_addChild_other.
  - pose proof (chain_NoDup _ _ _ Hch) as Hnd.
    destruct (chain_head _ _ _ Hch) as (rest & n' & [= <- <-] & Ha').
    inversion Hch as [a' n2 Ha2 Hp2 Heq|a' n2 q l' Ha2 Hp2 Hc2 Heq]; subst.
    { by destruct l. }
    apply chain_up with (addChild_at p c x n2) q.
    + by rewrite lookup_addChild, Ha2.
    + rewrite parent_addChild_at, bool_decide_eq_false_2; [done|].
      intros ->. apply NoDup_cons in Hnd as [Hnd _]. apply Hnd.
      apply elem_of_app. right. by left.
    + by apply IH.
Qed.

Lemma path_titles_app h l c lp pt :
  Forall (fun x => title_at h x <> "root") (tail (l ++ [c])) ->
  lp = pt :: tail lp ->
  path_titles h (l ++ c :: lp)
  = path_titles h (l ++ [c])
    ++ (if bool_decide (title_at h pt = "root") then [] else path_titles h lp).
Proof.
  intros Hall Hlp. induction l as [|x l IH].
  - simpl. rewrite Hlp. done.
  - simpl in Hall.
    assert (Hhd : exists y r, l ++ [c] = y :: r /\ exists r', l ++ c :: lp = y :: r').
    { destruct l; simpl; eauto. }
    destruct Hhd as (y & r & Hy & r' & Hy').
    change ((x :: l) ++ c :: lp) with (x :: (l ++ c :: lp)).
    change ((x :: l) ++ [c]) with (x :: (l ++ [c])).
    rewrite Hy in Hall. apply Forall_cons in Hall as [Hyr Hall].
    assert (Hstep : forall t, path_titles h (x :: y :: t)
                    = title_at h x :: path_titles h (y :: t)).
    { intros t. simpl. by rewrite bool_decide_eq_false_2. }
    rewrite Hy', Hstep, <- Hy'. rewrite Hy, Hstep, <- Hy.
    rewrite IH; [done|]. rewrite Hy. simpl. done.
Qed.

(** X18.  Attaching a detached node [c] below [p].  The path of a node
    whose chain of parents does not pass through [c] is not changed.  A
    node below [c], with no node titled [root] among its ancestors up to
    [c], gets the path of [p] as a prefix of its path, unless [p] is titled
    [root], where its path stays. *)
Theorem path_addChild_subtree h p c (cn : Note) lp :
  chain h p lp -> h !! c = Some cn -> parent cn = None -> c ∉ lp ->
  (forall a l, chain h a l -> c ∉ l ->
     path (addChild p c h) a = path h a)
  /\ (forall a l pa pp,
        chain h a (l ++ [c]) ->
        Forall (fun x => title_at h x <> "root") (tail (l ++ [c])) ->
        path h a = Some pa -> path h p = Some pp ->
        path (addChild p c h) a
        = Some (if bool_decide (title_at h p = "root") then pa
                else pp +:+ "." +:+ pa)).
Proof.
  intros Hp Hc Hcp Hnin. split.
  - intros a l Ha Hna.
    rewrite (path_chain _ _ _ (chain_addChild_other _ p c _ _ Ha Hna)).
    by rewrite (path_chain _ _ _ Ha), path_titles_addChild.
  - intros a l pa pp Ha Hall Hpa Hpp.
    pose proof (chain_addChild_app _ _ _ _ _ _ _ Hc Hcp Hp Hnin Ha) as Ha'.
    rewrite (path_chain _ _ _ Ha'), path_titles_addChild.
    rewrite (path_chain _ _ _ Ha) in Hpa. injection Hpa as <-.
    rewrite (path_chain _ _ _ Hp) in Hpp. injection Hpp as <-.
    destruct (chain_head _ _ _ Hp) as (rest & pn & -> & Hpn).
    rewrite (path_titles_app h l c (p :: rest) p) by done.
    case_bool_decide; [by rewrite app_nil_r|].
    rewrite rev_app_distr. rewrite join_dot_app; [done| |].
    + intros Hnil. apply (f_equal length) in Hnil. rewrite length_rev in Hnil.
      by destruct rest.
    + intros Hnil. apply (f_equal length) in Hnil. rewrite length_rev in Hnil.
      by destruct l.
Qed.

End NodeExtras.

(** ** Instances *)

Lemma path_addChild_subtree_witness :
  let h := addChild 2 3 (addChild 0 1
             (alloc (Demo.titled "c") Demo.three_notes).2) in
  path h 3 = Some "b.c"
  /\ path (addChild 1 2 h) 3 = Some "a.b.c"
  /\ path (addChild 1 2 h) 1 = Some "a".
Proof.
  intros h.
  assert (H1 : chain h 1 [1; 0]).
  { eapply chain_up; [reflexivity|reflexivity|].
    eapply chain_top; reflexivity. }
  assert (H3 : chain h 3 ([3] ++ [2])).
  { eapply chain_up; [reflexivity|reflexivity|].
    eapply chain_top; reflexivity. }
  destruct (path_addChild_subtree h 1 2 _ [1; 0] H1 eq_refl eq_refl)
    as [Hout Hin].
  { rewrite !elem_of_cons, elem_of_nil. lia. }
  split; [reflexivity|]. split.
  - rewrite (Hin 3 [3] "b.c" "a" H3); [reflexivity| |reflexivity|reflexivity].
    repeat constructor. by vm_compute.
  - rewrite (Hout 1 [1; 0] H1); [reflexivity|].
    rewrite !elem_of_cons, elem_of_nil. lia.
Defined.

Lemma parseSchema_fname_witness :
  exists recs,
    Demo.parseSchema 2 ["shared.schema.yml"; "domain.schema.yml"] "/vault"
    = Some (Ok recs)
    /\ Forall (fun r => Schema.s_fname r = "shared.schema"
                        \/ Schema.s_fname r = "domain.schema") recs.
Proof.
  destruct (Demo.parseSchema 2 ["shared.schema.yml"; "domain.schema.yml"] "/vault")
    as [[recs|e]|] eqn:H; [|vm_compute in H; discriminate H..].
  exists recs. split; [reflexivity|].
  pose proof (parseSchema_fname Demo.path_name Demo.path_join Demo.readYaml
                Demo.SchemaUtils_fname Demo.createRawProps 2 "/vault"
                ["shared.schema.yml"; "domain.schema.yml"] recs
                ltac:(intros f o; reflexivity) H) as Hall.
  eapply Forall_impl; [exact Hall|]. intros r (f & Hf & ->).
  apply elem_of_cons in Hf as [->|Hf]; [by left|].
  apply list_elem_of_singleton in Hf as ->. by right.
Defined.

Lemma import_failure_propagates_witness :
  Schema.parseSchemaFile Demo.path_name Demo.path_join Demo.readYaml_top
    Demo.SchemaUtils_fname Demo.createRawProps 2 "top.schema.yml" "/vault"
  = Some (Throw (Thrown "ENOENT")).
Proof.
  destruct (import_failure_propagates Demo.path_name Demo.path_join
              Demo.readYaml_top Demo.SchemaUtils_fname Demo.createRawProps
              1 "top.schema.yml" "/vault"
              {| Schema.imports := Some ["shared"; "gone"];
                 Schema.schemas := Some [] |}
              ["shared"] "gone" []
              [[Demo.createRawProps
                  (Schema.with_fname "shared.schema" (Demo.entry "x" None ["y"]));
                Demo.createRawProps
                  (Schema.with_fname "shared.schema"
                     (Demo.entry "y" (Some "why") []))]]
              (Thrown "ENOENT")) as [H _].
  - reflexivity.
  - reflexivity.
  - repeat constructor.
  - reflexivity.
  - exact H.
Defined.

Lemma parse_strict_witness :
  missing (Demo.parse None ["root.md"; "a.b.md"]).2 = []
  /\ errors (Demo.parse None ["root.md"; "a.md"; "a.b.md"]).2 = [].
Proof.
  split.
  - destruct (parse_strict Demo.path_name Demo.path_join Demo.globMatch
                Demo.mdFile2NodeProps Demo.root (constructor None)
                ["root.md"; "a.b.md"] (fresh [])) as [H _]; [reflexivity|].
    exact H.
  - unfold Demo.parse.
    destruct (parse_strict Demo.path_name Demo.path_join Demo.globMatch
                Demo.mdFile2NodeProps Demo.root (constructor None)
                ["root.md"; "a.md"; "a.b.md"] (fresh []))
      as (_ & _ & H); [reflexivity|].
    specialize (H eq_refl).
    destruct (FileParser.parse _ _ _ _ _ _ _ _) as [[res|e] s'] eqn:Hrun.
    + exact (proj1 H).
    + vm_compute in Hrun. discriminate Hrun.
Defined.

Lemma parse_first_level_witness :
  exists (rn : Note) cs,
    heap (Demo.parse None ["root.md"; "a.md"; "a.c.md"; "b.md"]).2 !! 0
    = Some rn
    /\ children rn = [1; 2] ++ cs.
Proof.
  destruct (Demo.parse None ["root.md"; "a.md"; "a.c.md"; "b.md"])
    as [[res|e] s'] eqn:Hrun; [|vm_compute in Hrun; discriminate Hrun].
  destruct (parse_first_level Demo.path_name Demo.path_join Demo.globMatch
              Demo.mdFile2NodeProps Demo.root (constructor None)
              ["root.md"; "a.md"; "a.c.md"; "b.md"] (fresh []) res s'
              (Demo.props_of "root"))
    as [(rn & cs & Hrn & _ & _ & _ & Hch) _].
  - reflexivity.
  - by left.
  - reflexivity.
  - exact Hrun.
  - exists rn, cs. split; [exact Hrn|exact Hch].
Defined.

Lemma parse_null_root_witness :
  (Demo.parse_no_root Demo.relaxed ["root.md"; "a.md"]).1 = Throw TypeError.
Proof.
  destruct (parse_null_root Demo.path_name Demo.path_join Demo.globMatch
              Demo.mdFile2NodeProps_no_root Demo.root
              (constructor Demo.relaxed) ["root.md"; "a.md"] (fresh [])
              "bad front matter")
    as (propss & _ & H).
  - reflexivity.
  - by left.
  - reflexivity.
  - reflexivity.
  - by vm_compute.
  - intros f Hf. vm_compute in Hf.
    apply list_elem_of_singleton in Hf as ->. by eexists.
  - unfold Demo.parse_no_root. by rewrite H.
Defined.

(** ** Files the loop ignores *)

Section IgnoredFacts.

Variable path_name : string -> string.
Variable path_join : string -> string -> string.
Variable globMatch : list string -> string -> bool.
Variable mdFile2NodeProps : string -> string + INoteOpts.
Variable root : string.

Local Abbreviation toNode := (toNode path_join mdFile2NodeProps root).
Local Abbreviation level_entry :=
  (level_entry path_join globMatch mdFile2NodeProps root).
Local Abbreviation level_map :=
  (level_map path_join globMatch mdFile2NodeProps root).
Local Abbreviation parse_levels :=
  (parse_levels path_join globMatch mdFile2NodeProps root).
Local Abbreviation getFileMeta := (getFileMeta path_name).
Local Abbreviation parse :=
  (parse path_name path_join globMatch mdFile2NodeProps root).
Local Abbreviation level f := (length (JS.split_dot (path_name f))).
Local Abbreviation kept ents :=
  (List.filter (fun ent => negb (globMatch ["root.*"] (fpath ent))) ents).

Implicit Types (s : PState) (ent : FileMeta).

Lemma level_map_kept opts prev ents : forall (d : gmap string (option addr)) s,
  same_level (level_map opts prev ents d s) (level_map opts prev (kept ents) d s).
Proof.
  induction ents as [|ent ents IH]; intros d s; [done|].
  simpl. destruct (globMatch ["root.*"] (fpath ent)) eqn:Hg; simpl.
  - specialize (IH d s). unfold mbind at 1. unfold M_bind at 1.
    unfold FileParser.level_entry at 1. rewrite Hg.
    unfold mbind, M_bind, mret, M_ret. cbv beta iota.
    change ((@None addr, d).2) with d.
    destruct (level_map opts prev ents d s) as [[rs|e] s1];
      destruct (level_map opts prev (kept ents) d s) as [[rs'|e'] s1'];
      unfold same_level in *; simpl in *; done.
  - unfold mbind, M_bind, mret, M_ret.
    destruct (level_entry opts prev ent d s) as [[r|e] s1]; [|done].
    specialize (IH r.2 s1).
    destruct (level_map opts prev ents r.2 s1) as [[rs|e] s2];
      destruct (level_map opts prev (kept ents) r.2 s1) as [[rs'|e'] s2'];
      unfold same_level in *; simpl in *; try done.
    destruct IH as (-> & -> & Heq). split; [done|]. split; [done|].
    destruct r.1; [f_equal|]; exact Heq.
Qed.

(** The loop over the levels does not see the ignored files. *)
Lemma parse_levels_kept opts (D D' : gmap nat (list FileMeta)) :
  (forall l, kept (default [] (D !! l)) = kept (default [] (D' !! l))) ->
  forall n lvl prev (d : gmap string (option addr)) s,
    parse_levels opts D n lvl prev d s = parse_levels opts D' n lvl prev d s.
Proof.
  intros Hsame. induction n as [|n IH]; intros lvl prev d s; [done|].
  simpl. unfold mbind, M_bind.
  pose proof (level_map_kept opts prev (default [] (D !! lvl)) d s) as H1.
  pose proof (level_map_kept opts prev (default [] (D' !! lvl)) d s) as H2.
  rewrite <- Hsame in H2.
  destruct (level_map opts prev (kept (default [] (D !! lvl))) d s)
    as [[r0|e0] s0];
    destruct (level_map opts prev (default [] (D !! lvl)) d s) as [[r1|e1] s1];
    destruct (level_map opts prev (default [] (D' !! lvl)) d s) as [[r2|e2] s2];
    unfold same_level in *; simpl in *;
    destruct H1 as [-> H1], H2 as [-> H2]; try done.
  - destruct H1 as [-> ->], H2 as [-> ->].
    destruct (index_nodes _ _ _) as [[d1|e] s3]; [apply IH|done].
  - by subst.
Qed.

(** Levels without files to look at leave the index as it is. *)
Lemma parse_levels_idle opts (D : gmap nat (list FileMeta)) :
  forall n lvl prev (d : gmap string (option addr)) s,
    (forall l, lvl <= l -> kept (default [] (D !! l)) = []) ->
    parse_levels opts D n lvl prev d s = (Ok d, s).
Proof.
  induction n as [|n IH]; intros lvl prev d s Hidle; [done|].
  simpl. unfold mbind, M_bind.
  pose proof (level_map_kept opts prev (default [] (D !! lvl)) d s) as H1.
  rewrite (Hidle lvl) in H1 by done. simpl in H1.
  destruct (level_map opts prev (default [] (D !! lvl)) d s) as [[r1|e1] s1];
    unfold same_level in H1; simpl in H1; destruct H1 as [-> H1]; [|done].
  destruct H1 as [-> ->]. simpl.
  apply IH. intros l Hl. apply Hidle. lia.
Qed.

Lemma parse_levels_extra opts (D : gmap nat (list FileMeta)) :
  forall n k lvl prev (d : gmap string (option addr)) s,
    (forall l, lvl + n <= l -> kept (default [] (D !! l)) = []) ->
    parse_levels opts D (n + k) lvl prev d s = parse_levels opts D n lvl prev d s.
Proof.
  induction n as [|n IH]; intros k lvl prev d s Hidle.
  { simpl. apply parse_levels_idle. intros l Hl. apply Hidle. lia. }
  simpl. unfold mbind, M_bind.
  destruct (level_map opts prev _ d s) as [[r|e] s1]; [|done].
  destruct (index_nodes _ _ _) as [[d1|e] s2]; [|done].
  apply IH. intros l Hl. apply Hidle. lia.
Qed.

Lemma bind_ext_run {A B} (m : M A) (f g : A -> M B) s :
  (forall x s', f x s' = g x s') -> (m ≫= f) s = (m ≫= g) s.
Proof.
  intros Hfg. unfold mbind, M_bind. destruct (m s) as [[x|e] s']; [apply Hfg|done].
Qed.

Lemma max_list_le_elem (l : list nat) (n : nat) :
  (forall x, x ∈ l -> x <= n) -> max_list l <= n.
Proof.
  induction l as [|x l IH]; intros H; simpl; [lia|].
  apply Nat.max_lub; [apply H; by left|].
  apply IH. intros y Hy. apply H. by right.
Qed.

(** The deepest level of a listing that is not empty. *)
Lemma maxLvl_of_max (data : list string) :
  data <> [] ->
  maxLvl_of (getFileMeta data) = max_list ((fun f => level f) <$> data).
Proof.
  intros Hne.
  assert (Hkeys : max_list (fst <$> map_to_list (getFileMeta data))
                  = max_list ((fun f => level f) <$> data)).
  { apply max_list_same. intros x. split.
    - intros ([k v] & -> & Hkv%elem_of_map_to_list)%list_elem_of_fmap.
      simpl. rewrite getFileMeta_lookup in Hkv.
      destruct (filter _ data) as [|g l] eqn:Hf; [done|].
      assert (Hg : g ∈ filter (fun f => level f = k) data)
        by (rewrite Hf; by left).
      apply list_elem_of_filter in Hg as [<- Hin].
      by apply (list_elem_of_fmap_2 (fun f => level f)).
    - intros (f & -> & Hin)%list_elem_of_fmap.
      destruct (getFileMeta_elem path_name data f Hin) as (metas & Hm & _).
      apply elem_of_map_to_list in Hm.
      by apply (list_elem_of_fmap_2 fst) in Hm. }
  unfold maxLvl_of. rewrite Hkeys.
  destruct (Nat.eqb_spec (max_list ((fun f => level f) <$> data)) 0) as [H0|];
    [|done].
  destruct data as [|f data]; [done|].
  pose proof (split_dot_length (path_name f)).
  assert (level f <= max_list ((fun f => level f) <$> f :: data))
    by (apply max_list_elem_of_le; by left).
  lia.
Qed.

Lemma default_listing (fs : list string) :
  default [] match fs with
             | [] => None
             | f :: l => Some ((fun f => {| prefix := path_name f; fpath := f |})
                                 <$> f :: l)
             end
  = (fun f => {| prefix := path_name f; fpath := f |}) <$> fs.
Proof. by destruct fs. Qed.

Lemma kept_not_ignored (fs : list string) :
  kept ((fun f => {| prefix := path_name f; fpath := f |}) <$> fs)
  = kept ((fun f => {| prefix := path_name f; fpath := f |})
            <$> filter (fun f => ~ (2 <= level f
                                    /\ globMatch ["root.*"] f = true)) fs).
Proof.
  induction fs as [|f fs IH]; [done|].
  rewrite filter_cons. rewrite fmap_cons. simpl List.filter.
  destruct (decide _) as [Hk|Hi].
  - rewrite fmap_cons. simpl List.filter.
    destruct (globMatch ["root.*"] f); simpl; [exact IH|by rewrite IH].
  - assert (Hg : globMatch ["root.*"] f = true).
    { destruct (globMatch ["root.*"] f) eqn:Hg; [done|].
      exfalso. apply Hi. by intros [_ ?]. }
    rewrite Hg. simpl. exact IH.
Qed.

Lemma filter_filter_comm {A} (P Q : A -> Prop)
    `{forall x, Decision (P x)} `{forall x, Decision (Q x)} (l : list A) :
  filter P (filter Q l) = filter Q (filter P l).
Proof.
  induction l as [|x l IH]; [done|]. rewrite !filter_cons.
  destruct (decide (P x)), (decide (Q x));
    rewrite ?filter_cons, ?decide_True, ?decide_False by done; by rewrite IH.
Qed.

(** X22.  The loop over the levels skips every file that matches [root.*]:
    a run over a listing is the run over the listing without its [root.*]
    files of level 2 and deeper (same outcome, same heap, same logs), as
    long as a file is left.  Such files are not read, and the levels that
    only they reach add nothing. *)
Theorem parse_ignores_root_files opts (data : list string) s :
  let ignored f := 2 <= level f /\ globMatch ["root.*"] f = true in
  filter (fun f => ~ ignored f) data <> [] ->
  parse opts data s = parse opts (filter (fun f => ~ ignored f) data) s.
Proof.
  intros ignored Hne. set (data' := filter (fun f => ~ ignored f) data) in *.
  assert (Hd : data <> []) by (intros ->; done).
  assert (Hlvl : forall l,
            filter (fun f => level f = l) data'
            = filter (fun f => ~ ignored f) (filter (fun f => level f = l) data)).
  { intros l. unfold data'. apply filter_filter_comm. }
  assert (Hkept : forall l,
            kept (default [] (getFileMeta data !! l))
            = kept (default [] (getFileMeta data' !! l))).
  { intros l. rewrite !getFileMeta_lookup, Hlvl, !default_listing.
    apply kept_not_ignored. }
  assert (Hone : getFileMeta data' !! 1 = getFileMeta data !! 1).
  { rewrite !getFileMeta_lookup, Hlvl.
    assert (Hid : forall l0 : list string,
              Forall (fun f => level f = 1) l0 ->
              filter (fun f => ~ ignored f) l0 = l0).
    { induction 1 as [|f l0 Hf _ IH]; [done|].
      rewrite filter_cons, decide_True, IH; [done|].
      intros [Hl _]. lia. }
    rewrite Hid; [done|].
    apply Forall_forall. by intros f [? _]%list_elem_of_filter. }
  assert (Hmax : maxLvl_of (getFileMeta data') <= maxLvl_of (getFileMeta data)).
  { rewrite !maxLvl_of_max by done. apply max_list_le_elem.
    intros x (f & -> & Hin)%list_elem_of_fmap.
    apply max_list_elem_of_le. apply (list_elem_of_fmap_2 (fun f => level f)).
    unfold data' in Hin. by apply list_elem_of_filter in Hin as [_ ?]. }
  assert (Hidle : forall l, 2 + (maxLvl_of (getFileMeta data') - 1) <= l ->
            kept (default [] (getFileMeta data' !! l)) = []).
  { intros l Hl. rewrite getFileMeta_lookup.
    destruct (filter (fun f => level f = l) data') as [|f fs] eqn:Hf; [done|].
    assert (Hin : f ∈ filter (fun f => level f = l) data')
      by (rewrite Hf; by left).
    apply list_elem_of_filter in Hin as [Hlf Hin].
    assert (level f <= maxLvl_of (getFileMeta data')).
    { rewrite maxLvl_of_max by done. apply max_list_elem_of_le.
      by apply (list_elem_of_fmap_2 (fun f => level f)). }
    lia. }
  assert (Hlevels : forall prev (d : gmap string (option addr)) s0,
            parse_levels opts (getFileMeta data)
              (maxLvl_of (getFileMeta data) - 1) 2 prev d s0
            = parse_levels opts (getFileMeta data')
                (maxLvl_of (getFileMeta data') - 1) 2 prev d s0).
  { intros prev d s0.
    assert (Hpos : 1 <= maxLvl_of (getFileMeta data')).
    { unfold maxLvl_of. destruct (max_list _ =? 0) eqn:E; [lia|].
      apply Nat.eqb_neq in E. lia. }
    rewrite (parse_levels_kept opts _ _ Hkept).
    replace (maxLvl_of (getFileMeta data) - 1)
      with ((maxLvl_of (getFileMeta data') - 1)
            + (maxLvl_of (getFileMeta data) - maxLvl_of (getFileMeta data')))
      by lia.
    by apply parse_levels_extra. }
  unfold FileParser.parse.
  rewrite !bool_decide_eq_false_2 by done. rewrite Hone.
  destruct (getFileMeta data !! 1) as [lvl1|]; [|done].
  destruct (find _ lvl1) as [rootMeta|]; [|done].
  apply bind_ext_run. intros r s1.
  apply bind_ext_run. intros prevNodes s2.
  apply bind_ext_run. intros d s3.
  unfold mbind, M_bind. by rewrite Hlevels.
Qed.

End IgnoredFacts.

Lemma parse_ignores_root_files_witness :
  Demo.parse None ["root.md"; "a.md"; "root.x.md"; "root.a.b.c.md"; "a.b.md"]
  = Demo.parse None ["root.md"; "a.md"; "a.b.md"].
Proof.
  unfold Demo.parse.
  rewrite (parse_ignores_root_files Demo.path_name Demo.path_join
             Demo.globMatch Demo.mdFile2NodeProps Demo.root
             (constructor None)
             ["root.md"; "a.md"; "root.x.md"; "root.a.b.c.md"; "a.b.md"]
             (fresh [])); [reflexivity|].
  vm_compute. discriminate.
Defined.

(** ** The candidate parents of a level *)

Import Lookup.

Section ExtendFacts.

Implicit Types (h : list Note) (n : Note) (a p c : addr).

Lemma extends_refl h : extends h h.
Proof. apply frame_refl. Qed.

Lemma extends_lookup h h' a n :
  extends h h' -> h !! a = Some n ->
  exists n' : Note,
    h' !! a = Some n' /\ same_fields n n' /\ parent n' = parent n
    /\ exists cs, children n' = children n ++ cs.
Proof.
  intros (_ & _ & Hk) Ha. apply (Hk a n); [by eapply lookup_lt_Some|done].
Qed.

Lemma extends_trans h1 h2 h3 : extends h1 h2 -> extends h2 h3 -> extends h1 h3.
Proof.
  intros H12 H23. pose proof H12 as (Hl1 & _ & _). pose proof H23 as (Hl2 & _ & _).
  split; [lia|]. split; [intros a Ha; lia|].
  intros a n _ Hn.
  destruct (extends_lookup _ _ _ _ H12 Hn) as (n' & Hn' & Hf' & Hp' & cs' & Hc').
  destruct (extends_lookup _ _ _ _ H23 Hn') as (n'' & Hn'' & Hf'' & Hp'' & cs'' & Hc'').
  exists n''. split; [done|]. split; [by eapply same_fields_trans|].
  split; [congruence|]. exists (cs' ++ cs''). by rewrite Hc'', Hc', app_assoc.
Qed.

Lemma same_fields_title n n' : same_fields n n' -> title n' = title n.
Proof. intros (Hraw & _). by injection Hraw. Qed.

Lemma path_fuel_extends fuel : forall h h' a x,
  extends h h' -> path_fuel fuel h a = Some x -> path_fuel fuel h' a = Some x.
Proof.
  induction fuel as [|fuel IH]; intros h h' a x Hext; [done|]. simpl.
  destruct (h !! a) as [n|] eqn:Ha; [|done].
  destruct (extends_lookup _ _ _ _ Hext Ha) as (n' & -> & Hf & Hp & _).
  rewrite Hp, (same_fields_title _ _ Hf).
  destruct (parent n) as [p|]; [|done].
  destruct (h !! p) as [pn|] eqn:Hpn; [|done].
  destruct (extends_lookup _ _ _ _ Hext Hpn) as (pn' & -> & Hfp & _).
  rewrite (same_fields_title _ _ Hfp).
  case_bool_decide; [|done].
  destruct (path_fuel fuel h p) as [pp|] eqn:Hpp; [|done].
  by rewrite (IH _ _ _ _ Hext Hpp).
Qed.

Lemma path_extends h h' a x :
  extends h h' -> path h a = Some x -> path h' a = Some x.
Proof.
  intros Hext Hp. unfold path in *.
  apply (path_fuel_le (S (length h))); [pose proof Hext as (? & _); lia|].
  by eapply path_fuel_extends.
Qed.

Lemma find_parent_extends h h' pp l q :
  extends h h' -> find_parent h pp l = Ok q -> find_parent h' pp l = Ok q.
Proof.
  intros Hext. induction l as [|[p|] l IH]; simpl; [done| |done].
  destruct (path h p) as [x|] eqn:Hp; [|done].
  rewrite (path_extends _ _ _ _ Hext Hp).
  destruct (String.eqb x pp); [done|apply IH].
Qed.

End ExtendFacts.

Section KeptFacts.

Implicit Types (s : PState) (h : list Note) (n : Note) (a p c : addr).

Lemma fields_kept_refl h : fields_kept h h.
Proof. intros a n Ha. by exists n. Qed.

Lemma fields_kept_trans h1 h2 h3 :
  fields_kept h1 h2 -> fields_kept h2 h3 -> fields_kept h1 h3.
Proof.
  intros H12 H23 a n Ha. destruct (H12 _ _ Ha) as (n' & Hn' & Hf').
  destruct (H23 _ _ Hn') as (n'' & Hn'' & Hf'').
  exists n''. split; [done|]. by eapply same_fields_trans.
Qed.

Lemma fields_kept_app h l : fields_kept h (h ++ l).
Proof. intros a n Ha. exists n. split; [by apply lookup_app_l_Some|done]. Qed.

Lemma fields_kept_addChild h p c : fields_kept h (addChild p c h).
Proof.
  intros a n Ha. exists (addChild_at p c a n).
  rewrite lookup_addChild, Ha. split; [done|apply same_fields_addChild_at].
Qed.

Lemma extends_fields_kept h h' : extends h h' -> fields_kept h h'.
Proof.
  intros Hext a n Ha.
  destruct (extends_lookup _ _ _ _ Hext Ha) as (n' & Hn' & Hf & _).
  by exists n'.
Qed.

Lemma stub_chain_kept parts : forall stubPath parent s,
  fields_kept (heap s) (heap (stub_chain stubPath parent parts s).2).
Proof.
  induction parts as [|part rest IH]; intros stubPath parent s.
  { apply fields_kept_refl. }
  set (sp := if String.eqb stubPath EmptyString then part
             else stubPath +:+ "." +:+ part).
  set (k := length (heap s)).
  set (s1 := with_heap (addChild parent k
                          (heap s ++ [Note_new (stub_props sp part)])) s).
  change (stub_chain stubPath parent (part :: rest) s)
    with (match stub_chain sp k rest s1 with
          | (Ok r, s2) => (Ok (r.1, k :: r.2), s2)
          | (Throw e, s2) => (Throw e, s2)
          end).
  pose proof (IH sp k s1) as Hk.
  assert (H1 : fields_kept (heap s) (heap s1)).
  { eapply fields_kept_trans; [apply fields_kept_app|apply fields_kept_addChild]. }
  destruct (stub_chain sp k rest s1) as [[r|e] s2]; simpl in *;
    by eapply fields_kept_trans.
Qed.

Lemma createStubNotes_kept from to s :
  fields_kept (heap s) (heap (createStubNotes from to s).2).
Proof.
  unfold createStubNotes.
  destruct from as [f|], to as [t|]; try apply fields_kept_refl.
  unfold mbind, M_bind, get_heap.
  destruct (heap s !! f) as [fromN|]; [|apply fields_kept_refl].
  destruct (heap s !! t) as [toN|]; [|apply fields_kept_refl].
  match goal with |- context [stub_chain ?sp f ?parts s] =>
    pose proof (stub_chain_kept parts sp f s) as Hk;
    destruct (stub_chain sp f parts s) as [[r|e] s1]
  end; simpl in *; [|done].
  eapply fields_kept_trans; [done|apply fields_kept_addChild].
Qed.

End KeptFacts.

Section LookupFacts.

Variable path_name : string -> string.
Variable path_join : string -> string -> string.
Variable globMatch : list string -> string -> bool.
Variable mdFile2NodeProps : string -> string + INoteOpts.
Variable root : string.

Local Abbreviation toNode := (toNode path_join mdFile2NodeProps root).
Local Abbreviation level_entry :=
  (level_entry path_join globMatch mdFile2NodeProps root).
Local Abbreviation level_map :=
  (level_map path_join globMatch mdFile2NodeProps root).
Local Abbreviation parse_levels :=
  (parse_levels path_join globMatch mdFile2NodeProps root).
Local Abbreviation getFileMeta := (getFileMeta path_name).
Local Abbreviation parse :=
  (parse path_name path_join globMatch mdFile2NodeProps root).
Local Abbreviation built := (built path_join mdFile2NodeProps root).
Local Abbreviation resolved :=
  (resolved path_join globMatch mdFile2NodeProps root).
Local Abbreviation unmatched := (unmatched globMatch).

Implicit Types (s : PState) (h : list Note) (ent : FileMeta).

Lemma built_kept h h' ent a : fields_kept h h' -> built h ent a -> built h' ent a.
Proof.
  intros Hk (props & nd & Hmd & Ha & Hf).
  destruct (Hk _ _ Ha) as (nd' & Ha' & Hf').
  exists props, nd'. split; [done|]. split; [done|]. by eapply same_fields_trans.
Qed.

Lemma resolved_extends h h' es es' cands ent x :
  extends h h' -> (forall m, m ∈ es -> m ∈ es') ->
  resolved h es cands ent x -> resolved h' es' cands ent x.
Proof.
  intros Hext Hes. unfold Lookup.resolved.
  destruct (globMatch _ _); [done|].
  destruct (mdFile2NodeProps _) as [err|props].
  { intros [-> Hin]. split; [done|by apply Hes]. }
  intros (a & nd & q & -> & Ha & Hf & Hfind & Hq).
  destruct (extends_lookup _ _ _ _ Hext Ha) as (nd' & Ha' & Hf' & Hp' & _).
  exists a, nd', q. split; [done|]. split; [done|].
  split; [by eapply same_fields_trans|].
  split; [by eapply find_parent_extends|].
  destruct q as [p|]; [|by apply Hes].
  destruct Hq as (Hpar & pn & Hpn & Hin).
  split; [congruence|].
  destruct (extends_lookup _ _ _ _ Hext Hpn) as (pn' & Hpn' & _ & _ & cs & Hcs).
  exists pn'. split; [done|]. rewrite Hcs. apply elem_of_app. by left.
Qed.

Lemma unmatched_extends h h' cands ents ents' ent pp :
  extends h h' -> (forall e, e ∈ ents -> e ∈ ents') ->
  unmatched h cands ents ent pp -> unmatched h' cands ents' ent pp.
Proof.
  intros Hext Hsub (Hin & Hg & Hpp & Hfind).
  split; [by apply Hsub|]. split; [done|]. split; [done|].
  by eapply find_parent_extends.
Qed.

Lemma level_entry_extends opts prev ent (d : gmap string (option addr)) s :
  extends (heap s) (heap (level_entry opts prev ent d s).2).
Proof.
  apply (level_entry_frame path_join globMatch mdFile2NodeProps root
           0 (length (heap s)) opts prev ent d s); [lia|lia| |].
  - apply Forall_forall. intros x _ a _. lia.
  - intros k a _. lia.
Qed.

Lemma find_parent_no_parent h pp l msg :
  find_parent h pp l <> Throw (NoParent msg).
Proof.
  induction l as [|[p|] l IH]; simpl; [done| |done].
  destruct (path h p) as [x|]; [|done].
  by destruct (String.eqb x pp).
Qed.

(** One file of a level. *)
Lemma level_entry_resolved opts cands ent (d : gmap string (option addr)) s res s1 :
  level_entry opts (Some <$> cands) ent d s = (res, s1) ->
  extends (heap s) (heap s1)
  /\ exists es1,
       errors s1 = errors s ++ es1
       /\ (forall r, res = Ok r -> resolved (heap s1) es1 cands ent r.1)
       /\ (forall e pp, NO_PARENT_PATH e pp ∈ es1 ->
             unmatched (heap s1) cands [ent] e pp)
       /\ (forall msg, res = Throw (NoParent msg) ->
             msg = NO_PARENT_PATH ent (dirName (prefix ent)) /\ msg ∈ es1).
Proof.
  intros Hrun.
  pose proof (level_entry_extends opts (Some <$> cands) ent d s) as Hext.
  rewrite Hrun in Hext. simpl in Hext. split; [done|].
  unfold Lookup.resolved.
  unfold FileParser.level_entry in Hrun.
  destruct (globMatch ["root.*"] (fpath ent)) eqn:Hglob.
  { injection Hrun as <- <-. exists []. rewrite app_nil_r.
    split; [done|]. split; [by intros r [= <-]|].
    split; [by intros e pp ?%elem_of_nil|done]. }
  unfold mbind, M_bind in Hrun.
  destruct (mdFile2NodeProps (path_join root (fpath ent))) as [err|props] eqn:Hmd.
  { rewrite (toNode_bad_parse _ _ _ _ _ _ _ _ Hmd) in Hrun.
    destruct (JS.defaults _ _).
    { injection Hrun as <- <-. exists []. rewrite app_nil_r.
      split; [done|]. split; [done|].
      split; [by intros e pp ?%elem_of_nil|done]. }
    simpl in Hrun. injection Hrun as <- <-. exists [BAD_PARSE ent err].
    split; [done|]. split; [intros r [= <-]; split; [done|by left]|].
    split; [by intros e pp [=]%list_elem_of_singleton|done]. }
  rewrite (toNode_parsed _ _ _ _ _ _ _ _ Hmd) in Hrun. cbv zeta in Hrun.
  destruct (find_parent (heap s) (dirName (prefix ent)) (Some <$> cands))
    as [[p|]|e] eqn:Hfind.
  - (* a candidate has the path *)
    simpl in Hrun. injection Hrun as <- <-. exists []. rewrite app_nil_r.
    split; [done|]. split; [|split; [by intros e pp ?%elem_of_nil|done]].
    intros r [= <-].
    pose proof (find_parent_extends _ _ _ _ _ Hext Hfind) as Hfind'.
    destruct (find_parent_Some _ _ _ _ Hfind) as [_ Hpath].
    destruct (path_fuel_valid _ _ _ _ Hpath) as [pn Hpn].
    assert (Hlt : p < length (heap s)) by (by eapply lookup_lt_Some).
    set (k := length (heap s)) in *.
    exists k, (addChild_at p k k (Note_new (with_parent (Some p) props))),
      (Some p).
    split; [done|]. simpl. rewrite !lookup_addChild.
    rewrite (lookup_app_l_Some _ _ _ _ Hpn).
    rewrite lookup_app_r, Nat.sub_diag by done. simpl.
    split; [done|].
    split; [apply same_fields_addChild_at|].
    split; [exact Hfind'|].
    split; [by rewrite parent_addChild_at, bool_decide_eq_true_2|].
    eexists. split; [done|].
    rewrite children_addChild_at, bool_decide_eq_true_2 by done.
    apply elem_of_app. right. by left.
  - (* no candidate has it *)
    simpl in Hrun.
    set (k := length (heap s)) in *.
    set (msg := NO_PARENT_PATH ent (dirName (prefix ent))) in *.
    pose proof (find_parent_extends _ _ _ _ _ Hext Hfind) as Hfind'.
    assert (Hun : forall e pp, NO_PARENT_PATH e pp ∈ [msg] ->
              unmatched (heap s1) cands [ent] e pp).
    { intros e pp [= -> ->]%list_elem_of_singleton.
      split; [by left|]. by split. }
    destruct (p_errorOnEmpty opts) eqn:HeE; simpl in Hrun.
    { injection Hrun as <- <-. exists [msg]. split; [done|].
      split; [done|]. split; [exact Hun|].
      intros msg' [= <-]. split; [done|by left]. }
    set (s0 := with_heap (heap s ++ [Note_new (with_parent None props)])
                 (with_error msg s)) in *.
    assert (Hk0 : heap s0 !! k = Some (Note_new (with_parent None props)))
      by apply (lookup_alloc_new (with_parent None props)).
    assert (Hend : errors s1 = errors s ++ [msg]
                   /\ (forall r, res = Ok r ->
                         r.1 = Some k /\ fields_kept (heap s0) (heap s1))
                   /\ forall msg', res <> Throw (NoParent msg')).
    { destruct (negb _).
      2:{ unfold mret, M_ret in Hrun. injection Hrun as <- <-.
          split; [done|]. split; [|done]. intros r [= <-].
          split; [done|apply fields_kept_refl]. }
      cbv beta in Hrun. rewrite Hk0 in Hrun. cbv beta iota in Hrun.
      match type of Hrun with context [createStubNotes ?c ?t s0] =>
        pose proof (createStubNotes_kept c t s0) as Hkept;
        destruct (createStubNotes c t s0) as [[stubs|e] s2] eqn:Hcs
      end; destruct (createStubNotes_fields _ _ _ _ _ Hcs) as (He2 & _ & Hn2).
      2:{ injection Hrun as <- <-. split; [by rewrite He2|].
          split; [done|]. intros msg' [= ->]. by apply (Hn2 msg'). }
      pose proof (index_nodes_state stubs d s2) as Hs3.
      pose proof (index_nodes_no_parent stubs d s2) as Hn3.
      destruct (index_nodes stubs d s2) as [[d1|e] s3]; simpl in Hs3, Hn3;
        subst s3.
      2:{ injection Hrun as <- <-. split; [by rewrite He2|].
          split; [done|]. intros msg' [= ->]. by apply (Hn3 msg'). }
      unfold mret, M_ret in Hrun. injection Hrun as <- <-. simpl.
      split; [by rewrite He2|]. split; [|done]. intros r [= <-].
      split; [done|exact Hkept]. }
    destruct Hend as (Herr & Hok & Hno).
    exists [msg]. split; [done|]. split; [|split; [exact Hun|]].
    + intros r Hr. destruct (Hok _ Hr) as [Hr1 Hkept].
      destruct (Hkept _ _ Hk0) as (nd & Hnd & Hf).
      exists k, nd, None. split; [done|]. split; [done|]. split; [exact Hf|].
      split; [exact Hfind'|by left].
    + intros msg' ->. by destruct (Hno msg').
  - (* the lookup throws *)
    simpl in Hrun. injection Hrun as <- <-. exists []. rewrite app_nil_r.
    split; [done|]. split; [done|].
    split; [by intros e' pp ?%elem_of_nil|].
    intros msg [= ->]. by destruct (find_parent_no_parent _ _ _ _ Hfind).
Qed.

(** The files of a level, as far as the run gets. *)
Lemma level_map_resolved opts cands ents :
  forall (d : gmap string (option addr)) s res s1,
  level_map opts (Some <$> cands) ents d s = (res, s1) ->
  extends (heap s) (heap s1)
  /\ exists es1 pre rs,
       errors s1 = errors s ++ es1
       /\ Forall2 (resolved (heap s1) es1 cands) pre rs
       /\ match res with
          | Ok r => pre = ents /\ rs = r.1
          | Throw e =>
              exists ent post,
                ents = pre ++ ent :: post
                /\ forall msg, e = NoParent msg ->
                     msg = NO_PARENT_PATH ent (dirName (prefix ent))
                     /\ msg ∈ es1
          end
       /\ (forall e pp, NO_PARENT_PATH e pp ∈ es1 ->
             unmatched (heap s1) cands ents e pp).
Proof.
  induction ents as [|ent ents IH]; intros d s res s1 Hrun.
  { injection Hrun as <- <-. split; [apply extends_refl|].
    exists [], [], []. rewrite app_nil_r. split; [done|]. split; [done|].
    split; [done|]. by intros e pp ?%elem_of_nil. }
  simpl in Hrun. unfold mbind, M_bind in Hrun.
  destruct (level_entry opts (Some <$> cands) ent d s) as [res1 sa] eqn:He.
  destruct (level_entry_resolved _ _ _ _ _ _ _ He)
    as (Hext1 & es1 & Herr1 & Hres1 & Hun1 & Hno1).
  destruct res1 as [r1|e].
  2:{ injection Hrun as <- <-. split; [done|].
      exists es1, [], []. split; [done|]. split; [done|]. split.
      - exists ent, ents. split; [done|]. intros msg ->. by apply Hno1.
      - intros e' pp Hin.
        eapply unmatched_extends; [apply extends_refl| |by apply Hun1].
        intros e'' ->%list_elem_of_singleton. by left. }
  specialize (Hres1 _ eq_refl).
  destruct (level_map opts (Some <$> cands) ents r1.2 sa) as [res2 sb] eqn:Hm.
  destruct (IH _ _ _ _ Hm) as (Hext2 & es2 & pre & rs & Herr2 & Hres2 & Hout & Hun2).
  assert (Hs1 : s1 = sb) by (destruct res2; by injection Hrun as _ <-).
  subst s1.
  split; [by eapply extends_trans|].
  exists (es1 ++ es2), (ent :: pre), (r1.1 :: rs).
  split; [by rewrite Herr2, Herr1, app_assoc|].
  split.
  { constructor.
    - eapply resolved_extends; [exact Hext2| |exact Hres1].
      intros m Hm'. apply elem_of_app. by left.
    - eapply Forall2_impl; [exact Hres2|]. intros e x Hx.
      eapply resolved_extends; [apply extends_refl| |exact Hx].
      intros m Hm'. apply elem_of_app. by right. }
  split.
  { destruct res2 as [rs'|e].
    - unfold mret, M_ret in Hrun. injection Hrun as <-.
      destruct Hout as [-> ->]. done.
    - injection Hrun as <-. destruct Hout as (ent' & post & -> & Hmsg).
      exists ent', post. split; [done|]. intros msg Hmsg'.
      destruct (Hmsg _ Hmsg') as [-> Hin]. split; [done|].
      apply elem_of_app. by right. }
  intros e pp [Hin|Hin]%elem_of_app.
  - eapply unmatched_extends; [exact Hext2| |by apply Hun1].
    intros e' ->%list_elem_of_singleton. by left.
  - eapply unmatched_extends; [apply extends_refl| |by apply Hun2].
    intros e' He'. by right.
Qed.

(** The levels of the loop, as far as the run gets: [c0] are the candidates
    of the first of them, and [done] levels are gone through. *)
Lemma parse_levels_resolved opts (D : gmap nat (list FileMeta)) n :
  forall l0 c0 (d : gmap string (option addr)) s res s1,
  parse_levels opts D n (S l0) (Some <$> c0) d s = (res, s1) ->
  extends (heap s) (heap s1)
  /\ exists (cands : nat -> list addr) es1 done,
       cands l0 = c0
       /\ errors s1 = errors s ++ es1
       /\ (forall k, k < done ->
             exists rs,
               Forall2 (resolved (heap s1) es1 (cands (l0 + k)))
                 (default [] (D !! S (l0 + k))) rs
               /\ cands (S (l0 + k)) = omap (fun x => x) rs)
       /\ match res with
          | Ok _ => done = n
          | Throw e =>
              done < n
              /\ exists pre post rs,
                   default [] (D !! S (l0 + done)) = pre ++ post
                   /\ Forall2 (resolved (heap s1) es1 (cands (l0 + done)))
                        pre rs
                   /\ forall msg, e = NoParent msg ->
                        exists ent post',
                          post = ent :: post'
                          /\ msg = NO_PARENT_PATH ent (dirName (prefix ent))
                          /\ msg ∈ es1
          end
       /\ (forall ent pp, NO_PARENT_PATH ent pp ∈ es1 ->
             exists k, k <= done /\ k < n
               /\ unmatched (heap s1) (cands (l0 + k))
                    (default [] (D !! S (l0 + k))) ent pp).
Proof.
  induction n as [|n IH]; intros l0 c0 d s res s1 Hrun.
  { injection Hrun as <- <-. split; [apply extends_refl|].
    exists (fun _ => c0), [], 0. rewrite app_nil_r.
    split; [done|]. split; [done|]. split; [intros k Hk; lia|].
    split; [done|]. by intros ent pp ?%elem_of_nil. }
  simpl in Hrun. unfold mbind, M_bind in Hrun.
  destruct (level_map opts (Some <$> c0) (default [] (D !! S l0)) d s)
    as [resm sa] eqn:Hm.
  destruct (level_map_resolved _ _ _ _ _ _ _ Hm)
    as (Hext1 & es1 & pre & rs & Herr1 & Hres1 & Hout1 & Hun1).
  destruct resm as [r|e].
  2:{ injection Hrun as <- <-. split; [done|].
      exists (fun _ => c0), es1, 0. rewrite Nat.add_0_r.
      split; [done|]. split; [done|]. split; [intros k Hk; lia|].
      destruct Hout1 as (ent & post & Hents & Hmsg).
      split.
      - split; [lia|]. exists pre, (ent :: post), rs.
        split; [done|]. split; [done|].
        intros msg Hmsg'. exists ent, post. split; [done|by apply Hmsg].
      - intros ent' pp Hin. exists 0. rewrite Nat.add_0_r.
        split; [lia|]. split; [lia|by apply Hun1]. }
  destruct Hout1 as [-> ->].
  pose proof (index_nodes_state (omap (fun n => n) r.1) r.2 sa) as Hi.
  pose proof (index_nodes_no_parent (omap (fun n => n) r.1) r.2 sa) as Hn.
  destruct (index_nodes _ r.2 sa) as [[d2|e] sa'] eqn:Hidx; simpl in Hi, Hn;
    subst sa'.
  2:{ injection Hrun as <- <-. split; [done|].
      exists (fun _ => c0), es1, 0. rewrite Nat.add_0_r.
      split; [done|]. split; [done|]. split; [intros k Hk; lia|].
      split.
      - split; [lia|]. exists (default [] (D !! S l0)), [], r.1.
        rewrite app_nil_r. split; [done|]. split; [done|].
        intros msg ->. by destruct (Hn msg).
      - intros ent' pp Hin. exists 0. rewrite Nat.add_0_r.
        split; [lia|]. split; [lia|by apply Hun1]. }
  destruct (IH _ _ _ _ _ _ Hrun)
    as (Hext2 & cands' & es2 & done' & Hc' & Herr2 & Hlev & Hout & Hun2).
  split; [by eapply extends_trans|].
  exists (fun L => if decide (L = l0) then c0 else cands' L), (es1 ++ es2),
    (S done').
  rewrite decide_True by done. split; [done|].
  split; [by rewrite Herr2, Herr1, app_assoc|].
  split.
  { intros [|k] Hk.
    - rewrite Nat.add_0_r. exists r.1.
      rewrite decide_True by done. rewrite decide_False by lia.
      split; [|done].
      eapply Forall2_impl; [exact Hres1|]. intros e x Hx.
      eapply resolved_extends; [exact Hext2| |exact Hx].
      intros m Hm'. apply elem_of_app. by left.
    - destruct (Hlev k ltac:(lia)) as (rs & Hrs & Hcs).
      replace (l0 + S k) with (S l0 + k) by lia.
      exists rs. rewrite !decide_False by lia. split; [|done].
      eapply Forall2_impl; [exact Hrs|]. intros e x Hx.
      eapply resolved_extends; [apply extends_refl| |exact Hx].
      intros m Hm'. apply elem_of_app. by right. }
  split.
  { destruct res as [d'|e]; [lia|].
    destruct Hout as (Hlt & pre & post & rs & Hsplit & Hpre & Hmsg).
    split; [lia|].
    replace (l0 + S done') with (S l0 + done') by lia.
    exists pre, post, rs. split; [done|].
    rewrite decide_False by lia. split.
    - eapply Forall2_impl; [exact Hpre|]. intros e' x Hx.
      eapply resolved_extends; [apply extends_refl| |exact Hx].
      intros m Hm'. apply elem_of_app. by right.
    - intros msg Hmsg'.
      destruct (Hmsg _ Hmsg') as (ent & post' & -> & -> & Hin).
      exists ent, post'. split; [done|]. split; [done|].
      apply elem_of_app. by right. }
  intros ent pp [Hin|Hin]%elem_of_app.
  - exists 0. split; [lia|]. split; [lia|]. rewrite Nat.add_0_r.
    rewrite decide_True by done.
    eapply unmatched_extends; [exact Hext2| |by apply Hun1]. done.
  - destruct (Hun2 _ _ Hin) as (k & Hk & Hk' & Hu).
    exists (S k). split; [lia|]. split; [lia|].
    replace (l0 + S k) with (S l0 + k) by lia.
    by rewrite decide_False by lia.
Qed.

Lemma attach_domains_kept rootNode nodes :
  forall (d : gmap string (option addr)) s,
  fields_kept (heap s) (heap (attach_domains rootNode nodes d s).2).
Proof.
  induction nodes as [|n nodes IH]; intros d s; [apply fields_kept_refl|].
  simpl. unfold mbind at 1. unfold M_bind at 1.
  destruct rootNode as [r|], n as [c|]; simpl; try apply fields_kept_refl.
  unfold mbind at 1. unfold M_bind at 1. unfold get_heap, put_heap.
  unfold mbind, M_bind, fname_key. simpl.
  destruct (addChild r c (heap s) !! c) as [nd|]; simpl;
    [|apply fields_kept_addChild].
  eapply fields_kept_trans; [apply fields_kept_addChild|].
  apply (IH _ (with_heap (addChild r c (heap s)) s)).
Qed.

Lemma built_seq propss : forall ents (h0 : list Note),
  Forall2 (fun ent props =>
             mdFile2NodeProps (path_join root (fpath ent)) = inr props)
    ents propss ->
  Forall2 (built (h0 ++ ((fun p => Note_new (with_parent None p)) <$> propss)))
    ents (seq (length h0) (length ents)).
Proof.
  induction propss as [|props propss IH]; intros ents h0 Hall.
  { apply Forall2_nil_inv_r in Hall as ->. constructor. }
  apply Forall2_cons_inv_r in Hall as (ent & ents' & Hmd & Hall & ->).
  simpl. constructor.
  - exists props, (Note_new (with_parent None props)).
    split; [done|]. split; [|done].
    rewrite lookup_app_r, Nat.sub_diag by done. done.
  - specialize (IH ents' (h0 ++ [Note_new (with_parent None props)]) Hall).
    rewrite length_app, Nat.add_1_r, <- app_assoc in IH. exact IH.
Qed.

Lemma level_of_meta data L ent :
  ent ∈ default [] (getFileMeta data !! L) ->
  L = length (JS.split_dot (prefix ent)).
Proof.
  rewrite getFileMeta_lookup.
  destruct (filter _ data) as [|g l] eqn:Hf; [by intros ?%elem_of_nil|].
  intros (f & -> & Hin)%list_elem_of_fmap.
  rewrite <- Hf in Hin. by apply list_elem_of_filter in Hin as [Hl _].
Qed.

(** The root and the first level: [toNode] with [isRoot] and no candidate
    records no [NO_PARENT_PATH] entry and throws none. *)
Lemma toNode_isRoot ent b s res s1 :
  toNode ent [] {| t_errorOnEmpty := None; t_isRoot := Some true;
                   t_errorOnBadParse := b |} s = (res, s1) ->
  (forall msg, res <> Throw (NoParent msg))
  /\ exists es1, errors s1 = errors s ++ es1
                 /\ forall e pp, NO_PARENT_PATH e pp ∉ es1.
Proof.
  destruct (mdFile2NodeProps (path_join root (fpath ent))) as [err|props] eqn:Hmd.
  - rewrite (toNode_bad_parse _ _ _ _ _ _ _ _ Hmd).
    destruct (JS.defaults _ _); intros [= <- <-]; (split; [done|]).
    + exists []. rewrite app_nil_r. split; [done|].
      by intros e pp ?%elem_of_nil.
    + exists [BAD_PARSE ent err]. split; [done|].
      by intros e pp [=]%list_elem_of_singleton.
  - rewrite (toNode_parsed _ _ _ _ _ _ _ _ Hmd). simpl.
    intros [= <- <-]. split; [done|].
    exists []. rewrite app_nil_r. split; [done|].
    by intros e pp ?%elem_of_nil.
Qed.

(** The run up to the loop over the levels. *)
Lemma parse_first_stage opts data s res s' :
  length (JS.split_dot (path_name "root.md")) = 1 -> "root.md" ∈ data ->
  parse opts data s = (res, s') ->
  let D := getFileMeta data in
  (forall msg, res <> Throw (NoParent msg)) /\ (forall v, res <> Ok v)
  \/ exists c1 (d0 : gmap string (option addr)) s3 esR res',
       errors s3 = errors s ++ esR
       /\ (forall e pp, NO_PARENT_PATH e pp ∉ esR)
       /\ Forall2 (built (heap s3))
            (List.filter (fun n => negb (String.eqb (fpath n) "root.md"))
               (default [] (D !! 1))) c1
       /\ parse_levels opts D (maxLvl_of D - 1) 2 (Some <$> c1) d0 s3
          = (res', s')
       /\ match res' with
          | Ok d' => exists v, res = Ok v
          | Throw e => res = Throw e
          end.
Proof.
  intros Hlvl Hin Hrun D.
  destruct (first_level path_name data Hlvl Hin) as (Hl1 & Hfind & Hdoms).
  unfold FileParser.parse in Hrun.
  rewrite bool_decide_eq_false_2 in Hrun
    by (intros ->; by apply elem_of_nil in Hin).
  fold D in Hrun, Hl1. rewrite Hl1. rewrite Hl1 in Hrun. simpl default.
  rewrite Hfind in Hrun.
  set (doms := List.filter _ _) in *. clearbody doms.
  unfold mbind at 1 in Hrun. unfold M_bind at 1 in Hrun.
  destruct (toNode _ [] _ s) as [resR sR] eqn:Hroot.
  destruct (toNode_isRoot _ _ _ _ _ Hroot) as (HnoR & esR & HerrR & HesR).
  destruct resR as [r|e].
  2:{ left. injection Hrun as <- <-. split; [|done].
      intros msg [= ->]. by apply (HnoR msg). }
  unfold mbind at 1 in Hrun. unfold M_bind at 1 in Hrun.
  destruct (mapM (M := M) _ doms sR) as [resM s2] eqn:Hm.
  destruct (domain_roots_run _ _ _ _ _ _ _ Hm)
    as (propss & Hh2 & Herr2 & _ & HresM).
  destruct resM as [prevNodes|e].
  2:{ left. injection Hrun as <- <-.
      destruct HresM as (? & ? & ? & err & _ & _ & _ & ->).
      split; [done|done]. }
  destruct HresM as [-> Hprops].
  pose proof (built_seq propss doms (heap sR) Hprops) as Hbuilt.
  rewrite <- Hh2 in Hbuilt.
  unfold mbind at 1 in Hrun. unfold M_bind at 1 in Hrun.
  pose proof (attach_domains_kept r.1
                (Some <$> seq (length (heap sR)) (length doms))
                (<["root" := r.1]> ∅) s2) as Hkept3.
  destruct (attach_domains_fields r.1
              (Some <$> seq (length (heap sR)) (length doms))
              (<["root" := r.1]> ∅) s2) as (Herr3 & _ & Hno3).
  destruct (attach_domains _ _ _ s2) as [[d0|e] s3].
  2:{ left. injection Hrun as <- <-. simpl in Hno3. split; [|done].
      intros msg [= ->]. by apply (Hno3 msg). }
  simpl in Hkept3, Herr3.
  unfold mbind, M_bind in Hrun.
  destruct (parse_levels opts D (maxLvl_of D - 1) 2 _ d0 s3)
    as [res' s4] eqn:Hp.
  right. exists (seq (length (heap sR)) (length doms)), d0, s3, esR, res'.
  split; [by rewrite Herr3, Herr2|]. split; [done|].
  split.
  { eapply Forall2_impl; [exact Hbuilt|]. intros e a Hb.
    eapply built_kept; [exact Hkept3|exact Hb]. }
  destruct res' as [d'|e]; injection Hrun as <- <-; (split; [done|]).
  - by eexists.
  - done.
Qed.

(** A run that throws a [NO_PARENT_PATH] error has found [root.md]. *)
Lemma parse_no_parent_root opts data s msg s' :
  parse opts data s = (Throw (NoParent msg), s') ->
  length (JS.split_dot (path_name "root.md")) = 1 /\ "root.md" ∈ data.
Proof.
  unfold FileParser.parse. case_bool_decide; [done|].
  rewrite getFileMeta_lookup.
  destruct (filter _ data) as [|g l] eqn:Hf; [done|].
  destruct (find _ _) as [rootMeta|] eqn:Hfind; [|done].
  intros _. apply find_some in Hfind as [Hm Hroot].
  apply String.eqb_eq in Hroot.
  apply list_elem_of_In, list_elem_of_fmap in Hm as (f & -> & Hf').
  rewrite <- Hf in Hf'. apply list_elem_of_filter in Hf' as [Hl Hin'].
  simpl in Hroot. by subst f.
Qed.


End LookupFacts.

